(** * ManipuLogic: well-formedness, evaluation and validity of
      propositional formulas

    A shallow embedding of the notebook [non_work_projects/manipulogic.ipynb]:
    [is_well_formed], [tokenize], [evaluate_statement] (with its inner
    [eval_tokens]), [generate_truth_table], [check_validity],
    [check_user_argument] and [start_command_line_mode].

    Conventions of the embedding.
    - A Python [str] is a [string]; a character is an [ascii], a code point
      below 256.  The source only ever discriminates the ASCII characters
      [A-Z & + > ^ = ( ) ~] and, in [strip], white space; every other
      character is treated alike.
    - A Python list used as a stack ([append] / [pop] at the end) is a [list]
      whose head is the top of the stack.  A list that is only appended to
      ([tokens], [output]) is a [list] in source order.
    - A [dict] is a [gmap]; a [set] is a [gset].
    - Code that may raise returns a [result]; [IndexError] is what Python raises
      for [pop] on an empty list and for an index out of range, [KeyError] for
      a missing dictionary key.
    - The two [print] calls that [is_well_formed] makes before returning
      [False] write to the console only and are left out.
    - [start_command_line_mode] runs against a console: the lines that
      [input] will read, and the log of what the function itself prints and
      prompts.  The global [premises] that its prompt reads is an argument.

    The first part embeds the source, function by function.  The second part
    writes down, from the specification, the notions the properties are stated
    with: the reference grammar, the precedence table, truth values and
    validity; the third adds notions read off the code.  The fourth part proves
    the properties that the specification states, the fifth further properties
    of the code. *)

From Stdlib Require Import Ascii ZArith Lia Bool.
From Stdlib Require String.
From stdpp Require Import base option list strings gmap sorting pretty.

Local Open Scope Z_scope.
Local Open Scope nat_scope.

(** ** Exceptions *)

Inductive exn : Set := IndexError | KeyError.

Inductive result (A : Type) : Type :=
| Ok (a : A)
| Raise (e : exn).
Arguments Ok {A} a.
Arguments Raise {A} e.

(** Sequencing: an exception raised by the first computation propagates. *)
Definition bind {A B} (m : result A) (f : A -> result B) : result B :=
  match m with
  | Ok a => f a
  | Raise e => Raise e
  end.

Notation "x <- m ; k" := (bind m (fun x => k))
  (at level 20, m at level 100, k at level 200, only parsing).
Notation "' p <- m ; k" := (bind m (fun x => let 'p := x in k))
  (at level 20, p pattern, m at level 100, k at level 200, only parsing).

(** [l[i]] for a non-negative index. *)
Definition index {A} (l : list A) (i : nat) : result A :=
  match l !! i with
  | Some x => Ok x
  | None => Raise IndexError
  end.

(** [l[-1]]. *)
Definition index_last {A} (l : list A) : result A :=
  match last l with
  | Some x => Ok x
  | None => Raise IndexError
  end.

(** [stack.pop()]: the popped value and the remaining stack. *)
Definition pop {A} (stack : list A) : result (A * list A) :=
  match stack with
  | [] => Raise IndexError
  | x :: stack' => Ok (x, stack')
  end.

(** ** Strings and regular expressions *)

(** [t == u] on strings. *)
Definition str_eq (t u : string) : bool := String.eqb t u.

(** [t in u] for two strings: [t] occurs in [u] as a substring. *)
Fixpoint str_in (t u : string) : bool :=
  String.prefix t u ||
  match u with
  | EmptyString => false
  | String _ u' => str_in t u'
  end.

(** [t in (u1, u2, ...)] for a tuple of strings. *)
Definition str_in_tuple (t : string) (us : list string) : bool :=
  existsb (str_eq t) us.

(** The character class [[A-Z]]. *)
Definition variable_char (c : ascii) : bool :=
  (65 <=? nat_of_ascii c) && (nat_of_ascii c <=? 90).

(** The character class [[&+>^=]]. *)
Definition operator_char (c : ascii) : bool :=
  match c with
  | "&" | "+" | ">" | "^" | "=" => true
  | _ => false
  end%char.

(** The pattern [[A-Z]|[&+>^=]|[()]|~]. *)
Definition valid_char (c : ascii) : bool :=
  variable_char c || operator_char c ||
  match c with
  | "(" | ")" => true
  | _ => false
  end%char ||
  match c with
  | "~" => true
  | _ => false
  end%char.

(** [re.fullmatch(variable_pattern, t)], as a truth value. *)
Definition fullmatch_variable (t : string) : bool :=
  match t with
  | String c EmptyString => variable_char c
  | _ => false
  end.

(** [re.fullmatch(operator_pattern, t)], as a truth value. *)
Definition fullmatch_operator (t : string) : bool :=
  match t with
  | String c EmptyString => operator_char c
  | _ => false
  end.

(** [re.findall(valid_pattern, statement)]: every alternative of the pattern
    matches exactly one character, so the matches are the one-character
    substrings at the matching characters, in order. *)
Fixpoint findall_valid (statement : string) : list string :=
  match statement with
  | EmptyString => []
  | String c rest =>
      if valid_char c then String c EmptyString :: findall_valid rest
      else findall_valid rest
  end.

(** [''.join(tokens)]. *)
Definition join (tokens : list string) : string :=
  String.concat EmptyString tokens.

(** [enumerate(l)]. *)
Fixpoint enumerate_from {A} (i : nat) (l : list A) : list (nat * A) :=
  match l with
  | [] => []
  | x :: l' => (i, x) :: enumerate_from (S i) l'
  end.
Definition enumerate {A} (l : list A) : list (nat * A) := enumerate_from 0 l.

(** ** [is_well_formed] *)

(** Outcome of one iteration of a loop body that may [return] or raise. *)
Inductive step (S : Type) : Type :=
| Next (s : S)
| Return (b : bool)
| Throw (e : exn).
Arguments Next {S} s.
Arguments Return {S} b.
Arguments Throw {S} e.

(** The body of [for i, token in enumerate(tokens)], up to (not including)
    [last_token = token].  The state threaded through is the paren [stack]. *)
Definition scan_token (tokens : list string) (i : nat) (token : string)
    (stack : list string) (last_token : string) : step (list string) :=
  if str_eq token "(" then
    Next (token :: stack)
  else if str_eq token ")" then
    if match stack with [] => true | _ => false end || str_eq last_token "(" then
      Return false
    else
      match pop stack with
      | Raise e => Throw e
      | Ok (_, stack') =>
          if i + 1 <? length tokens then
            match index tokens (i + 1) with
            | Raise e => Throw e
            | Ok next => if negb (str_in next "&+>^=)") then Return false
                         else Next stack'
            end
          else Next stack'
      end
  else if str_eq token "~" then
    if negb (fullmatch_operator last_token) && negb (i =? 0) then
      match index tokens (i + 1) with
      | Raise e => Throw e
      | Ok next =>
          if negb (str_eq next "(") && negb (str_eq last_token "~")
             && negb (str_eq last_token "(")
          then Return false
          else Next stack
      end
    else Next stack
  else if fullmatch_variable token then
    if fullmatch_variable last_token then Return false else Next stack
  else if fullmatch_operator token then
    if fullmatch_operator last_token || str_eq last_token "(" then Return false
    else Next stack
  else Next stack.

(** The [for] loop followed by the final [if stack: return False] /
    [return True]. *)
Fixpoint scan (tokens : list string) (todo : list (nat * string))
    (stack : list string) (last_token : string) : result bool :=
  match todo with
  | [] => Ok (match stack with [] => true | _ => false end)
  | (i, token) :: todo' =>
      match scan_token tokens i token stack last_token with
      | Next stack' => scan tokens todo' stack' token
      | Return b => Ok b
      | Throw e => Raise e
      end
  end.

Definition is_well_formed (statement : string) : result bool :=
  let tokens := findall_valid statement in
  if negb (str_eq (join tokens) statement) || (length tokens <? 1) then Ok false
  else
    first <- index tokens 0;
    if negb (fullmatch_variable first || str_in_tuple first ["("; "~"]) then
      Ok false
    else
      final <- index_last tokens;
      if negb (fullmatch_variable final || str_eq final ")") then Ok false
      else scan tokens (enumerate tokens) [] EmptyString.

(** The notebook's own test dictionary for [is_well_formed]. *)
Definition test_cases : list (string * bool) :=
  [ ("A", true); ("A+B", true); ("A+B&C", true); ("(A+B)&C", true);
    ("A>(B&C)", true); ("A>(B=C)", true); ("A>(B>C)", true); ("~A", true);
    ("~(A&B)", true); ("((A))", true); ("A+(B&C^D)", true);
    ("A>(B>(C>(D)))", true); ("(A>B)=C", true); ("~(A+B)", true);
    ("A^B&C+D>E", true); ("A=B=C", true);
    (EmptyString, false); ("A+B&", false); ("&A+B", false); ("A+(B&C", false);
    ("A+(B&C))", false); ("A~B", false); ("A++B", false); ("A B", false);
    ("A+", false); ("(A+B))", false); ("(A+B)(C+D)", false); ("~~A", true);
    ("A+~B", true); ("(A+~B)", true); ("A>(B+C)=D", true); ("A>>B", false);
    ("A=>(B+C)", false); ("A&(B)", true); ("~(A)", true); ("A+B C", false);
    ("A&~", false) ].

(** ** [tokenize] and [evaluate_statement] *)

Definition tokenize (statement : string) : list string :=
  findall_valid statement.

(** The body of the loop of the inner function [eval_tokens]: one postfix
    token against the value [stack].  A token that is neither a key of
    [truth_values], nor ['~'], nor a binary operator falls through all the
    branches and leaves the stack as it is. *)
Definition eval_token (truth_values : gmap string bool) (token : string)
    (stack : list bool) : result (list bool) :=
  match truth_values !! token with
  | Some v => Ok (v :: stack)
  | None =>
      if str_eq token "~" then
        '(x, stack) <- pop stack;
        Ok (negb x :: stack)
      else if str_in_tuple token ["&"; "+"; ">"; "^"; "="] then
        '(b, stack) <- pop stack;
        '(a, stack) <- pop stack;
        if str_eq token "&" then Ok (a && b :: stack)
        else if str_eq token "+" then Ok (a || b :: stack)
        else if str_eq token ">" then Ok (negb a || b :: stack)
        else if str_eq token "^" then Ok (negb (Bool.eqb a b) :: stack)
        else if str_eq token "=" then Ok (Bool.eqb a b :: stack)
        else Ok stack
      else Ok stack
  end.

Fixpoint eval_loop (truth_values : gmap string bool) (tokens : list string)
    (stack : list bool) : result (list bool) :=
  match tokens with
  | [] => Ok stack
  | token :: tokens' =>
      stack' <- eval_token truth_values token stack;
      eval_loop truth_values tokens' stack'
  end.

(** [eval_tokens(tokens)]: the loop from an empty stack, then
    [return stack.pop()]. *)
Definition eval_tokens (truth_values : gmap string bool)
    (tokens : list string) : result bool :=
  stack <- eval_loop truth_values tokens [];
  '(v, _) <- pop stack;
  Ok v.

(** The dictionary [precedence]. *)
Definition precedence : gmap string Z :=
  list_to_map
    [ ("~", 3); ("&", 2); ("+", 1); (">", 0); ("^", 0); ("=", 0);
      ("(", -1); (")", -1) ]%Z.

(** [precedence[t]]. *)
Definition precedence_of (t : string) : result Z :=
  match precedence !! t with
  | Some p => Ok p
  | None => Raise KeyError
  end.

(** [while operators and operators[-1] != '(': output.append(operators.pop())],
    returning the new [(output, operators)]. *)
Fixpoint pop_to_paren (output operators : list string)
    : list string * list string :=
  match operators with
  | [] => (output, [])
  | top :: operators' =>
      if negb (str_eq top "(") then pop_to_paren (output ++ [top]) operators'
      else (output, operators)
  end.

(** [while operators and precedence[operators[-1]] >= precedence[token]:
    output.append(operators.pop())]. *)
Fixpoint pop_higher (token : string) (output operators : list string)
    : result (list string * list string) :=
  match operators with
  | [] => Ok (output, [])
  | top :: operators' =>
      p_top <- precedence_of top;
      p_token <- precedence_of token;
      if (p_top >=? p_token)%Z then pop_higher token (output ++ [top]) operators'
      else Ok (output, operators)
  end.

(** The body of [for token in tokens] of [evaluate_statement]. *)
Definition reorder_token (token : string) (output operators : list string)
    : result (list string * list string) :=
  if fullmatch_variable token then Ok (output ++ [token], operators)
  else if str_eq token "(" then Ok (output, token :: operators)
  else if str_eq token ")" then
    let '(output, operators) := pop_to_paren output operators in
    '(_, operators) <- pop operators;
    Ok (output, operators)
  else
    '(output, operators) <- pop_higher token output operators;
    Ok (output, token :: operators).

Fixpoint reorder_loop (tokens output operators : list string)
    : result (list string * list string) :=
  match tokens with
  | [] => Ok (output, operators)
  | token :: tokens' =>
      '(output, operators) <- reorder_token token output operators;
      reorder_loop tokens' output operators
  end.

(** [while operators: output.append(operators.pop())]. *)
Fixpoint drain (output operators : list string) : list string :=
  match operators with
  | [] => output
  | top :: operators' => drain (output ++ [top]) operators'
  end.

(** The postfix sequence [output] that [evaluate_statement] hands to
    [eval_tokens]. *)
Definition to_postfix (statement : string) : result (list string) :=
  '(output, operators) <- reorder_loop (tokenize statement) [] [];
  Ok (drain output operators).

Definition evaluate_statement (statement : string)
    (truth_values : gmap string bool) : result bool :=
  output <- to_postfix statement;
  eval_tokens truth_values output.

(** ** [generate_truth_table] and [check_validity] *)

(** [itertools.product([True, False], repeat=n)]: the leftmost position varies
    slowest, [True] comes first. *)
Fixpoint product_bool (n : nat) : list (list bool) :=
  match n with
  | 0 => [[]]
  | S n' =>
      flat_map (fun b => map (fun values => b :: values) (product_bool n'))
        [true; false]
  end.

(** [dict(pairs)]: a later pair overrides an earlier one with the same key. *)
Definition dict (pairs : list (string * bool)) : gmap string bool :=
  foldl (fun d kv => <[kv.1 := kv.2]> d) ∅ pairs.

Definition generate_truth_table (variables : list string)
    : list (gmap string bool) :=
  map (fun values => dict (zip variables values))
    (product_bool (length variables)).

(** [sorted(xs)] on strings, which Python compares by code point. *)
Fixpoint insert_sorted (x : string) (l : list string) : list string :=
  match l with
  | [] => [x]
  | y :: l' => if String.leb x y then x :: l else y :: insert_sorted x l'
  end.
Definition sorted (xs : list string) : list string :=
  foldr insert_sorted [] xs.

(** The variables of [check_validity]:
    [sorted(set(token for stmt in all_statements for token in tokenize(stmt)
                 if re.fullmatch(r'[A-Z]', token)))]. *)
Definition variables_of (all_statements : list string) : list string :=
  sorted (elements (list_to_set (C := gset string)
    (flat_map (fun stmt => List.filter fullmatch_variable (tokenize stmt))
       all_statements))).

(** [all(evaluate_statement(p, truth_values) for p in premises)]: stops at the
    first premise that is false. *)
Fixpoint all_premises (truth_values : gmap string bool)
    (premises : list string) : result bool :=
  match premises with
  | [] => Ok true
  | p :: premises' =>
      v <- evaluate_statement p truth_values;
      if v then all_premises truth_values premises' else Ok false
  end.

(** [for truth_values in truth_table: ...] followed by [return True]. *)
Fixpoint check_rows (premises : list string) (conclusion : string)
    (truth_table : list (gmap string bool)) : result bool :=
  match truth_table with
  | [] => Ok true
  | truth_values :: truth_table' =>
      premises_truth <- all_premises truth_values premises;
      conclusion_truth <- evaluate_statement conclusion truth_values;
      if premises_truth && negb conclusion_truth then Ok false
      else check_rows premises conclusion truth_table'
  end.

Definition check_validity (premises : list string) (conclusion : string)
    : result bool :=
  let all_statements := premises ++ [conclusion] in
  let variables := variables_of all_statements in
  let truth_table := generate_truth_table variables in
  check_rows premises conclusion truth_table.

(** ** [check_user_argument] *)

Definition newline : string := String (ascii_of_nat 10) EmptyString.

(** [f'Premise {premise} is not well-formed.\n']. *)
Definition premise_diagnostic (premise : string) : string :=
  "Premise " +:+ premise +:+ " is not well-formed." +:+ newline.

(** [f'Conclusion {conclusion} is not well-formed.\n']. *)
Definition conclusion_diagnostic (conclusion : string) : string :=
  "Conclusion " +:+ conclusion +:+ " is not well-formed." +:+ newline.

(** [f'The inputted argument is{... if argument_valid else " not"} valid.']. *)
Definition verdict (argument_valid : bool) : string :=
  "The inputted argument is" +:+
  (if argument_valid then EmptyString else " not") +:+ " valid.".

(** Truth value of a string: it is not empty. *)
Definition str_truthy (s : string) : bool :=
  match s with
  | EmptyString => false
  | String _ _ => true
  end.

(** [for premise in premises: if not is_well_formed(premise):
    not_well_formed_premises += ...]. *)
Fixpoint collect_diagnostics (premises : list string)
    (not_well_formed_premises : string) : result string :=
  match premises with
  | [] => Ok not_well_formed_premises
  | premise :: premises' =>
      ok <- is_well_formed premise;
      if negb ok then
        collect_diagnostics premises'
          (not_well_formed_premises +:+ premise_diagnostic premise)
      else collect_diagnostics premises' not_well_formed_premises
  end.

(** The body of [check_user_argument], with the function it calls in its last
    two lines as a parameter: that a call does not happen is then the statement
    that the result does not depend on [validity_checker]. *)
Definition check_user_argument_with
    (validity_checker : list string -> string -> result bool)
    (premises : list string) (conclusion : string) : result (bool * string) :=
  not_well_formed_premises <- collect_diagnostics premises EmptyString;
  if str_truthy not_well_formed_premises then
    Ok (false, not_well_formed_premises)
  else
    ok <- is_well_formed conclusion;
    if negb ok then Ok (false, conclusion_diagnostic conclusion)
    else
      argument_valid <- validity_checker premises conclusion;
      Ok (argument_valid, verdict argument_valid).

Definition check_user_argument (premises : list string) (conclusion : string)
    : result (bool * string) :=
  check_user_argument_with check_validity premises conclusion.

(** ** [start_command_line_mode] *)

(** What the function does to the console, in order: [print(text)], which
    writes [text] and a newline, and [input(prompt)], which writes [prompt]
    and reads a line.  The log holds the events of [start_command_line_mode]
    itself; the two [print] calls inside [is_well_formed] are left out, as in
    its embedding. *)
Inductive event : Type :=
| Print (text : string)
| Input (prompt : string).

(** Why a run stops short of returning: [input] is called when no line is
    left to read, or an exception leaves the function.  [OutOfFuel] is the
    bound on the number of loop iterations of the embedding. *)
Inductive halt : Type :=
| Waiting
| Raised (e : exn)
| OutOfFuel.

(** A run from the lines still to be read and the events so far: it goes on
    with a value, or it stops. *)
Inductive run (A : Type) : Type :=
| Go (a : A) (lines : list string) (log : list event)
| Stop (h : halt) (log : list event).
Arguments Go {A} a lines log.
Arguments Stop {A} h log.

Definition io (A : Type) : Type := list string -> list event -> run A.

Definition ret {A} (a : A) : io A := fun lines log => Go a lines log.

Definition io_bind {A B} (m : io A) (f : A -> io B) : io B :=
  fun lines log =>
    match m lines log with
    | Go a lines' log' => f a lines' log'
    | Stop h log' => Stop h log'
    end.

Notation "x <~ m ; k" := (io_bind m (fun x => k))
  (at level 20, m at level 100, k at level 200, only parsing).
Notation "' p <~ m ; k" := (io_bind m (fun x => let 'p := x in k))
  (at level 20, p pattern, m at level 100, k at level 200, only parsing).

Definition print (text : string) : io unit :=
  fun lines log => Go tt lines (log ++ [Print text]).

Definition input (prompt : string) : io string :=
  fun lines log =>
    match lines with
    | [] => Stop Waiting (log ++ [Input prompt])
    | line :: lines' => Go line lines' (log ++ [Input prompt])
    end.

Definition halt_with {A} (h : halt) : io A := fun _ log => Stop h log.

(** A call of one of the functions above: its exception leaves the caller. *)
Definition call {A} (r : result A) : io A :=
  match r with
  | Ok a => ret a
  | Raise e => halt_with (Raised e)
  end.

(** [c.isspace()] for a character below code point 256, the range of the
    strings of this embedding: tab to carriage return, the four separators,
    the blank, next line and the no-break space. *)
Definition is_space (c : ascii) : bool :=
  let n := nat_of_ascii c in
  ((9 <=? n) && (n <=? 13)) || ((28 <=? n) && (n <=? 32))
  || (n =? 133) || (n =? 160).

Fixpoint lstrip (s : string) : string :=
  match s with
  | EmptyString => EmptyString
  | String c s' => if is_space c then lstrip s' else s
  end.

Fixpoint rstrip (s : string) : string :=
  match s with
  | EmptyString => EmptyString
  | String c s' =>
      match rstrip s' with
      | EmptyString => if is_space c then EmptyString else String c EmptyString
      | rest => String c rest
      end
  end.

(** [s.strip()]. *)
Definition strip (s : string) : string := rstrip (lstrip s).

(** Truth value of a tuple: it is not empty, and a pair never is. *)
Definition tuple_truthy {A B} (t : A * B) : bool := true.

Definition quote : string := String (ascii_of_nat 34) EmptyString.

Definition usage : string :=
  "Usage: enter in your premises, then enter in your conclusion." +:+ newline
  +:+ "    Special commands are:" +:+ newline
  +:+ "    - exit : exits the program entirely" +:+ newline
  +:+ "    - done : stipulates to end the entry of premises." +:+ newline
  +:+ "The script will determine if your argument is logically valid according to classical propositional logic."
  +:+ newline.

(** The inner loop [while in_str not in ('exit', 'done')].  The name
    [premises] in its prompt is not a local of the function: it is the global
    of the notebook, here the first argument. *)
Fixpoint premise_loop (premises : list string) (fuel : nat) (in_str : string)
    (well_formed_premises : list string) (all_premises_well_formed : bool)
    : io (string * list string * bool) :=
  if negb (str_in_tuple in_str ["exit"; "done"]) then
    match fuel with
    | 0 => halt_with OutOfFuel
    | S fuel' =>
        let stripped := strip in_str in
        ok <~ call (is_well_formed stripped);
        '(well_formed_premises, all_premises_well_formed) <~
          (if ok then
             _ <~ print ("Premise " +:+ stripped +:+ " is well formed.");
             ret (well_formed_premises ++ [stripped], all_premises_well_formed)
           else
             _ <~ print ("Premise " +:+ stripped +:+
                         " is not well formed.  Check your syntax and try again");
             ret (well_formed_premises, false));
        in_str <~ input ("Enter premise #" +:+ pretty (length premises) +:+ ":");
        premise_loop premises fuel' in_str well_formed_premises
          all_premises_well_formed
    end
  else ret (in_str, well_formed_premises, all_premises_well_formed).

(** The outer loop [while in_str != 'exit']. *)
Fixpoint command_loop (premises : list string) (fuel : nat) (in_str : string)
    : io unit :=
  if negb (str_eq in_str "exit") then
    match fuel with
    | 0 => halt_with OutOfFuel
    | S fuel' =>
        _ <~ print ("Start entering your premises." +:+ newline);
        in_str <~ input "Enter premise #1:";
        '(in_str, well_formed_premises, all_premises_well_formed) <~
          premise_loop premises fuel' in_str [] true;
        if negb all_premises_well_formed then
          (* in_str = 'exit'; break *)
          ret tt
        else
          '(in_str, conclusion) <~
            (if negb (str_eq in_str "exit") then
               in_str <~ input "Done entering premises.  All premises are well-formed.  Enter your conclusion";
               if negb (str_eq in_str "exit") then
                 let stripped := strip in_str in
                 ok <~ call (is_well_formed stripped);
                 if ok then ret (in_str, stripped)
                 else
                   _ <~ print ("Conclusion " +:+ stripped +:+
                               " is not well formed.  Check your syntax and try again");
                   ret ("exit", EmptyString)
               else ret (in_str, EmptyString)
             else ret (in_str, EmptyString));
          _ <~ (if negb (str_eq in_str "exit") then
                  r <~ call (check_user_argument well_formed_premises conclusion);
                  _ <~ print ("***Your argument is " +:+
                              (if tuple_truthy r then EmptyString else " not")
                              +:+ "valid***" +:+ newline);
                  print ("Starting new argument.  Type " +:+ quote +:+ "exit"
                         +:+ quote +:+ " to quit this program")
                else ret tt);
          _ <~ print "Exiting Manipulogic Command line mode";
          command_loop premises fuel' in_str
    end
  else ret tt.

(** [start_command_line_mode()], run on the lines that the console has to
    offer.  Every iteration of either loop reads a line, so one more
    iteration than there are lines is enough. *)
Definition start_command_line_mode (premises : list string)
    (lines : list string) : run unit :=
  (_ <~ print "Starting ManipuLogic command line mode.";
   _ <~ print usage;
   command_loop premises (S (length lines)) EmptyString) lines [].

(** * Reference notions, written from the specification *)

(** ** Well-formed formulas and the rules of the scan *)

(** The reference grammar of well-formed formulas: a variable is a single
    uppercase letter; a formula is a variable, a negated formula, two formulas
    joined by one of the five binary connectives, or a formula in
    parentheses. *)
Inductive wff : string -> Prop :=
| wff_variable c :
    variable_char c = true -> wff (String c EmptyString)
| wff_negation s :
    wff s -> wff (String "~" s)
| wff_binary o s t :
    operator_char o = true -> wff s -> wff t -> wff (s +:+ String o t)
| wff_group s :
    wff s -> wff (String "(" (s +:+ ")")).

(** Number of characters of [s] that satisfy [p]. *)
Fixpoint count_chars (p : ascii -> bool) (s : string) : nat :=
  match s with
  | EmptyString => 0
  | String c s' => (if p c then 1 else 0) + count_chars p s'
  end.

(** The characters of [s], each as a one-character token. *)
Fixpoint chars_tokens (s : string) : list string :=
  match s with
  | EmptyString => []
  | String c s' => String c EmptyString :: chars_tokens s'
  end.

(** The token before position [i], or the empty string at the start: the
    value of [last_token] when the scan reaches position [i]. *)
Definition prev_token (tokens : list string) (i : nat) : string :=
  match i with
  | 0 => EmptyString
  | S j => default EmptyString (tokens !! j)
  end.

(** The placement rule for a negation at position [i]: at the very start,
    right after a binary operator, an open paren or another negation, or right
    before an open paren. *)
Definition negation_placed (tokens : list string) (i : nat) : Prop :=
  i = 0 \/
  fullmatch_operator (prev_token tokens i) = true \/
  prev_token tokens i = "(" \/
  prev_token tokens i = "~" \/
  tokens !! (i + 1) = Some "(".

(** A token after which an operand may begin: nothing at all (the start of
    the statement), a binary operator, an open paren or a negation. *)
Definition start_ok (i : nat) (last_token : string) : Prop :=
  (i = 0 /\ last_token = EmptyString) \/
  fullmatch_operator last_token = true \/
  last_token = "(" \/ last_token = "~".

(** A token with which an operand may end: a variable or a close paren. *)
Definition end_ok (last_token : string) : Prop :=
  fullmatch_variable last_token = true \/ last_token = ")".

(** What may follow an operand: nothing, a binary operator or a close
    paren. *)
Definition follow_ok (rest : list string) : Prop :=
  match rest with
  | [] => True
  | next :: _ => str_in next "&+>^=)" = true
  end.

(** Balanced parentheses: scanning left to right from nesting [depth], no
    close paren comes without a pending open paren, and none is pending at
    the end. *)
Fixpoint balanced (depth : nat) (tokens : list string) : bool :=
  match tokens with
  | [] => depth =? 0
  | token :: tokens' =>
      if str_eq token "(" then balanced (S depth) tokens'
      else if str_eq token ")" then
        match depth with
        | 0 => false
        | S depth' => balanced depth' tokens'
        end
      else balanced depth tokens'
  end.

(** [x] is directly followed by [y] in [tokens]. *)
Definition adjacent (tokens : list string) (x y : string) : Prop :=
  exists i, tokens !! i = Some x /\ tokens !! (S i) = Some y.

(** ** Connectives, formulas and the precedence table *)

(** The truth functions of the five binary connectives: conjunction is left
    and right, disjunction is left or right, implication is (not left) or
    right, exclusive or is left differs from right, biconditional is left
    equals right. *)
Definition connective (token : string) (left right : bool) : bool :=
  if str_eq token "&" then left && right
  else if str_eq token "+" then left || right
  else if str_eq token ">" then negb left || right
  else if str_eq token "^" then negb (Bool.eqb left right)
  else Bool.eqb left right.

(** Formulas as trees, their truth value under an assignment ([None] when a
    variable has no value), and their postfix form. *)
Inductive formula : Type :=
| Var (name : string)
| Neg (f : formula)
| Bin (op : string) (l r : formula).

Fixpoint denote (truth_values : gmap string bool) (f : formula) : option bool :=
  match f with
  | Var name => truth_values !! name
  | Neg f => negb <$> denote truth_values f
  | Bin op l r =>
      match denote truth_values l, denote truth_values r with
      | Some a, Some b => Some (connective op a b)
      | _, _ => None
      end
  end.

Fixpoint postfix (f : formula) : list string :=
  match f with
  | Var name => [name]
  | Neg f => postfix f ++ ["~"]
  | Bin op l r => postfix l ++ postfix r ++ [op]
  end.

(** The truth value of a formula under a total assignment of the variable
    names. *)
Fixpoint sem (sigma : string -> bool) (f : formula) : bool :=
  match f with
  | Var name => sigma name
  | Neg f => negb (sem sigma f)
  | Bin op l r => connective op (sem sigma l) (sem sigma r)
  end.

(** The variables that occur in a formula. *)
Fixpoint formula_vars (f : formula) : list string :=
  match f with
  | Var name => [name]
  | Neg f => formula_vars f
  | Bin _ l r => formula_vars l ++ formula_vars r
  end.

(** The symbols of a formula are tokens of the right kind. *)
Fixpoint formula_ok (f : formula) : Prop :=
  match f with
  | Var name => fullmatch_variable name = true
  | Neg f => formula_ok f
  | Bin op l r => fullmatch_operator op = true /\ formula_ok l /\ formula_ok r
  end.

(** The precedence table: negation binds tightest (level 3), then
    conjunction (2), then disjunction (1), then implication, exclusive or and
    biconditional, which share the lowest level (0). *)
Definition level (op : string) : Z :=
  if str_eq op "&" then 2 else if str_eq op "+" then 1 else 0.

(** [reads k tokens f]: by the precedence table, [tokens] read as the formula
    [f], and the operator at the top of [f], if there is one outside
    parentheses, has level at least [k].  The left operand of a binary operator
    is read at the level of the operator and the right operand one level
    higher, so operators of one level associate to the left; the operand of a
    negation is read at level 3; parentheses only group. *)
Inductive reads : Z -> list string -> formula -> Prop :=
| reads_variable k name :
    fullmatch_variable name = true -> reads k [name] (Var name)
| reads_group k tokens f :
    reads 0 tokens f -> reads k ("(" :: tokens ++ [")"]) f
| reads_negation k tokens f :
    (k <= 3)%Z -> reads 3 tokens f -> reads k ("~" :: tokens) (Neg f)
| reads_binary k op tokens_l tokens_r l r :
    fullmatch_operator op = true -> (k <= level op)%Z ->
    reads (level op) tokens_l l -> reads (level op + 1) tokens_r r ->
    reads k (tokens_l ++ op :: tokens_r) (Bin op l r).

(** No negation directly follows a negation. *)
Fixpoint no_double_negation (tokens : list string) : bool :=
  match tokens with
  | [] => true
  | token :: tokens' =>
      negb (str_eq token "~" &&
            match tokens' with
            | next :: _ => str_eq next "~"
            | [] => false
            end)
      && no_double_negation tokens'
  end.

(** A statement that reads as the formula [f] by the precedence table and
    has no negation directly after a negation. *)
Definition reads_as (statement : string) (f : formula) : Prop :=
  reads 0 (tokenize statement) f /\
  no_double_negation (tokenize statement) = true.

(** The top of the operator stack binds less than level [k]. *)
Definition tops_below (k : Z) (operators : list string) : Prop :=
  match operators with
  | [] => True
  | top :: _ => exists p, precedence_of top = Ok p /\ (p < k)%Z
  end.

(** A pending operator of level at least [k]. *)
Definition pending (k : Z) (token : string) : Prop :=
  exists p, precedence_of token = Ok p /\ (k <= p)%Z /\ (0 <= p)%Z.

(** ** Assignments and validity *)

(** An assignment in the sense of the data model: its keys are variable
    names. *)
Definition variable_keys (truth_values : gmap string bool) : Prop :=
  forall token, is_Some (truth_values !! token) ->
                fullmatch_variable token = true.

(** A row of the truth table, read as a total assignment. *)
Definition total_of (truth_values : gmap string bool) (name : string) : bool :=
  default false (truth_values !! name).

(** A row that gives a value to every variable of the formulas of a list. *)
Definition covers (truth_values : gmap string bool) (fs : list formula) : Prop :=
  forall f name, In f fs -> In name (formula_vars f) ->
                 is_Some (truth_values !! name).

(** An argument is valid when every total assignment that makes all premises
    true makes the conclusion true. *)
Definition entails (premises : list formula) (conclusion : formula) : Prop :=
  forall sigma : string -> bool,
    Forall (fun f => sem sigma f = true) premises ->
    sem sigma conclusion = true.

(** ** Diagnostics of the argument validator *)

(** A premise for which [check_user_argument] emits a diagnostic line. *)
Definition rejected (premise : string) : bool :=
  match is_well_formed premise with
  | Ok true => false
  | _ => true
  end.

(** Concatenation of a list of lines. *)
Definition lines (ls : list string) : string :=
  foldr String.append EmptyString ls.

(** * Further notions, read off the code *)

(** [statement] without the characters that are no tokens. *)
Fixpoint keep_valid (statement : string) : string :=
  match statement with
  | EmptyString => EmptyString
  | String c rest =>
      if valid_char c then String c (keep_valid rest) else keep_valid rest
  end.

(** The code point of the first character of a string. *)
Definition code (t : string) : nat :=
  match t with
  | EmptyString => 0
  | String c _ => nat_of_ascii c
  end.

(** [a] comes before [b] in the alphabet. *)
Definition before (a b : string) : Prop := code a < code b.

(** The rules of [is_well_formed] on a token list: balanced parentheses, a
    first token that may begin an operand and a last token that may end one,
    the pairs of neighbours that are ruled out, and the placement of
    negations. *)
Definition scan_rules (tokens : list string) : Prop :=
  balanced 0 tokens = true /\
  (exists first final,
     head tokens = Some first /\ last tokens = Some final /\
     (fullmatch_variable first = true \/ first = "(" \/ first = "~") /\
     end_ok final) /\
  (forall x y,
     adjacent tokens x y ->
     ~ (fullmatch_variable x = true /\ fullmatch_variable y = true) /\
     ~ (fullmatch_operator x = true /\ fullmatch_operator y = true) /\
     ~ (x = "(" /\ fullmatch_operator y = true) /\
     ~ (x = "(" /\ y = ")") /\
     (x = ")" -> fullmatch_operator y = true \/ y = ")")) /\
  (forall i, tokens !! i = Some "~" -> negation_placed tokens i).

(** No close paren of [tokens] comes without an open paren before it:
    scanning left to right from nesting [depth], the depth never drops below
    zero.  Open parens may be left pending at the end. *)
Fixpoint closes_matched (depth : nat) (tokens : list string) : bool :=
  match tokens with
  | [] => true
  | token :: tokens' =>
      if str_eq token "(" then closes_matched (S depth) tokens'
      else if str_eq token ")" then
        match depth with
        | 0 => false
        | S depth' => closes_matched depth' tokens'
        end
      else closes_matched depth tokens'
  end.

(** A token that is no parenthesis. *)
Definition symbol (token : string) : bool :=
  negb (str_eq token "(") && negb (str_eq token ")").

(** Number of open parens on the operator stack. *)
Definition opens (operators : list string) : nat :=
  length (List.filter (fun t => str_eq t "(") operators).

(** What the operator stack of [evaluate_statement] may hold. *)
Definition stackable (token : string) : Prop :=
  token = "(" \/ fullmatch_operator token = true \/ token = "~".

(** An entry that the loops of [start_command_line_mode] take as a command. *)
Definition command (in_str : string) : bool :=
  str_in_tuple in_str ["exit"; "done"].

(** What the inner loop writes for one entry: its finding on the stripped
    entry, then the prompt for the next one. *)
Definition premise_events (premises : list string) (entry : string)
    : list event :=
  [ Print (if rejected (strip entry)
           then "Premise " +:+ strip entry +:+
                " is not well formed.  Check your syntax and try again"
           else "Premise " +:+ strip entry +:+ " is well formed.");
    Input ("Enter premise #" +:+ pretty (length premises) +:+ ":") ].

(** What [start_command_line_mode] writes before its loop, at the start of
    every round, and at the end of a round. *)
Definition banner : list event :=
  [ Print "Starting ManipuLogic command line mode."; Print usage ].
Definition opening : list event :=
  [ Print ("Start entering your premises." +:+ newline);
    Input "Enter premise #1:" ].
Definition closing : event := Print "Exiting Manipulogic Command line mode".
Definition conclusion_prompt : event :=
  Input "Done entering premises.  All premises are well-formed.  Enter your conclusion".
Definition new_argument : event :=
  Print ("Starting new argument.  Type " +:+ quote +:+ "exit" +:+ quote +:+
         " to quit this program").

(** Every character of [s] satisfies [p]. *)
Fixpoint all_chars (p : ascii -> bool) (s : string) : bool :=
  match s with
  | EmptyString => true
  | String c s' => p c && all_chars p s'
  end.

(** * Properties *)

(** ** Basic facts on strings, characters and lists *)

(** Closes a goal [(k <= level op)%Z] on concrete data. *)
Ltac level_le := vm_compute; intros Hgt; discriminate Hgt.

Lemma str_eq_true t u : str_eq t u = true <-> t = u.
Proof. apply String.eqb_eq. Qed.

Lemma str_eq_false t u : str_eq t u = false <-> t <> u.
Proof. apply String.eqb_neq. Qed.

Lemma str_eq_refl t : str_eq t t = true.
Proof. apply String.eqb_refl. Qed.

Lemma append_cons x (a b : string) : String x a +:+ b = String x (a +:+ b).
Proof. reflexivity. Qed.

Lemma append_nil_l (a : string) : EmptyString +:+ a = a.
Proof. reflexivity. Qed.

Lemma append_assoc (a b c : string) : (a +:+ b) +:+ c = a +:+ (b +:+ c).
Proof.
  induction a as [|x a IH]; [reflexivity|].
  rewrite !append_cons. now rewrite IH.
Qed.

Lemma append_nil_r (a : string) : a +:+ EmptyString = a.
Proof.
  induction a as [|x a IH]; [reflexivity|].
  rewrite append_cons. now rewrite IH.
Qed.

Lemma variable_not_operator c : variable_char c = true -> operator_char c = false.
Proof.
  destruct c as [[] [] [] [] [] [] [] []]; vm_compute; congruence.
Qed.

Lemma operator_not_variable c : operator_char c = true -> variable_char c = false.
Proof.
  destruct c as [[] [] [] [] [] [] [] []]; vm_compute; congruence.
Qed.

Lemma variable_valid c : variable_char c = true -> valid_char c = true.
Proof. unfold valid_char. now intros ->. Qed.

Lemma operator_valid c : operator_char c = true -> valid_char c = true.
Proof. unfold valid_char. intros ->. now rewrite orb_true_r. Qed.

Lemma fullmatch_operator_cases op :
  fullmatch_operator op = true ->
  op = "&" \/ op = "+" \/ op = ">" \/ op = "^" \/ op = "=".
Proof.
  destruct op as [|c [|]]; try discriminate.
  destruct c as [[] [] [] [] [] [] [] []]; intros H; try discriminate H; tauto.
Qed.

Lemma fullmatch_operator_not_variable op :
  fullmatch_operator op = true -> fullmatch_variable op = false.
Proof.
  destruct op as [|c [|]]; try discriminate. apply operator_not_variable.
Qed.

Lemma index_lt {A} (l : list A) i :
  i < length l -> exists x, l !! i = Some x /\ index l i = Ok x.
Proof.
  intros Hi. destruct (lookup_lt_is_Some_2 l i Hi) as [x Hx].
  exists x. unfold index. now rewrite Hx.
Qed.

(** The model agrees with the notebook's own test run, which printed
    "All tests passed." *)
Example test_cases_pass :
  Forall (fun t => is_well_formed t.1 = Ok t.2) test_cases.
Proof. repeat constructor. Qed.

(** ** The scan never raises *)

(** One iteration raises only at a negation that is the last token. *)
Lemma scan_token_no_throw tokens i token stack last_token :
  (token = "~" -> i + 1 < length tokens) ->
  (exists stack', scan_token tokens i token stack last_token = Next stack') \/
  (exists b, scan_token tokens i token stack last_token = Return b).
Proof.
  intros Hneg. unfold scan_token.
  destruct (str_eq token "("); [left; eauto|].
  destruct (str_eq token ")").
  { destruct stack as [|top stack]; cbn [orb pop]; [right; eauto|].
    destruct (str_eq last_token "("); [right; eauto|].
    destruct (i + 1 <? length tokens) eqn:Hlt; [|left; eauto].
    apply Nat.ltb_lt in Hlt.
    destruct (index_lt tokens (i + 1) Hlt) as (next & _ & ->).
    destruct (negb (str_in next "&+>^=)")); [right|left]; eauto. }
  destruct (str_eq_true token "~") as [Heq _].
  destruct (str_eq token "~").
  { destruct (negb (fullmatch_operator last_token) && negb (i =? 0));
      [|left; eauto].
    destruct (index_lt tokens (i + 1) (Hneg (Heq eq_refl))) as (next & _ & ->).
    destruct (negb (str_eq next "(") && negb (str_eq last_token "~")
              && negb (str_eq last_token "(")); [right|left]; eauto. }
  destruct (fullmatch_variable token).
  { destruct (fullmatch_variable last_token); [right|left]; eauto. }
  destruct (fullmatch_operator token); [|left; eauto].
  destruct (fullmatch_operator last_token || str_eq last_token "(");
    [right|left]; eauto.
Qed.

(** The loop returns a boolean from every position, provided the token list
    does not end in a negation. *)
Lemma scan_total tokens final :
  last tokens = Some final -> final <> "~" ->
  forall todo done stack last_token,
    tokens = done ++ todo ->
    exists b,
      scan tokens (enumerate_from (length done) todo) stack last_token = Ok b.
Proof.
  intros Hlast Hfinal todo.
  induction todo as [|token todo IH]; intros done stack last_token Htokens.
  - simpl. eauto.
  - simpl.
    assert (Hneg : token = "~" -> length done + 1 < length tokens).
    { intros ->. subst tokens. rewrite length_app. simpl.
      destruct todo; [|simpl; lia].
      rewrite last_snoc in Hlast. congruence. }
    destruct (scan_token_no_throw tokens (length done) token stack last_token Hneg)
      as [[stack' ->]|[b ->]]; [|eauto].
    specialize (IH (done ++ [token]) stack' token).
    rewrite length_app, Nat.add_1_r in IH. apply IH.
    now rewrite <- app_assoc.
Qed.

(** [is_well_formed] returns a boolean on every string. *)
Lemma is_well_formed_returns (statement : string) :
  exists b, is_well_formed statement = Ok b.
Proof.
  unfold is_well_formed.
  set (tokens := findall_valid statement).
  destruct (negb (str_eq (join tokens) statement) || (length tokens <? 1))
    eqn:Hguard; [eauto|].
  apply orb_false_iff in Hguard as [_ Hlen]. apply Nat.ltb_ge in Hlen.
  destruct (index_lt tokens 0) as (first & _ & ->); [lia|]. cbn [bind].
  destruct (negb (fullmatch_variable first || str_in_tuple first ["("; "~"]));
    [eauto|].
  unfold index_last.
  destruct (last tokens) as [final|] eqn:Hlast.
  2:{ apply last_None in Hlast. rewrite Hlast in Hlen. simpl in Hlen. lia. }
  cbn [bind].
  destruct (negb (fullmatch_variable final || str_eq final ")")) eqn:Hfinal;
    [eauto|].
  apply (scan_total tokens final Hlast) with (done := []); [|reflexivity].
  intros ->. discriminate Hfinal.
Qed.

(** C9. For every input string, [is_well_formed] returns a boolean and does
    not raise.  In particular, once the boundary rule has let the statement
    through (its last token is a variable or a close paren), no iteration of
    the scan raises, whatever the stack and [last_token] are: the look-aheads
    [tokens[i+1]] stay within the token list. *)
Theorem is_well_formed_total (statement : string) :
  (is_well_formed statement = Ok true \/ is_well_formed statement = Ok false) /\
  (forall final i token stack last_token,
     last (tokenize statement) = Some final ->
     fullmatch_variable final || str_eq final ")" = true ->
     tokenize statement !! i = Some token ->
     forall e,
       scan_token (tokenize statement) i token stack last_token <> Throw e).
Proof.
  split.
  - destruct (is_well_formed_returns statement) as [[|] Hb]; tauto.
  - intros final i token stack last_token Hlast Hfinal Hi e.
    set (tokens := tokenize statement) in *.
    assert (Hneg : token = "~" -> i + 1 < length tokens).
    { intros ->. pose proof (lookup_lt_Some _ _ _ Hi) as Hlen.
      destruct (decide (i + 1 = length tokens)) as [Heq|]; [|lia].
      rewrite last_lookup in Hlast.
      replace (pred (length tokens)) with i in Hlast by lia.
      rewrite Hi in Hlast. injection Hlast as <-. discriminate Hfinal. }
    destruct (scan_token_no_throw tokens i token stack last_token Hneg)
      as [[stack' ->]|[b ->]]; discriminate.
Qed.

Lemma is_well_formed_total_witness :
  last (tokenize "(A+~B)") = Some ")" /\
  tokenize "(A+~B)" !! 3 = Some "~" /\
  scan_token (tokenize "(A+~B)") 3 "~" ["("] "+" <> Throw IndexError.
Proof.
  assert (Hlast : last (tokenize "(A+~B)") = Some ")") by reflexivity.
  assert (Hi : tokenize "(A+~B)" !! 3 = Some "~") by reflexivity.
  split; [exact Hlast|]. split; [exact Hi|].
  exact (proj2 (is_well_formed_total "(A+~B)") ")" 3 "~" ["("] "+"
           Hlast eq_refl Hi IndexError).
Defined.

(** ** Placement of negations *)

(** What the negation branch of the scan decides, given the token that
    follows. *)
Lemma scan_token_negation tokens i stack last_token next :
  tokens !! (i + 1) = Some next ->
  scan_token tokens i "~" stack last_token =
    if fullmatch_operator last_token || (i =? 0) || str_eq next "("
       || str_eq last_token "~" || str_eq last_token "("
    then Next stack else Return false.
Proof.
  intros Hnext. unfold scan_token, index. rewrite Hnext. cbn [str_eq String.eqb Ascii.eqb Bool.eqb].
  destruct (fullmatch_operator last_token), (i =? 0), (str_eq next "("),
    (str_eq last_token "~"), (str_eq last_token "("); reflexivity.
Qed.

(** The only value the loop body ever returns is [False]. *)
Lemma scan_token_return tokens i token stack last_token b :
  scan_token tokens i token stack last_token = Return b -> b = false.
Proof.
  unfold scan_token.
  repeat match goal with
         | |- context [match pop ?s with _ => _ end] => destruct s; cbn [pop]
         | |- context [match index ?l ?j with _ => _ end] => destruct (index l j)
         | |- context [if ?c then _ else _] => destruct c
         | |- context [let (_, _) := ?p in _] => destruct p
         end;
    intros H; now inversion H.
Qed.

Lemma prev_token_snoc done token todo :
  prev_token (done ++ token :: todo) (S (length done)) = token.
Proof.
  unfold prev_token. rewrite lookup_app_r by lia.
  now rewrite Nat.sub_diag.
Qed.

Lemma prev_token_lookup tokens i x :
  tokens !! i = Some x -> prev_token tokens (S i) = x.
Proof. unfold prev_token. now intros ->. Qed.

Lemma negation_placedb tokens i next :
  tokens !! (i + 1) = Some next ->
  negation_placed tokens i <->
  fullmatch_operator (prev_token tokens i) || (i =? 0) || str_eq next "("
    || str_eq (prev_token tokens i) "~" || str_eq (prev_token tokens i) "("
  = true.
Proof.
  intros Hnext. unfold negation_placed. rewrite Hnext.
  rewrite !orb_true_iff, Nat.eqb_eq, !str_eq_true.
  split; [intros [H|[H|[H|[H|H]]]]|intros [[[[H|H]|H]|H]|H]];
    try (injection H as H); subst; tauto.
Qed.

(** When the loop accepts, every iteration went through to [last_token =
    token], and [last_token] held the preceding token. *)
Lemma scan_accept_each tokens :
  forall todo done stack,
    tokens = done ++ todo ->
    scan tokens (enumerate_from (length done) todo) stack
      (prev_token tokens (length done)) = Ok true ->
    forall i token,
      length done <= i -> tokens !! i = Some token ->
      exists st st',
        scan_token tokens i token st (prev_token tokens i) = Next st'.
Proof.
  induction todo as [|t todo IH]; intros done stack Htokens Hscan i token Hi Hlook.
  - subst tokens. rewrite app_nil_r in Hlook.
    apply lookup_lt_Some in Hlook. lia.
  - simpl in Hscan.
    destruct (scan_token tokens (length done) t stack
                (prev_token tokens (length done))) as [stack'|b|] eqn:Hstep;
      [|apply scan_token_return in Hstep; congruence|discriminate].
    destruct (decide (i = length done)) as [->|Hne].
    + assert (token = t) as ->.
      { subst tokens. rewrite lookup_app_r, Nat.sub_diag in Hlook by lia.
        now injection Hlook. }
      eauto.
    + apply (IH (done ++ [t]) stack').
      * now rewrite <- app_assoc.
      * rewrite length_app, Nat.add_1_r.
        replace (prev_token tokens (S (length done))) with t; [exact Hscan|].
        subst tokens. now rewrite prev_token_snoc.
      * rewrite length_app. simpl. lia.
      * exact Hlook.
Qed.

Lemma is_well_formed_scan statement :
  is_well_formed statement = Ok true ->
  scan (tokenize statement) (enumerate (tokenize statement)) []
    EmptyString = Ok true /\
  exists final, last (tokenize statement) = Some final /\ final <> "~".
Proof.
  unfold is_well_formed, tokenize.
  set (tokens := findall_valid statement).
  destruct (negb (str_eq (join tokens) statement) || (length tokens <? 1));
    [discriminate|].
  destruct (index tokens 0) as [first|]; [|discriminate]. cbn [bind].
  destruct (negb (fullmatch_variable first || str_in_tuple first ["("; "~"]));
    [discriminate|].
  unfold index_last. destruct (last tokens) as [final|]; [|discriminate].
  cbn [bind].
  destruct (negb (fullmatch_variable final || str_eq final ")")) eqn:Hfinal;
    [discriminate|].
  intros Hscan. split; [exact Hscan|].
  exists final. split; [reflexivity|]. intros ->. discriminate Hfinal.
Qed.

(** Every negation of an accepted statement is placed as the rule says. *)
Lemma accepted_negation_placed statement i :
  is_well_formed statement = Ok true ->
  tokenize statement !! i = Some "~" ->
  negation_placed (tokenize statement) i.
Proof.
  intros Hwf Hi.
  destruct (is_well_formed_scan statement Hwf) as (Hscan & final & Hlast & Hfinal).
  set (tokens := tokenize statement) in *.
  assert (Hlt : i + 1 < length tokens).
  { pose proof (lookup_lt_Some _ _ _ Hi) as Hlen.
    destruct (decide (i + 1 = length tokens)) as [Heq|]; [|lia].
    rewrite last_lookup in Hlast.
    replace (pred (length tokens)) with i in Hlast by lia. congruence. }
  destruct (index_lt tokens (i + 1) Hlt) as (next & Hnext & _).
  destruct (scan_accept_each tokens tokens [] [] eq_refl Hscan i "~")
    as (st & st' & Hstep); [simpl; lia|exact Hi|].
  rewrite (scan_token_negation _ _ _ _ next Hnext) in Hstep.
  apply (negation_placedb tokens i next Hnext).
  match type of Hstep with
  | (if ?c then _ else _) = _ => destruct c; [reflexivity|discriminate]
  end.
Qed.

(** C8. A negation token passes the scan exactly when it stands at the very
    start, right after a binary operator, an open paren or another negation,
    or right before an open paren; at any other place the scan returns
    [False].  (The scan only runs on statements whose last token is no
    negation, so a token follows.)  Hence every negation of an accepted
    statement is so placed, and a statement with a negation placed otherwise
    is rejected.  [~~A] is accepted and [A~B] is not. *)
Theorem negation_placement :
  (forall tokens i stack,
     i + 1 < length tokens ->
     (negation_placed tokens i ->
      scan_token tokens i "~" stack (prev_token tokens i) = Next stack) /\
     (~ negation_placed tokens i ->
      scan_token tokens i "~" stack (prev_token tokens i) = Return false)) /\
  (forall statement i,
     tokenize statement !! i = Some "~" ->
     (is_well_formed statement = Ok true ->
      negation_placed (tokenize statement) i) /\
     (~ negation_placed (tokenize statement) i ->
      is_well_formed statement = Ok false)) /\
  is_well_formed "~~A" = Ok true /\
  is_well_formed "A~B" = Ok false.
Proof.
  split; [|split; [|split; reflexivity]].
  - intros tokens i stack Hlt.
    destruct (index_lt tokens (i + 1) Hlt) as (next & Hnext & _).
    rewrite (scan_token_negation _ _ _ _ next Hnext).
    rewrite (negation_placedb tokens i next Hnext).
    destruct (_ || _); split; intros H; congruence.
  - intros statement i Hi. split.
    + intros Hwf. now apply accepted_negation_placed.
    + intros Hbad. destruct (is_well_formed_returns statement) as [[|] Hb];
        [|exact Hb].
      destruct Hbad. now apply accepted_negation_placed.
Qed.

Lemma negation_placement_witness :
  (negation_placed ["A"; "+"; "~"; "B"] 2 /\
   scan_token ["A"; "+"; "~"; "B"] 2 "~" [] "+" = Next []) /\
  (~ negation_placed ["A"; "~"; "B"] 1 /\
   scan_token ["A"; "~"; "B"] 1 "~" [] "A" = Return false) /\
  (is_well_formed "A+~B" = Ok true /\ negation_placed (tokenize "A+~B") 2) /\
  is_well_formed "A~B" = Ok false.
Proof.
  destruct negation_placement as (Hstep & Hwf & _).
  assert (Hgood : negation_placed ["A"; "+"; "~"; "B"] 2).
  { right. left. reflexivity. }
  assert (Hbad : ~ negation_placed ["A"; "~"; "B"] 1).
  { intros [H|[H|[H|[H|H]]]]; discriminate H. }
  split; [|split; [|split]].
  - split; [exact Hgood|].
    apply (Hstep ["A"; "+"; "~"; "B"] 2 []); [simpl; lia|exact Hgood].
  - split; [exact Hbad|].
    apply (Hstep ["A"; "~"; "B"] 1 []); [simpl; lia|exact Hbad].
  - split; [reflexivity|].
    apply (Hwf "A+~B" 2); reflexivity.
  - apply (Hwf "A~B" 1); [reflexivity|exact Hbad].
Defined.

(** ** A variable directly followed by a group *)

(** C10. [is_well_formed("A(B)")] is true: at an open paren the scan only
    pushes the paren stack, whatever the preceding token is, so a variable
    directly followed by a parenthesized group is accepted. *)
Theorem variable_then_group_accepted :
  is_well_formed "A(B)" = Ok true /\
  (forall tokens i stack last_token,
     scan_token tokens i "(" stack last_token = Next ("(" :: stack)) /\
  scan_token ["A"; "("; "B"; ")"] 1 "(" [] "A" = Next ["("].
Proof. repeat split. Qed.

(** ** Every formula of the reference grammar is accepted *)

Lemma chars_tokens_app s t :
  chars_tokens (s +:+ t) = chars_tokens s ++ chars_tokens t.
Proof.
  induction s as [|c s IH]; [reflexivity|].
  rewrite append_cons. simpl. now rewrite IH.
Qed.

Lemma wff_nonempty s : wff s -> chars_tokens s <> [].
Proof.
  destruct 1 as [c _|s _|o s t _ _ _|s _]; try discriminate.
  rewrite chars_tokens_app. simpl. now destruct (chars_tokens s).
Qed.

(** One iteration at each kind of token. *)
Lemma scan_cons tokens done t todo stack last_token :
  scan tokens (enumerate_from (length done) (t :: todo)) stack last_token =
  match scan_token tokens (length done) t stack last_token with
  | Next stack' => scan tokens (enumerate_from (length (done ++ [t])) todo) stack' t
  | Return b => Ok b
  | Throw e => Raise e
  end.
Proof. simpl. now rewrite length_app, Nat.add_1_r. Qed.

Lemma scan_token_variable tokens i c stack last_token :
  variable_char c = true ->
  scan_token tokens i (String c EmptyString) stack last_token =
  if fullmatch_variable last_token then Return false else Next stack.
Proof.
  destruct c as [[] [] [] [] [] [] [] []]; intros H; try discriminate H;
    reflexivity.
Qed.

Lemma scan_token_operator tokens i o stack last_token :
  operator_char o = true ->
  scan_token tokens i (String o EmptyString) stack last_token =
  if fullmatch_operator last_token || str_eq last_token "(" then Return false
  else Next stack.
Proof.
  destruct o as [[] [] [] [] [] [] [] []]; intros H; try discriminate H;
    reflexivity.
Qed.

Lemma scan_token_close tokens i top stack last_token :
  str_eq last_token "(" = false ->
  scan_token tokens i ")" (top :: stack) last_token =
  match tokens !! (i + 1) with
  | Some next => if negb (str_in next "&+>^=)") then Return false else Next stack
  | None => Next stack
  end.
Proof.
  intros Hlast. unfold scan_token.
  cbn [str_eq String.eqb Ascii.eqb Bool.eqb orb pop]. fold (str_eq last_token "(").
  rewrite Hlast. unfold index.
  destruct (i + 1 <? length tokens) eqn:Hlt.
  - apply Nat.ltb_lt in Hlt. destruct (index_lt tokens (i + 1) Hlt) as (x & -> & _).
    reflexivity.
  - apply Nat.ltb_ge in Hlt. now rewrite (lookup_ge_None_2 tokens (i + 1)).
Qed.

Lemma start_ok_not_variable i last_token :
  start_ok i last_token -> fullmatch_variable last_token = false.
Proof.
  intros [[_ ->]|[H|[->| ->]]]; try reflexivity.
  destruct last_token as [|c [|]]; try discriminate H.
  apply operator_not_variable. exact H.
Qed.

Lemma end_ok_not_start last_token :
  end_ok last_token ->
  fullmatch_operator last_token || str_eq last_token "(" = false.
Proof.
  intros [H| ->]; [|reflexivity].
  destruct last_token as [|c [|]]; try discriminate H.
  simpl in H. cbn [fullmatch_operator]. rewrite (variable_not_operator c H).
  destruct c as [[] [] [] [] [] [] [] []]; try discriminate H; reflexivity.
Qed.

Lemma scan_token_negation_start tokens i stack last_token :
  start_ok i last_token -> i + 1 < length tokens ->
  scan_token tokens i "~" stack last_token = Next stack.
Proof.
  intros Hstart Hlt.
  destruct (index_lt tokens (i + 1) Hlt) as (next & Hnext & _).
  rewrite (scan_token_negation _ _ _ _ next Hnext).
  destruct Hstart as [[-> ->]|[->|[->| ->]]];
    destruct (str_eq next "("); try reflexivity;
    repeat match goal with
           | |- context [str_eq last_token ?t] => destruct (str_eq last_token t)
           | |- context [i =? 0] => destruct (i =? 0)
           end; reflexivity.
Qed.

Lemma lookup_after done t (rest : list string) :
  (done ++ t :: rest) !! (length done + 1) = head rest.
Proof.
  rewrite lookup_app_r by lia.
  replace (length done + 1 - length done) with 1 by lia.
  now destruct rest.
Qed.

(** The scan runs through a formula that stands at an operand position: it
    leaves the paren stack as it found it and ends on a variable or a close
    paren. *)
Lemma scan_wff s :
  wff s ->
  forall tokens done rest stack last_token,
    tokens = done ++ chars_tokens s ++ rest ->
    start_ok (length done) last_token ->
    follow_ok rest ->
    exists last_token',
      end_ok last_token' /\
      scan tokens (enumerate_from (length done) (chars_tokens s ++ rest))
        stack last_token =
      scan tokens (enumerate_from (length (done ++ chars_tokens s)) rest)
        stack last_token'.
Proof.
  induction 1 as [c Hc|s Hs IH|o s t Ho Hs IHs Ht IHt|s Hs IH];
    intros tokens done rest stack last_token Htokens Hstart Hfollow.
  - exists (String c EmptyString). split; [left; exact Hc|].
    cbn [chars_tokens app]. rewrite scan_cons, (scan_token_variable _ _ _ _ _ Hc).
    now rewrite (start_ok_not_variable _ _ Hstart).
  - cbn [chars_tokens app]. rewrite scan_cons.
    rewrite scan_token_negation_start; [|exact Hstart|].
    2:{ subst tokens. rewrite length_app. cbn [chars_tokens app length].
        rewrite length_app. pose proof (wff_nonempty s Hs).
        destruct (chars_tokens s); [congruence|simpl; lia]. }
    destruct (IH tokens (done ++ ["~"]) rest stack "~") as (l' & Hend & Heq).
    + rewrite Htokens. cbn [chars_tokens app]. now rewrite <- app_assoc.
    + right. right. now right.
    + exact Hfollow.
    + exists l'. split; [exact Hend|]. rewrite Heq. now rewrite <- app_assoc.
  - rewrite chars_tokens_app in *. cbn [chars_tokens] in *.
    rewrite <- app_assoc. cbn [app].
    destruct (IHs tokens done (String o EmptyString :: chars_tokens t ++ rest)
                stack last_token) as (l1 & Hend1 & Heq1).
    + rewrite Htokens. now rewrite <- app_assoc.
    + exact Hstart.
    + destruct o as [[] [] [] [] [] [] [] []]; try discriminate Ho; reflexivity.
    + rewrite Heq1, scan_cons, (scan_token_operator _ _ _ _ _ Ho).
      rewrite (end_ok_not_start _ Hend1).
      destruct (IHt tokens ((done ++ chars_tokens s) ++ [String o EmptyString])
                  rest stack (String o EmptyString)) as (l2 & Hend2 & Heq2).
      * rewrite Htokens. now rewrite <- !app_assoc.
      * right. left. exact Ho.
      * exact Hfollow.
      * exists l2. split; [exact Hend2|]. rewrite Heq2.
        now rewrite <- !app_assoc.
  - cbn [chars_tokens] in *. rewrite chars_tokens_app in *.
    cbn [chars_tokens app] in *. rewrite scan_cons.
    change (scan_token tokens (length done) "(" stack last_token)
      with (@Next (list string) ("(" :: stack)).
    cbv iota. rewrite <- app_assoc. cbn [app].
    rewrite <- app_assoc in Htokens. cbn [app] in Htokens.
    destruct (IH tokens (done ++ ["("]) (")" :: rest) ("(" :: stack) "(")
      as (l1 & Hend1 & Heq1).
    + rewrite Htokens. now rewrite <- !app_assoc.
    + right. right. now left.
    + reflexivity.
    + rewrite Heq1, scan_cons.
      assert (Hl1 : str_eq l1 "(" = false).
      { pose proof (end_ok_not_start _ Hend1) as H.
        now apply orb_false_iff in H. }
      rewrite (scan_token_close _ _ _ _ _ Hl1).
      assert (Hnext : tokens !! (length ((done ++ ["("]) ++ chars_tokens s) + 1)
                      = head rest).
      { rewrite Htokens.
        replace (done ++ "(" :: chars_tokens s ++ ")" :: rest)
          with (((done ++ ["("]) ++ chars_tokens s) ++ ")" :: rest)
          by now rewrite <- !app_assoc.
        apply lookup_after. }
      rewrite Hnext.
      exists ")". split; [now right|].
      replace (((done ++ ["("]) ++ chars_tokens s) ++ [")"])
        with (done ++ "(" :: chars_tokens s ++ [")"])
        by now rewrite <- !app_assoc.
      destruct rest as [|next rest]; [reflexivity|].
      cbn [head]. unfold follow_ok in Hfollow. now rewrite Hfollow.
Qed.

Lemma findall_valid_app s t :
  findall_valid (s +:+ t) = findall_valid s ++ findall_valid t.
Proof.
  induction s as [|c s IH]; [reflexivity|].
  rewrite append_cons. simpl. rewrite IH. now destruct (valid_char c).
Qed.

(** No character of a formula is dropped by the tokenizer. *)
Lemma wff_findall s : wff s -> findall_valid s = chars_tokens s.
Proof.
  induction 1 as [c Hc|s _ IH|o s t Ho _ IHs _ IHt|s _ IH].
  - simpl. now rewrite (variable_valid c Hc).
  - simpl. now rewrite IH.
  - rewrite findall_valid_app, chars_tokens_app. simpl.
    now rewrite (operator_valid o Ho), IHs, IHt.
  - simpl. rewrite findall_valid_app, chars_tokens_app. simpl. now rewrite IH.
Qed.

Lemma join_chars_tokens s : join (chars_tokens s) = s.
Proof.
  unfold join. induction s as [|c s IH]; [reflexivity|].
  cbn [chars_tokens String.concat]. destruct (chars_tokens s) eqn:Hs.
  - destruct s; [reflexivity|discriminate Hs].
  - rewrite IH. reflexivity.
Qed.

Lemma wff_head s :
  wff s ->
  exists first,
    head (chars_tokens s) = Some first /\
    fullmatch_variable first || str_in_tuple first ["("; "~"] = true.
Proof.
  induction 1 as [c Hc|s _ IH|o s t Ho _ IHs _ IHt|s _ IH].
  - exists (String c EmptyString). split; [reflexivity|].
    cbn [fullmatch_variable]. now rewrite Hc.
  - now exists "~".
  - destruct IHs as (first & Hhead & Hfirst). exists first.
    split; [|exact Hfirst]. rewrite chars_tokens_app.
    destruct (chars_tokens s); [discriminate Hhead|exact Hhead].
  - now exists "(".
Qed.

Lemma wff_last s :
  wff s -> exists final, last (chars_tokens s) = Some final /\ end_ok final.
Proof.
  induction 1 as [c Hc|s _ IH|o s t Ho _ IHs _ IHt|s _ IH].
  - exists (String c EmptyString). split; [reflexivity|now left].
  - destruct IH as (final & Hlast & Hend). exists final.
    split; [|exact Hend]. cbn [chars_tokens]. now rewrite last_cons, Hlast.
  - destruct IHt as (final & Hlast & Hend). exists final.
    split; [|exact Hend]. rewrite chars_tokens_app. cbn [chars_tokens].
    now rewrite last_app, last_cons, Hlast.
  - exists ")". split; [|now right].
    cbn [chars_tokens]. rewrite chars_tokens_app. cbn [chars_tokens].
    now rewrite app_comm_cons, last_snoc.
Qed.

(** The half of the reference grammar that holds: [is_well_formed] accepts
    every formula of the grammar. *)
Lemma wff_accepted s : wff s -> is_well_formed s = Ok true.
Proof.
  intros Hs. unfold is_well_formed.
  rewrite (wff_findall s Hs), join_chars_tokens.
  rewrite str_eq_refl. cbn [negb orb].
  pose proof (wff_nonempty s Hs) as Hne.
  destruct (wff_head s Hs) as (first & Hhead & Hfirst).
  destruct (wff_last s Hs) as (final & Hlast & Hend).
  destruct (length (chars_tokens s) <? 1) eqn:Hlen.
  { apply Nat.ltb_lt in Hlen. destruct (chars_tokens s); [congruence|]. simpl in Hlen. lia. }
  unfold index, index_last. rewrite <- head_lookup, Hhead, Hlast. cbn [bind].
  rewrite Hfirst. cbn [negb].
  assert (Hfinal : fullmatch_variable final || str_eq final ")" = true).
  { destruct Hend as [-> | ->]; [reflexivity|]. now rewrite orb_true_r. }
  rewrite Hfinal. cbn [negb].
  destruct (scan_wff s Hs (chars_tokens s) [] [] [] EmptyString)
    as (l' & _ & Hscan).
  - now rewrite app_nil_r.
  - left. now split.
  - exact I.
  - rewrite app_nil_r in Hscan. unfold enumerate.
    cbn [length] in Hscan. rewrite Hscan. reflexivity.
Qed.

(** ** What acceptance guarantees *)

Lemma join_cons_char c tokens :
  join (String c EmptyString :: tokens) = String c (join tokens).
Proof. unfold join. now destruct tokens. Qed.

Lemma join_findall_length s :
  String.length (join (findall_valid s)) <= String.length s.
Proof.
  induction s as [|c s IH]; [reflexivity|].
  simpl. destruct (valid_char c); [rewrite join_cons_char; simpl|]; lia.
Qed.

(** If joining the tokens gives the statement back, no character was
    dropped. *)
Lemma join_findall_exact s :
  join (findall_valid s) = s -> findall_valid s = chars_tokens s.
Proof.
  induction s as [|c s IH]; [reflexivity|].
  simpl. destruct (valid_char c).
  - rewrite join_cons_char. intros H. injection H as H. now rewrite IH.
  - intros H. pose proof (join_findall_length s) as Hlen.
    rewrite H in Hlen. simpl in Hlen. lia.
Qed.

(** The effect of one iteration on the paren stack. *)
Lemma scan_token_stack tokens i token stack last_token stack' :
  scan_token tokens i token stack last_token = Next stack' ->
  if str_eq token "(" then stack' = token :: stack
  else if str_eq token ")" then exists top, stack = top :: stack'
  else stack' = stack.
Proof.
  unfold scan_token.
  destruct (str_eq token "("); [intros H; now inversion H|].
  destruct (str_eq token ")").
  { destruct stack as [|top stack]; cbn [orb pop]; [discriminate|].
    intros H. exists top. f_equal.
    repeat match type of H with
           | context [match index ?l ?j with _ => _ end] => destruct (index l j)
           | context [if ?c then _ else _] => destruct c
           end; now inversion H. }
  intros H.
  repeat match type of H with
         | context [match index ?l ?j with _ => _ end] => destruct (index l j)
         | context [if ?c then _ else _] => destruct c
         end; now inversion H.
Qed.

Lemma scan_balanced tokens :
  forall todo i stack last_token,
    scan tokens (enumerate_from i todo) stack last_token = Ok true ->
    balanced (length stack) todo = true.
Proof.
  induction todo as [|t todo IH]; intros i stack last_token Hscan.
  - simpl in *. destruct stack; [reflexivity|discriminate].
  - cbn [enumerate_from scan] in Hscan.
    destruct (scan_token tokens i t stack last_token) as [stack'|b|] eqn:Hstep;
      [|apply scan_token_return in Hstep; congruence|discriminate].
    apply scan_token_stack in Hstep. apply IH in Hscan.
    cbn [balanced].
    destruct (str_eq t "("); [now subst stack'|].
    destruct (str_eq t ")"); [|now subst stack'].
    destruct Hstep as (top & ->). exact Hscan.
Qed.

Lemma findall_valid_single statement token :
  In token (findall_valid statement) -> exists c, token = String c EmptyString.
Proof.
  induction statement as [|c statement IH]; [easy|].
  simpl. destruct (valid_char c); [|exact IH].
  intros [<-|H]; [now exists c|now apply IH].
Qed.

Lemma str_in_follow c :
  str_in (String c EmptyString) "&+>^=)" = true ->
  operator_char c = true \/ c = ")"%char.
Proof.
  destruct c as [[] [] [] [] [] [] [] []]; vm_compute; intros H;
    try discriminate H; (left; reflexivity) || (right; reflexivity).
Qed.

(** A close paren that passes the scan does not follow an open paren, and
    what follows it, if anything, is a binary operator or a close paren. *)
Lemma scan_token_close_next tokens i stack last_token stack' :
  scan_token tokens i ")" stack last_token = Next stack' ->
  last_token <> "(" /\
  forall next, tokens !! (i + 1) = Some next -> str_in next "&+>^=)" = true.
Proof.
  unfold scan_token.
  cbn [str_eq String.eqb Ascii.eqb Bool.eqb]. fold (str_eq last_token "(").
  destruct stack as [|top stack]; cbn [orb pop]; [discriminate|].
  destruct (str_eq last_token "(") eqn:Hlast; [discriminate|].
  apply str_eq_false in Hlast.
  destruct (i + 1 <? length tokens) eqn:Hlt.
  - apply Nat.ltb_lt in Hlt.
    destruct (index_lt tokens (i + 1) Hlt) as (next & Hnext & ->).
    destruct (str_in next "&+>^=)") eqn:Hin; [|discriminate].
    intros _. split; [exact Hlast|]. intros next' Hnext'. congruence.
  - apply Nat.ltb_ge in Hlt. intros _. split; [exact Hlast|].
    intros next Hnext. apply lookup_lt_Some in Hnext. lia.
Qed.

(** In an accepted statement no variable follows a variable, no binary
    operator follows a binary operator or an open paren, no close paren
    follows an open paren, and a close paren is followed by a binary operator
    or a close paren only. *)
Lemma accepted_adjacent statement x y :
  is_well_formed statement = Ok true ->
  adjacent (tokenize statement) x y ->
  ~ (fullmatch_variable x = true /\ fullmatch_variable y = true) /\
  ~ (fullmatch_operator x = true /\ fullmatch_operator y = true) /\
  ~ (x = "(" /\ fullmatch_operator y = true) /\
  ~ (x = "(" /\ y = ")") /\
  (x = ")" -> fullmatch_operator y = true \/ y = ")").
Proof.
  intros Hwf (i & Hx & Hy).
  destruct (is_well_formed_scan statement Hwf) as (Hscan & _).
  set (tokens := tokenize statement) in *.
  destruct (scan_accept_each tokens tokens [] [] eq_refl Hscan (S i) y)
    as (st & st' & Hstep); [simpl; lia|exact Hy|].
  rewrite (prev_token_lookup tokens i x Hx) in Hstep.
  split; [|split; [|split; [|split]]].
  - intros [Hvx Hvy]. destruct y as [|c [|]]; try discriminate Hvy.
    rewrite (scan_token_variable _ _ _ _ _ Hvy), Hvx in Hstep. discriminate.
  - intros [Hvx Hvy]. destruct y as [|c [|]]; try discriminate Hvy.
    rewrite (scan_token_operator _ _ _ _ _ Hvy), Hvx in Hstep. discriminate.
  - intros [-> Hvy]. destruct y as [|c [|]]; try discriminate Hvy.
    rewrite (scan_token_operator _ _ _ _ _ Hvy) in Hstep.
    rewrite orb_true_r in Hstep. discriminate.
  - intros [-> ->]. apply scan_token_close_next in Hstep as [Hne _].
    now destruct Hne.
  - intros ->.
    destruct (scan_accept_each tokens tokens [] [] eq_refl Hscan i ")")
      as (st0 & st0' & Hstep0); [simpl; lia|exact Hx|].
    apply scan_token_close_next in Hstep0 as [_ Hnext].
    rewrite <- Nat.add_1_r in Hy. specialize (Hnext y Hy).
    destruct (findall_valid_single statement y) as (c & ->).
    { apply list_elem_of_In, list_elem_of_lookup. eauto. }
    destruct (str_in_follow c Hnext) as [Hop| ->]; [now left|now right].
Qed.

(** C1 (amended).  Every formula of the reference grammar is accepted by
    [is_well_formed].  Every accepted statement is made of token characters
    only, is not empty, has balanced parentheses, begins with a variable, an
    open paren or a negation, and ends with a variable or a close paren; in it
    no variable directly follows a variable, no binary operator directly
    follows a binary operator or an open paren, no close paren directly
    follows an open paren, and a close paren is directly followed by a binary
    operator or a close paren only. *)
Theorem is_well_formed_grammar (statement : string) :
  (wff statement -> is_well_formed statement = Ok true) /\
  (is_well_formed statement = Ok true ->
   tokenize statement = chars_tokens statement /\
   statement <> EmptyString /\
   balanced 0 (tokenize statement) = true /\
   (exists first final,
      head (tokenize statement) = Some first /\
      last (tokenize statement) = Some final /\
      (fullmatch_variable first = true \/ first = "(" \/ first = "~") /\
      (fullmatch_variable final = true \/ final = ")")) /\
   (forall x y,
      adjacent (tokenize statement) x y ->
      ~ (fullmatch_variable x = true /\ fullmatch_variable y = true) /\
      ~ (fullmatch_operator x = true /\ fullmatch_operator y = true) /\
      ~ (x = "(" /\ fullmatch_operator y = true) /\
      ~ (x = "(" /\ y = ")") /\
      (x = ")" -> fullmatch_operator y = true \/ y = ")"))).
Proof.
  split; [apply wff_accepted|].
  intros Hwf.
  destruct (is_well_formed_scan statement Hwf) as (Hscan & _).
  pose proof Hwf as Hpre. unfold is_well_formed in Hpre. fold (tokenize statement) in Hpre.
  destruct (negb (str_eq (join (tokenize statement)) statement)) eqn:Hjoin;
    [discriminate Hpre|].
  apply negb_false_iff, str_eq_true in Hjoin.
  destruct (length (tokenize statement) <? 1) eqn:Hlen; [discriminate Hpre|].
  cbn [orb] in Hpre. unfold index, index_last in Hpre.
  rewrite <- head_lookup in Hpre.
  destruct (head (tokenize statement)) as [first|] eqn:Hhead;
    [|discriminate Hpre].
  cbn [bind] in Hpre.
  destruct (fullmatch_variable first || str_in_tuple first ["("; "~"])
    eqn:Hfirst; [|discriminate Hpre].
  destruct (last (tokenize statement)) as [final|] eqn:Hlast;
    [|discriminate Hpre].
  cbn [bind negb] in Hpre.
  destruct (fullmatch_variable final || str_eq final ")") eqn:Hfinal;
    [|discriminate Hpre].
  split; [now apply join_findall_exact|].
  split; [intros ->; discriminate Hhead|].
  split; [exact (scan_balanced _ _ 0 [] EmptyString Hscan)|].
  split.
  - exists first, final. repeat split.
    + apply orb_true_iff in Hfirst as [H|H]; [now left|right].
      unfold str_in_tuple in H. cbn [existsb] in H.
      rewrite !orb_true_iff, !str_eq_true in H.
      destruct H as [H|[H|H]]; [now left|now right|discriminate H].
    + apply orb_true_iff in Hfinal as [H|H]; [now left|right].
      now apply str_eq_true.
  - intros x y. now apply accepted_adjacent.
Qed.

Lemma is_well_formed_grammar_witness :
  wff "~(A&B)" /\
  is_well_formed "~(A&B)" = Ok true /\
  balanced 0 (tokenize "~(A&B)") = true /\
  adjacent (tokenize "~(A&B)") "A" "&" /\
  ~ (fullmatch_variable "A" = true /\ fullmatch_variable "&" = true).
Proof.
  assert (Hwff : wff "~(A&B)").
  { apply wff_negation, (wff_group "A&B").
    apply (wff_binary "&" "A" "B"); [reflexivity| |]; now apply wff_variable. }
  assert (Hadj : adjacent (tokenize "~(A&B)") "A" "&").
  { exists 2. split; reflexivity. }
  destruct (is_well_formed_grammar "~(A&B)") as [Haccept Hshape].
  pose proof (Haccept Hwff) as Hwf.
  destruct (Hshape Hwf) as (_ & _ & Hbal & _ & Hpairs).
  split; [exact Hwff|]. split; [exact Hwf|]. split; [exact Hbal|].
  split; [exact Hadj|]. exact (proj1 (Hpairs "A" "&" Hadj)).
Defined.

(** ** Accepted strings that are no formulas *)

Lemma count_chars_app p s t :
  count_chars p (s +:+ t) = count_chars p s + count_chars p t.
Proof.
  induction s as [|c s IH]; [reflexivity|].
  rewrite append_cons. simpl. rewrite IH. lia.
Qed.

(** A formula of the reference grammar has one variable more than it has
    binary operators. *)
Lemma wff_count s :
  wff s -> count_chars variable_char s = S (count_chars operator_char s).
Proof.
  induction 1 as [c Hc|s _ IH|o s t Ho _ IHs _ IHt|s _ IH].
  - simpl. now rewrite Hc, (variable_not_operator c Hc).
  - simpl. exact IH.
  - rewrite !count_chars_app. simpl.
    rewrite Ho, (operator_not_variable o Ho), IHs, IHt. lia.
  - simpl. rewrite !count_chars_app, IH. simpl. lia.
Qed.

(** Strings that [is_well_formed] accepts although they are no formula of
    the reference grammar: a binary operator or a negation directly before a
    close paren, and a variable directly followed by a group. *)
Lemma is_well_formed_accepts_non_formulas :
  (is_well_formed "(A+)" = Ok true /\ ~ wff "(A+)") /\
  (is_well_formed "(~)" = Ok true /\ ~ wff "(~)") /\
  (is_well_formed "A(B)" = Ok true /\ ~ wff "A(B)").
Proof.
  split; [|split]; (split; [reflexivity|]);
    intros H; apply wff_count in H; discriminate H.
Qed.

(** C1 (counterexample).  The equivalence fails at [A~(B)]: the negation rule
    lets a negation stand directly before an open paren whatever precedes
    it, so the string is accepted, and it is no formula of the reference
    grammar because no operator joins [A] and [~(B)]. *)
Lemma is_well_formed_not_exact :
  ~ (is_well_formed "A~(B)" = Ok true <-> wff "A~(B)").
Proof.
  intros [H _]. specialize (H eq_refl). apply wff_count in H. discriminate H.
Qed.

(** ** The argument validator *)

Lemma rejected_false premise :
  rejected premise = false <-> is_well_formed premise = Ok true.
Proof.
  unfold rejected. destruct (is_well_formed premise) as [[|]|]; split; congruence.
Qed.

Lemma rejected_true premise :
  rejected premise = true <-> is_well_formed premise = Ok false.
Proof.
  unfold rejected. destruct (is_well_formed_returns premise) as [[|] ->];
    split; congruence.
Qed.

(** The loop over the premises appends one line per rejected premise, in
    order, and goes through the whole list. *)
Lemma collect_diagnostics_lines premises acc :
  collect_diagnostics premises acc =
  Ok (acc +:+ lines (map premise_diagnostic (List.filter rejected premises))).
Proof.
  revert acc. induction premises as [|p premises IH]; intros acc.
  - simpl. now rewrite append_nil_r.
  - cbn [collect_diagnostics List.filter]. unfold rejected at 1.
    destruct (is_well_formed_returns p) as [[|] ->]; cbn [bind negb].
    + apply IH.
    + rewrite IH. cbn [map lines foldr]. now rewrite append_assoc.
Qed.

(** The aggregated message is empty exactly when no premise is rejected. *)
Lemma str_truthy_lines bad :
  str_truthy (lines (map premise_diagnostic bad)) =
  match bad with [] => false | _ => true end.
Proof. destruct bad; reflexivity. Qed.

Lemma filter_rejected_nil premises :
  List.filter rejected premises = [] <->
  Forall (fun p => is_well_formed p = Ok true) premises.
Proof.
  induction premises as [|p premises IH]; simpl.
  - split; [constructor|reflexivity].
  - destruct (rejected p) eqn:Hp.
    + split; [discriminate|]. intros H. inversion H as [|? ? Hhd _]; subst.
      apply rejected_false in Hhd. congruence.
    + rewrite IH. apply rejected_false in Hp.
      split; [now constructor|]. intros H. now inversion H.
Qed.




(** ** Binary connectives *)

Lemma eval_token_binary truth_values token left right stack :
  truth_values !! token = None ->
  In token ["&"; "+"; ">"; "^"; "="] ->
  eval_token truth_values token (right :: left :: stack) =
  Ok (connective token left right :: stack).
Proof.
  intros Hkey Hin. unfold eval_token. rewrite Hkey.
  simpl in Hin. destruct Hin as [<-|[<-|[<-|[<-|[<-|[]]]]]]; reflexivity.
Qed.

(** C4. On a binary operator [eval_tokens] pops the right operand first, then
    the left one, and pushes: for [&] left and right, for [+] left or right,
    for [>] (not left) or right, for [^] left differs from right, for [=] left
    equals right.  The same holds through [evaluate_statement] for two
    variables joined by each operator, and the three evaluations of the
    specification come out as stated. *)
Theorem binary_connectives :
  (forall truth_values token left right stack,
     truth_values !! token = None ->
     In token ["&"; "+"; ">"; "^"; "="] ->
     eval_token truth_values token (right :: left :: stack) =
     Ok (connective token left right :: stack)) /\
  (forall left right,
     let truth_values := dict [("A", left); ("B", right)] in
     evaluate_statement "A&B" truth_values = Ok (left && right) /\
     evaluate_statement "A+B" truth_values = Ok (left || right) /\
     evaluate_statement "A>B" truth_values = Ok (negb left || right) /\
     evaluate_statement "A^B" truth_values = Ok (negb (Bool.eqb left right)) /\
     evaluate_statement "A=B" truth_values = Ok (Bool.eqb left right)) /\
  evaluate_statement "A>(B&C)"
    (dict [("A", true); ("B", true); ("C", false)]) = Ok false /\
  evaluate_statement "A^B" (dict [("A", true); ("B", true)]) = Ok false /\
  evaluate_statement "A=B" (dict [("A", false); ("B", false)]) = Ok true.
Proof.
  split; [|split; [|repeat split]].
  - intros tv token left right stack Hkey Hin. now apply eval_token_binary.
  - intros [|] [|]; vm_compute; repeat split.
Qed.

Lemma binary_connectives_witness :
  dict [("A", true)] !! ">" = None /\
  In ">" ["&"; "+"; ">"; "^"; "="] /\
  eval_token (dict [("A", true)]) ">" [false; true] = Ok [false].
Proof.
  assert (Hkey : dict [("A", true)] !! ">" = None) by reflexivity.
  assert (Hin : In ">" ["&"; "+"; ">"; "^"; "="]) by (simpl; tauto).
  split; [exact Hkey|]. split; [exact Hin|].
  exact (proj1 binary_connectives _ ">" true false [] Hkey Hin).
Defined.

(** ** The evaluator on formulas without a double negation *)

Lemma precedence_operator op :
  fullmatch_operator op = true -> precedence_of op = Ok (level op).
Proof.
  intros H.
  destruct (fullmatch_operator_cases op H) as [->|[->|[->|[->| ->]]]];
    reflexivity.
Qed.

Lemma level_range op : (0 <= level op <= 2)%Z.
Proof. unfold level. destruct (str_eq op "&"), (str_eq op "+"); lia. Qed.

Lemma drain_app output operators : drain output operators = output ++ operators.
Proof.
  revert output. induction operators as [|top operators IH]; intros output.
  - simpl. now rewrite app_nil_r.
  - simpl. rewrite IH. now rewrite <- app_assoc.
Qed.

Lemma tops_below_mono k k' operators :
  (k <= k')%Z -> tops_below k operators -> tops_below k' operators.
Proof.
  destruct operators as [|top operators]; [easy|].
  intros Hk (p & Hp & Hlt). exists p. split; [exact Hp|lia].
Qed.

Lemma pending_mono k k' token :
  (k' <= k)%Z -> pending k token -> pending k' token.
Proof. intros Hk (p & Hp & Hle & H0). exists p. repeat split; [exact Hp|lia|lia]. Qed.

(** The pop loop of an incoming operator of precedence [p] moves to the
    output exactly the pending operators of level at least [p]. *)
Lemma pop_higher_pending token p pend :
  precedence_of token = Ok p ->
  Forall (pending p) pend ->
  forall output operators,
    tops_below p operators ->
    pop_higher token output (pend ++ operators) = Ok (output ++ pend, operators).
Proof.
  intros Htoken. induction 1 as [|t pend (q & Hq & Hle & _) _ IH];
    intros output operators Hbelow.
  - rewrite app_nil_r. destruct operators as [|top operators]; [reflexivity|].
    destruct Hbelow as (q & Hq & Hlt). cbn [app pop_higher].
    rewrite Hq, Htoken. cbn [bind].
    destruct (Z.geb_spec q p) as [Hge|_]; [lia|reflexivity].
  - cbn [app pop_higher]. rewrite Hq, Htoken. cbn [bind].
    destruct (Z.geb_spec q p) as [_|Hlt]; [|lia].
    rewrite (IH _ _ Hbelow). now rewrite <- app_assoc.
Qed.

(** The pop loop of a close paren moves the pending operators to the output
    and stops at the open paren. *)
Lemma pop_to_paren_pending pend :
  Forall (pending 0) pend ->
  forall output operators,
    pop_to_paren output (pend ++ "(" :: operators) =
    (output ++ pend, "(" :: operators).
Proof.
  induction 1 as [|t pend (q & Hq & _ & H0) _ IH]; intros output operators.
  - now rewrite app_nil_r.
  - cbn [app pop_to_paren].
    destruct (str_eq t "(") eqn:Ht.
    { apply str_eq_true in Ht. subst t. vm_compute in Hq.
      injection Hq as <-. lia. }
    cbn [negb]. rewrite IH. now rewrite <- app_assoc.
Qed.

Lemma reorder_loop_cons token tokens output operators :
  reorder_loop (token :: tokens) output operators =
  bind (reorder_token token output operators)
    (fun '(output, operators) => reorder_loop tokens output operators).
Proof. reflexivity. Qed.

Lemma reorder_token_variable name output operators :
  fullmatch_variable name = true ->
  reorder_token name output operators = Ok (output ++ [name], operators).
Proof. unfold reorder_token. now intros ->. Qed.

Lemma reorder_token_operator op output operators :
  fullmatch_operator op = true ->
  reorder_token op output operators =
  bind (pop_higher op output operators)
    (fun '(output, operators) => Ok (output, op :: operators)).
Proof.
  intros H.
  destruct (fullmatch_operator_cases op H) as [->|[->|[->|[->| ->]]]];
    reflexivity.
Qed.

Lemma reorder_token_negation output operators :
  reorder_token "~" output operators =
  bind (pop_higher "~" output operators)
    (fun '(output, operators) => Ok (output, "~" :: operators)).
Proof. reflexivity. Qed.

Lemma reorder_token_close output operators :
  reorder_token ")" output operators =
  let '(output, operators) := pop_to_paren output operators in
  bind (pop operators) (fun '(_, operators) => Ok (output, operators)).
Proof. reflexivity. Qed.

Lemma no_double_negation_app l1 l2 :
  no_double_negation (l1 ++ l2) = true ->
  no_double_negation l1 = true /\ no_double_negation l2 = true.
Proof.
  induction l1 as [|t l1 IH]; [now split|].
  cbn [app no_double_negation]. rewrite !andb_true_iff.
  intros [Hhead Htail]. destruct (IH Htail) as [H1 H2].
  repeat split; [|exact H1|exact H2].
  destruct l1 as [|u l1]; [|exact Hhead].
  now rewrite andb_false_r.
Qed.

Lemma no_double_negation_cons t l :
  no_double_negation (t :: l) = true -> no_double_negation l = true.
Proof. cbn [no_double_negation]. rewrite andb_true_iff. tauto. Qed.

(** The reorder loop on the tokens of a formula: the output grows by the
    postfix form of the formula, except for the operators still pending on
    the stack, all of level at least [k].  A formula that starts with a
    negation or has a binary operator at its top needs a stack whose top
    binds less than [k]; a variable or a group needs nothing and leaves
    nothing pending. *)
Lemma reorder_reads k tokens f :
  reads k tokens f ->
  no_double_negation tokens = true ->
  forall rest output operators,
    tops_below k operators \/ ((3 <= k)%Z /\ head tokens <> Some "~") ->
    exists partial pend,
      reorder_loop (tokens ++ rest) output operators =
      reorder_loop rest (output ++ partial) (pend ++ operators) /\
      partial ++ pend = postfix f /\
      Forall (pending k) pend /\
      (head tokens <> Some "~" -> (3 <= k)%Z -> pend = []).
Proof.
  induction 1 as [k name Hname|k tokens f _ IH|k tokens f Hk _ IH
                 |k op tl tr l r Hop Hk _ IHl _ IHr];
    intros Hnd rest output operators Hctx.
  - exists [name], []. cbn [app]. rewrite reorder_loop_cons.
    rewrite (reorder_token_variable _ _ _ Hname). cbn [bind].
    repeat split. constructor.
  - cbn [app] in *. apply no_double_negation_cons in Hnd.
    apply no_double_negation_app in Hnd as [Hnd _].
    rewrite reorder_loop_cons.
    change (reorder_token "(" output operators)
      with (@Ok (list string * list string) (output, "(" :: operators)).
    cbn [bind]. rewrite <- app_assoc.
    destruct (IH Hnd ([")"] ++ rest) output ("(" :: operators))
      as (partial & pend & Heq & Hpost & Hpend & _).
    { left. exists (-1)%Z. split; [reflexivity|lia]. }
    rewrite Heq. cbn [app]. rewrite reorder_loop_cons, reorder_token_close.
    rewrite (pop_to_paren_pending pend Hpend). cbn [pop bind].
    exists (partial ++ pend), [].
    split; [now rewrite <- app_assoc|].
    split; [now rewrite app_nil_r|]. split; [constructor|reflexivity].
  - cbn [app] in *.
    assert (Hbelow : tops_below 3 operators).
    { destruct Hctx as [H|[_ H]]; [|now destruct H].
      now apply (tops_below_mono k). }
    rewrite reorder_loop_cons.
    assert (Hpush : reorder_token "~" output operators =
                    Ok (output, "~" :: operators)).
    { rewrite reorder_token_negation.
      pose proof (pop_higher_pending "~" 3 [] eq_refl (Forall_nil_2 _) output
                    operators Hbelow) as Hpop.
      cbn [app] in Hpop. rewrite Hpop. cbn [bind]. now rewrite app_nil_r. }
    rewrite Hpush. cbn [bind].
    assert (Hhead : head tokens <> Some "~").
    { cbn [no_double_negation] in Hnd. destruct tokens as [|t tokens]; [easy|].
      cbn [head]. intros [= ->]. discriminate Hnd. }
    destruct (IH (no_double_negation_cons _ _ Hnd) rest output ("~" :: operators))
      as (partial & pend & Heq & Hpost & _ & Hnone).
    { right. split; [lia|exact Hhead]. }
    rewrite (Hnone Hhead) in * by lia.
    exists partial, ["~"]. rewrite app_nil_r in Hpost.
    split; [exact Heq|]. split; [now rewrite Hpost|].
    split; [|intros H; now destruct H].
    constructor; [|constructor]. exists 3%Z. split; [reflexivity|lia].
  - pose proof (level_range op) as Hrange.
    assert (Hbelow : tops_below (level op) operators).
    { destruct Hctx as [H|[H _]]; [|lia]. now apply (tops_below_mono k). }
    apply no_double_negation_app in Hnd as [Hndl Hndr].
    apply no_double_negation_cons in Hndr.
    rewrite <- app_assoc. cbn [app].
    destruct (IHl Hndl (op :: tr ++ rest) output operators)
      as (pl & pendl & Heql & Hpostl & Hpendl & _); [now left|].
    rewrite Heql, reorder_loop_cons, (reorder_token_operator _ _ _ Hop).
    rewrite (pop_higher_pending op (level op) pendl (precedence_operator op Hop)
               Hpendl _ _ Hbelow).
    cbn [bind].
    destruct (IHr Hndr rest ((output ++ pl) ++ pendl) (op :: operators))
      as (pr & pendr & Heqr & Hpostr & Hpendr & _).
    { left. exists (level op). split; [now apply precedence_operator|lia]. }
    rewrite Heqr.
    exists (pl ++ pendl ++ pr), (pendr ++ [op]).
    split; [now rewrite <- !app_assoc|].
    split.
    { cbn [postfix]. rewrite <- Hpostl, <- Hpostr. now rewrite <- !app_assoc. }
    split; [|intros _ H; lia].
    apply Forall_app. split.
    + eapply Forall_impl; [exact Hpendr|].
      intros t Ht. apply (pending_mono (level op + 1)); [lia|exact Ht].
    + constructor; [|constructor].
      exists (level op). split; [now apply precedence_operator|lia].
Qed.

Lemma reads_formula_ok k tokens f : reads k tokens f -> formula_ok f.
Proof. induction 1; cbn [formula_ok]; auto. Qed.

Lemma variable_keys_None truth_values token :
  variable_keys truth_values -> fullmatch_variable token = false ->
  truth_values !! token = None.
Proof.
  intros Hkeys Htoken. destruct (truth_values !! token) eqn:Hlook; [|reflexivity].
  rewrite (Hkeys token) in Htoken; [discriminate|eauto].
Qed.

(** The value-stack phase on the postfix form of a formula pushes the value
    of the formula. *)
Lemma eval_loop_postfix truth_values f :
  formula_ok f -> variable_keys truth_values ->
  forall b rest stack,
    denote truth_values f = Some b ->
    eval_loop truth_values (postfix f ++ rest) stack =
    eval_loop truth_values rest (b :: stack).
Proof.
  intros Hok Hkeys. induction f as [name|f IH|op l IHl r IHr];
    intros b rest stack Hden; cbn [postfix denote formula_ok] in *.
  - cbn [app eval_loop]. unfold eval_token. now rewrite Hden.
  - destruct (denote truth_values f) as [a|]; [|discriminate].
    injection Hden as <-. rewrite <- app_assoc, (IH Hok a); [|reflexivity].
    cbn [app eval_loop]. unfold eval_token.
    now rewrite (variable_keys_None _ "~" Hkeys eq_refl).
  - destruct Hok as (Hop & Hl & Hr).
    destruct (denote truth_values l) as [a|]; [|discriminate].
    destruct (denote truth_values r) as [c|]; [|discriminate].
    injection Hden as <-.
    rewrite <- !app_assoc, (IHl Hl a), (IHr Hr c); [|reflexivity..].
    cbn [app eval_loop]. rewrite eval_token_binary; [reflexivity| |].
    + apply (variable_keys_None _ _ Hkeys).
      now apply fullmatch_operator_not_variable.
    + destruct (fullmatch_operator_cases op Hop) as [->|[->|[->|[->| ->]]]];
        simpl; tauto.
Qed.

(** On a statement that reads as the formula [f] by the precedence table and
    has no negation directly after a negation, [evaluate_statement] returns
    the value of [f]: the only departure from the table is the double
    negation. *)
Theorem evaluate_statement_reads statement f truth_values b :
  reads 0 (tokenize statement) f ->
  no_double_negation (tokenize statement) = true ->
  variable_keys truth_values ->
  denote truth_values f = Some b ->
  evaluate_statement statement truth_values = Ok b.
Proof.
  intros Hreads Hnd Hkeys Hden.
  destruct (reorder_reads 0 _ f Hreads Hnd [] [] []) as
    (partial & pend & Heq & Hpost & _); [now left|].
  unfold evaluate_statement, to_postfix.
  rewrite app_nil_r in Heq. rewrite Heq. cbn [reorder_loop bind app].
  rewrite drain_app, app_nil_r, Hpost.
  unfold eval_tokens.
  pose proof (eval_loop_postfix truth_values f (reads_formula_ok _ _ _ Hreads)
                Hkeys b [] [] Hden) as Heval.
  rewrite app_nil_r in Heval. rewrite Heval. reflexivity.
Qed.

(** ** Every formula of the reference grammar reads by the precedence table *)

Lemma reads_weaken k k' tokens f :
  reads k tokens f -> (k' <= k)%Z -> reads k' tokens f.
Proof.
  destruct 1 as [k name Hname|k tokens f Hf|k tokens f Hk Hf
                |k op tl tr l r Hop Hk Hl Hr]; intros Hle.
  - now constructor.
  - now constructor.
  - constructor; [lia|exact Hf].
  - constructor; [exact Hop|lia|exact Hl|exact Hr].
Qed.

(** A negation placed before a reading negates its leftmost operand. *)
Lemma reads_prefix_negation k tokens f :
  reads k tokens f -> (k <= 3)%Z -> exists f', reads k ("~" :: tokens) f'.
Proof.
  induction 1 as [k name Hname|k tokens f Hf _|k tokens f Hk Hf _
                 |k op tl tr l r Hop Hk Hl IHl Hr _]; intros Hle.
  - exists (Neg (Var name)). constructor; [exact Hle|now constructor].
  - exists (Neg f). constructor; [exact Hle|now constructor].
  - exists (Neg (Neg f)). constructor; [exact Hle|].
    constructor; [lia|exact Hf].
  - pose proof (level_range op) as Hrange.
    destruct IHl as (l' & Hl'); [lia|].
    exists (Bin op l' r).
    exact (reads_binary k op ("~" :: tl) tr l' r Hop Hk Hl' Hr).
Qed.

(** A binary operator and an operand placed after a reading: the operator
    takes as its left operand the longest part at the right end of the
    reading whose operators all bind at least as tightly. *)
Lemma reads_append_operand k tokens f :
  reads k tokens f ->
  forall op tokens' g,
    fullmatch_operator op = true -> reads 3 tokens' g ->
    exists f', reads (Z.min k (level op)) (tokens ++ op :: tokens') f'.
Proof.
  induction 1 as [k name Hname|k tokens f Hf _|k tokens f Hk Hf _
                 |k op0 tl tr l r Hop0 Hk Hl _ Hr IHr];
    intros op tokens' g Hop Hg; pose proof (level_range op) as Hrange.
  - exists (Bin op (Var name) g).
    apply (reads_binary _ op [name] tokens'); [exact Hop|lia|now constructor|].
    apply (reads_weaken 3); [exact Hg|lia].
  - exists (Bin op f g).
    apply (reads_binary _ op ("(" :: tokens ++ [")"]) tokens');
      [exact Hop|lia|now constructor|].
    apply (reads_weaken 3); [exact Hg|lia].
  - exists (Bin op (Neg f) g).
    apply (reads_binary _ op ("~" :: tokens) tokens'); [exact Hop|lia| |].
    + constructor; [lia|exact Hf].
    + apply (reads_weaken 3); [exact Hg|lia].
  - destruct (Z.le_gt_cases (level op) (level op0)) as [Hlow|Hhigh].
    + exists (Bin op (Bin op0 l r) g).
      apply (reads_binary _ op (tl ++ op0 :: tr) tokens'); [exact Hop|lia| |].
      * now constructor.
      * apply (reads_weaken 3); [exact Hg|lia].
    + destruct (IHr op tokens' g Hop Hg) as (r' & Hr').
      rewrite Z.min_l in Hr' by lia.
      exists (Bin op0 l r'). rewrite <- app_assoc. cbn [app].
      apply (reads_binary _ op0 tl (tr ++ op :: tokens')); [exact Hop0|lia| |];
        assumption.
Qed.

(** Two readings joined by a binary operator read again. *)
Lemma reads_join k2 tokens2 f2 :
  reads k2 tokens2 f2 ->
  forall op tokens1 f1,
    fullmatch_operator op = true -> reads 0 tokens1 f1 ->
    exists f, reads 0 (tokens1 ++ op :: tokens2) f.
Proof.
  induction 1 as [k name Hname|k tokens f Hf _|k tokens f Hk Hf _
                 |k op2 tl tr l r Hop2 Hk Hl IHl Hr IHr];
    intros op tokens1 f1 Hop H1; pose proof (level_range op) as Hrange.
  - destruct (reads_append_operand 0 tokens1 f1 H1 op [name] (Var name) Hop)
      as (f' & Hf'); [now constructor|].
    rewrite Z.min_l in Hf' by lia. now exists f'.
  - destruct (reads_append_operand 0 tokens1 f1 H1 op
                ("(" :: tokens ++ [")"]) f Hop) as (f' & Hf'); [now constructor|].
    rewrite Z.min_l in Hf' by lia. now exists f'.
  - destruct (reads_append_operand 0 tokens1 f1 H1 op ("~" :: tokens) (Neg f) Hop)
      as (f' & Hf'); [constructor; [lia|exact Hf]|].
    rewrite Z.min_l in Hf' by lia. now exists f'.
  - destruct (IHl op tokens1 f1 Hop H1) as (f' & Hf').
    destruct (IHr op2 (tokens1 ++ op :: tl) f' Hop2 Hf') as (f'' & Hf'').
    exists f''. rewrite <- app_assoc in Hf''. exact Hf''.
Qed.

(** The precedence table reads every formula of the reference grammar. *)
Lemma wff_reads s : wff s -> exists f, reads 0 (chars_tokens s) f.
Proof.
  induction 1 as [c Hc|s _ IH|o s t Ho _ IHs _ IHt|s _ IH].
  - exists (Var (String c EmptyString)). now constructor.
  - destruct IH as (f & Hf).
    apply (reads_prefix_negation 0 _ f Hf). lia.
  - destruct IHs as (l & Hl). destruct IHt as (r & Hr).
    rewrite chars_tokens_app. cbn [chars_tokens].
    exact (reads_join 0 _ r Hr (String o EmptyString) _ l Ho Hl).
  - destruct IH as (f & Hf). exists f.
    cbn [chars_tokens]. rewrite chars_tokens_app. cbn [chars_tokens].
    now constructor.
Qed.

Lemma reads_vars k tokens f :
  reads k tokens f ->
  forall name, In name (formula_vars f) ->
               In name tokens /\ fullmatch_variable name = true.
Proof.
  induction 1 as [k x Hx|k tokens f _ IH|k tokens f _ _ IH
                 |k op tl tr l r _ _ _ IHl _ IHr];
    intros name Hin; cbn [formula_vars] in Hin.
  - destruct Hin as [<-|[]]. split; [now left|exact Hx].
  - destruct (IH name Hin) as [H1 H2]. split; [|exact H2].
    right. apply in_or_app. now left.
  - destruct (IH name Hin) as [H1 H2]. split; [now right|exact H2].
  - apply in_app_or in Hin as [Hin|Hin].
    + destruct (IHl name Hin) as [H1 H2]. split; [|exact H2].
      apply in_or_app. now left.
    + destruct (IHr name Hin) as [H1 H2]. split; [|exact H2].
      apply in_or_app. right. now right.
Qed.

Lemma denote_sem truth_values f :
  (forall name, In name (formula_vars f) -> is_Some (truth_values !! name)) ->
  denote truth_values f = Some (sem (total_of truth_values) f).
Proof.
  induction f as [name|f IH|op l IHl r IHr]; intros Hcover;
    cbn [denote sem formula_vars] in *.
  - destruct (Hcover name) as [v Hv]; [now left|].
    unfold total_of. now rewrite Hv.
  - now rewrite (IH Hcover).
  - rewrite IHl, IHr; [reflexivity| |]; intros name Hin; apply Hcover;
      apply in_or_app; tauto.
Qed.

Lemma sem_ext sigma sigma' f :
  (forall name, In name (formula_vars f) -> sigma name = sigma' name) ->
  sem sigma f = sem sigma' f.
Proof.
  induction f as [name|f IH|op l IHl r IHr]; intros Hagree;
    cbn [sem formula_vars] in *.
  - apply Hagree. now left.
  - now rewrite (IH Hagree).
  - rewrite IHl, IHr; [reflexivity| |]; intros name Hin; apply Hagree;
      apply in_or_app; tauto.
Qed.

(** X1. On every formula of the reference grammar without a negation directly
    after a negation, and every assignment of its variables whose keys are
    variable names, [evaluate_statement] returns a boolean. *)
Theorem evaluate_statement_wff statement truth_values :
  wff statement ->
  no_double_negation (tokenize statement) = true ->
  variable_keys truth_values ->
  (forall name, In name (tokenize statement) ->
                fullmatch_variable name = true ->
                is_Some (truth_values !! name)) ->
  exists b, evaluate_statement statement truth_values = Ok b.
Proof.
  intros Hwff Hnd Hkeys Hcover.
  destruct (wff_reads statement Hwff) as (f & Hreads).
  rewrite <- (wff_findall statement Hwff) in Hreads.
  fold (tokenize statement) in Hreads.
  exists (sem (total_of truth_values) f).
  apply (evaluate_statement_reads statement f); try assumption.
  apply denote_sem. intros name Hin.
  destruct (reads_vars _ _ _ Hreads name Hin) as [Htok Hvar].
  now apply Hcover.
Qed.

(** ** The validity checker on formulas without a double negation *)

Lemma product_bool_complete (values : list bool) :
  In values (product_bool (length values)).
Proof.
  induction values as [|b values IH]; [now left|].
  cbn [length product_bool flat_map]. rewrite app_nil_r.
  apply in_or_app. destruct b; [left|right]; now apply in_map.
Qed.

Lemma product_bool_length n values :
  In values (product_bool n) -> length values = n.
Proof.
  revert values. induction n as [|n IH]; intros values.
  - intros [<-|[]]. reflexivity.
  - cbn [product_bool flat_map]. rewrite app_nil_r.
    intros H. apply in_app_or in H as [H|H];
      apply in_map_iff in H as (rest & <- & Hrest);
      simpl; now rewrite (IH rest Hrest).
Qed.

Lemma dict_foldl_is_Some pairs (d : gmap string bool) name :
  is_Some (foldl (fun d kv => <[kv.1 := kv.2]> d) d pairs !! name) <->
  In name (map fst pairs) \/ is_Some (d !! name).
Proof.
  revert d. induction pairs as [|[k v] pairs IH]; intros d; cbn [foldl map In].
  - tauto.
  - rewrite IH. cbn [fst snd]. rewrite lookup_insert_is_Some.
    destruct (decide (k = name)); intuition congruence.
Qed.

Lemma dict_foldl_total sigma names (d : gmap string bool) name :
  In name names ->
  foldl (fun d kv => <[kv.1 := kv.2]> d) d (zip names (map sigma names)) !! name
  = Some (sigma name).
Proof.
  revert d. induction names as [|k names IH]; intros d; [easy|].
  cbn [map zip zip_with foldl fst snd].
  destruct (in_dec String.string_dec name names) as [Hin|Hout];
    [intros _; now apply IH|].
  intros [->|Hin]; [|contradiction].
  assert (Hkeep : forall pairs (d : gmap string bool) v,
             ~ In name (map fst pairs) -> d !! name = Some v ->
             foldl (fun d kv => <[kv.1 := kv.2]> d) d pairs !! name = Some v).
  { induction pairs as [|[k' v'] pairs IHp]; intros d' v Hnot Hd; [exact Hd|].
    cbn [foldl fst snd]. apply IHp; [cbn in Hnot; tauto|].
    rewrite lookup_insert_ne; [exact Hd|]. cbn in Hnot. intros ->. tauto. }
  apply Hkeep; [|apply lookup_insert_eq].
  intros Hin. apply Hout. clear -Hin.
  induction names as [|k names IH]; [easy|].
  cbn in Hin. destruct Hin as [->|Hin]; [now left|right; now apply IH].
Qed.

Lemma zip_fst_same_length (names : list string) (values : list bool) :
  length values = length names -> map fst (zip names values) = names.
Proof.
  revert values. induction names as [|k names IH]; intros [|v values]; try easy.
  cbn. intros [= H]. now rewrite (IH values H).
Qed.

(** The keys of each row of the truth table are the variables. *)
Lemma truth_table_keys variables truth_values name :
  In truth_values (generate_truth_table variables) ->
  is_Some (truth_values !! name) <-> In name variables.
Proof.
  unfold generate_truth_table. intros H.
  apply in_map_iff in H as (values & <- & Hvalues).
  apply product_bool_length in Hvalues.
  unfold dict. rewrite dict_foldl_is_Some, lookup_empty.
  rewrite (zip_fst_same_length _ _ Hvalues).
  split; [intros [H|[? H]]; [exact H|discriminate H]|now left].
Qed.

(** Every total assignment has its row in the truth table. *)
Lemma truth_table_complete variables sigma :
  exists truth_values,
    In truth_values (generate_truth_table variables) /\
    forall name, In name variables -> truth_values !! name = Some (sigma name).
Proof.
  exists (dict (zip variables (map sigma variables))). split.
  - unfold generate_truth_table. apply in_map_iff.
    exists (map sigma variables). split; [reflexivity|].
    rewrite <- (length_map sigma variables). apply product_bool_complete.
  - intros name Hin. now apply dict_foldl_total.
Qed.

Lemma In_insert_sorted x y l : In x (insert_sorted y l) <-> x = y \/ In x l.
Proof.
  induction l as [|z l IH]; cbn [insert_sorted In]; [intuition|].
  destruct (String.leb y z); cbn [In]; rewrite ?IH; intuition.
Qed.

Lemma In_sorted x l : In x (sorted l) <-> In x l.
Proof.
  unfold sorted. induction l as [|y l IH]; cbn [foldr In]; [tauto|].
  rewrite In_insert_sorted, IH. intuition.
Qed.

(** The variables of an argument are the variable tokens of its
    statements. *)
Lemma In_variables_of name statements :
  In name (variables_of statements) <->
  exists statement,
    In statement statements /\ In name (tokenize statement) /\
    fullmatch_variable name = true.
Proof.
  unfold variables_of.
  rewrite In_sorted, <- list_elem_of_In, elem_of_elements, elem_of_list_to_set,
    list_elem_of_In, in_flat_map.
  split; intros (statement & Hin & H); exists statement;
    rewrite filter_In in *; tauto.
Qed.

Lemma evaluate_statement_row statement f truth_values :
  reads_as statement f -> variable_keys truth_values ->
  covers truth_values [f] ->
  evaluate_statement statement truth_values =
  Ok (sem (total_of truth_values) f).
Proof.
  intros [Hreads Hnd] Hkeys Hcover.
  apply (evaluate_statement_reads statement f); try assumption.
  apply denote_sem. intros name Hin. apply (Hcover f name); [now left|exact Hin].
Qed.

Lemma all_premises_rows truth_values premises fs :
  Forall2 reads_as premises fs -> variable_keys truth_values ->
  covers truth_values fs ->
  all_premises truth_values premises =
  Ok (forallb (sem (total_of truth_values)) fs).
Proof.
  intros Hall Hkeys. induction Hall as [|p f premises fs Hp _ IH];
    intros Hcover; [reflexivity|].
  cbn [all_premises forallb].
  rewrite (evaluate_statement_row p f truth_values Hp Hkeys).
  2:{ intros f' name [<-|[]] Hin. apply (Hcover f name); [now left|exact Hin]. }
  cbn [bind]. destruct (sem (total_of truth_values) f); [|reflexivity].
  apply IH. intros f' name Hf' Hin. apply (Hcover f' name); [now right|exact Hin].
Qed.

Lemma check_rows_table premises fs conclusion g truth_table :
  Forall2 reads_as premises fs -> reads_as conclusion g ->
  (forall truth_values, In truth_values truth_table ->
     variable_keys truth_values /\ covers truth_values (g :: fs)) ->
  check_rows premises conclusion truth_table =
  Ok (forallb
        (fun truth_values =>
           negb (forallb (sem (total_of truth_values)) fs
                 && negb (sem (total_of truth_values) g)))
        truth_table).
Proof.
  intros Hall Hg. induction truth_table as [|tv table IH]; intros Hrows;
    [reflexivity|].
  destruct (Hrows tv) as [Hkeys Hcover]; [now left|].
  cbn [check_rows forallb].
  rewrite (all_premises_rows tv premises fs Hall Hkeys).
  2:{ intros f name Hf Hin. apply (Hcover f name); [now right|exact Hin]. }
  rewrite (evaluate_statement_row conclusion g tv Hg Hkeys).
  2:{ intros f name [<-|[]] Hin. apply (Hcover g name); [now left|exact Hin]. }
  cbn [bind].
  destruct (forallb (sem (total_of tv)) fs && negb (sem (total_of tv) g));
    [reflexivity|].
  apply IH. intros tv' Hin. apply Hrows. now right.
Qed.

Lemma Forall2_reads_In premises fs f :
  Forall2 reads_as premises fs -> In f fs ->
  exists p, In p premises /\ reads_as p f.
Proof.
  induction 1 as [|p f' premises fs Hp _ IH]; [easy|].
  intros [<-|Hin]; [exists p; split; [now left|exact Hp]|].
  destruct (IH Hin) as (p' & Hp' & Hreads). exists p'. split; [now right|exact Hreads].
Qed.

(** On statements that read as formulas by the precedence table and have no
    negation directly after a negation, [check_validity] returns a boolean,
    and it is [True] exactly when every total assignment that makes all
    premises true makes the conclusion true. *)
Theorem check_validity_reads premises fs conclusion g :
  Forall2 reads_as premises fs -> reads_as conclusion g ->
  exists valid,
    check_validity premises conclusion = Ok valid /\
    (valid = true <-> entails fs g).
Proof.
  intros Hall Hg. unfold check_validity.
  set (variables := variables_of (premises ++ [conclusion])).
  assert (Hvars : forall f name, In f (g :: fs) -> In name (formula_vars f) ->
                                 In name variables).
  { intros f name Hf Hin.
    assert (exists p, In p (premises ++ [conclusion]) /\ reads_as p f)
      as (p & Hp & [Hreads _]).
    { destruct Hf as [<-|Hf].
      - exists conclusion. split; [|exact Hg]. apply in_or_app. right. now left.
      - destruct (Forall2_reads_In _ _ _ Hall Hf) as (p & Hp & Hr).
        exists p. split; [|exact Hr]. apply in_or_app. now left. }
    apply In_variables_of. exists p.
    destruct (reads_vars _ _ _ Hreads name Hin) as [H1 H2]. tauto. }
  assert (Hrows : forall tv, In tv (generate_truth_table variables) ->
                             variable_keys tv /\ covers tv (g :: fs)).
  { intros tv Htv. split.
    - intros name Hsome. apply (truth_table_keys variables tv name Htv) in Hsome.
      apply In_variables_of in Hsome as (_ & _ & _ & H). exact H.
    - intros f name Hf Hin.
      apply (truth_table_keys variables tv name Htv). now apply (Hvars f). }
  rewrite (check_rows_table premises fs conclusion g _ Hall Hg Hrows).
  eexists. split; [reflexivity|].
  rewrite forallb_forall. split.
  - intros Htable sigma Hprem.
    destruct (truth_table_complete variables sigma) as (tv & Htv & Hsigma).
    specialize (Htable tv Htv).
    assert (Hagree : forall f, In f (g :: fs) ->
                               sem (total_of tv) f = sem sigma f).
    { intros f Hf. apply sem_ext. intros name Hin. unfold total_of.
      now rewrite (Hsigma name (Hvars f name Hf Hin)). }
    rewrite (Hagree g) in Htable by now left.
    assert (Hfs : forallb (sem (total_of tv)) fs = true).
    { apply forallb_forall. intros f Hf. rewrite (Hagree f) by now right.
      rewrite Forall_forall in Hprem. apply Hprem. now apply list_elem_of_In. }
    rewrite Hfs in Htable. now destruct (sem sigma g).
  - intros Hentails tv Htv.
    destruct (forallb (sem (total_of tv)) fs) eqn:Hfs; [|reflexivity].
    rewrite (Hentails (total_of tv)); [reflexivity|].
    apply Forall_forall. intros f Hf. rewrite forallb_forall in Hfs.
    apply Hfs. now apply list_elem_of_In.
Qed.

(** X2. On statements that read as formulas by the precedence table and have
    no negation directly after a negation: with premises that no assignment
    satisfies together, the argument is found valid. *)
Corollary check_validity_vacuous premises fs conclusion g :
  Forall2 reads_as premises fs -> reads_as conclusion g ->
  (forall sigma, ~ Forall (fun f => sem sigma f = true) fs) ->
  check_validity premises conclusion = Ok true.
Proof.
  intros Hall Hg Hunsat.
  destruct (check_validity_reads premises fs conclusion g Hall Hg)
    as (valid & -> & Hvalid).
  f_equal. apply Hvalid. intros sigma Hprem. now destruct (Hunsat sigma).
Qed.

(** X3. On such a conclusion and with no premise, the argument is found valid
    exactly when the conclusion is true under every assignment. *)
Corollary check_validity_tautology conclusion g :
  reads_as conclusion g ->
  exists valid,
    check_validity [] conclusion = Ok valid /\
    (valid = true <-> forall sigma, sem sigma g = true).
Proof.
  intros Hg.
  destruct (check_validity_reads [] [] conclusion g
              (Forall2_nil_2 _ _ reads_as) Hg)
    as (valid & Hcheck & Hvalid).
  exists valid. split; [exact Hcheck|]. rewrite Hvalid. unfold entails.
  split; [intros H sigma; apply H; constructor|intros H sigma _; apply H].
Qed.

(** X4. On premises and a conclusion that are formulas of the reference
    grammar without a negation directly after a negation, [check_validity]
    returns a boolean: each statement has a reading, and the verdict is [True]
    exactly when the readings of the premises entail the reading of the
    conclusion. *)
Theorem check_validity_wff premises conclusion :
  Forall (fun s => wff s /\ no_double_negation (tokenize s) = true)
    (premises ++ [conclusion]) ->
  exists fs g valid,
    Forall2 reads_as premises fs /\ reads_as conclusion g /\
    check_validity premises conclusion = Ok valid /\
    (valid = true <-> entails fs g).
Proof.
  intros Hall. apply Forall_app in Hall as [Hprem Hconcl].
  assert (Hread : forall s, wff s /\ no_double_negation (tokenize s) = true ->
                            exists f, reads_as s f).
  { intros s [Hwff Hnd]. destruct (wff_reads s Hwff) as (f & Hf).
    exists f. split; [|exact Hnd].
    unfold tokenize. now rewrite (wff_findall s Hwff). }
  assert (Hfs : exists fs, Forall2 reads_as premises fs).
  { clear Hconcl. induction Hprem as [|p premises Hp _ IH]; [now exists []|].
    destruct (Hread p Hp) as (f & Hf). destruct IH as (fs & Hfs).
    exists (f :: fs). now constructor. }
  destruct Hfs as (fs & Hfs).
  inversion Hconcl as [|? ? Hc _]; subst.
  destruct (Hread conclusion Hc) as (g & Hg).
  destruct (check_validity_reads premises fs conclusion g Hfs Hg)
    as (valid & Hcheck & Hvalid).
  now exists fs, g, valid.
Qed.

(** ** Sample readings *)

Lemma variable_keys_dict pairs :
  Forall (fun kv : string * bool => fullmatch_variable kv.1 = true) pairs ->
  variable_keys (dict pairs).
Proof.
  intros Hall token Hsome. unfold dict in Hsome.
  apply dict_foldl_is_Some in Hsome as [Hin|[? Hin]];
    [|rewrite lookup_empty in Hin; discriminate Hin].
  apply in_map_iff in Hin as (kv & <- & Hkv).
  rewrite Forall_forall in Hall. apply Hall. now apply list_elem_of_In.
Qed.

Lemma reads_modus_ponens :
  Forall2 reads_as ["A>B"; "A"] [Bin ">" (Var "A") (Var "B"); Var "A"] /\
  reads_as "B" (Var "B").
Proof.
  repeat constructor.
  apply (reads_binary 0 ">" ["A"] ["B"]); [reflexivity|level_le| |];
    now constructor.
Qed.

Lemma reads_mixed_levels :
  reads_as "A^B&C+D>E"
    (Bin ">"
       (Bin "^" (Var "A") (Bin "+" (Bin "&" (Var "B") (Var "C")) (Var "D")))
       (Var "E")).
Proof.
  split; [|reflexivity].
  apply (reads_binary 0 ">" ["A"; "^"; "B"; "&"; "C"; "+"; "D"] ["E"]);
    [reflexivity|level_le| |now constructor].
  apply (reads_binary _ "^" ["A"] ["B"; "&"; "C"; "+"; "D"]);
    [reflexivity|level_le|now constructor|].
  apply (reads_binary _ "+" ["B"; "&"; "C"] ["D"]);
    [reflexivity|level_le| |now constructor].
  apply (reads_binary _ "&" ["B"] ["C"]); [reflexivity|level_le| |];
    now constructor.
Qed.

Lemma reads_left_associated :
  reads_as "A=B=C" (Bin "=" (Bin "=" (Var "A") (Var "B")) (Var "C")).
Proof.
  split; [|reflexivity].
  apply (reads_binary 0 "=" ["A"; "="; "B"] ["C"]);
    [reflexivity|level_le| |now constructor].
  apply (reads_binary _ "=" ["A"] ["B"]); [reflexivity|level_le| |];
    now constructor.
Qed.

Lemma reads_double_negation name :
  fullmatch_variable name = true ->
  reads 0 ["~"; "~"; name] (Neg (Neg (Var name))).
Proof.
  intros Hname. apply reads_negation; [lia|]. apply reads_negation; [lia|].
  now constructor.
Qed.

Lemma reads_and_double_negation :
  reads 0 (tokenize "A&~~B") (Bin "&" (Var "A") (Neg (Neg (Var "B")))).
Proof.
  apply (reads_binary 0 "&" ["A"] ["~"; "~"; "B"]);
    [reflexivity|level_le|now constructor|].
  do 2 (apply reads_negation; [level_le|]). now constructor.
Qed.

Lemma reads_departing_tautology :
  reads 0 (tokenize "~(A&~~B)+A")
    (Bin "+" (Neg (Bin "&" (Var "A") (Neg (Neg (Var "B"))))) (Var "A")).
Proof.
  apply (reads_binary 0 "+" ["~"; "("; "A"; "&"; "~"; "~"; "B"; ")"] ["A"]);
    [reflexivity|level_le| |now constructor].
  apply reads_negation; [level_le|].
  apply (reads_group _ ["A"; "&"; "~"; "~"; "B"]).
  exact reads_and_double_negation.
Qed.

(** The evaluator and the validity checker at two of the samples. *)
Lemma evaluate_statement_reads_witness :
  evaluate_statement "A^B&C+D>E"
    (dict [("A", true); ("B", true); ("C", false); ("D", false); ("E", false)])
  = Ok false.
Proof.
  destruct reads_mixed_levels as [Hreads Hnd].
  apply (evaluate_statement_reads _ _ _ _ Hreads Hnd); [|reflexivity].
  apply variable_keys_dict. repeat constructor.
Defined.

Lemma check_validity_reads_witness :
  exists valid,
    check_validity ["A>B"; "A"] "B" = Ok valid /\
    (valid = true <->
     entails [Bin ">" (Var "A") (Var "B"); Var "A"] (Var "B")).
Proof.
  destruct reads_modus_ponens as [Hpremises Hconclusion].
  exact (check_validity_reads _ _ _ _ Hpremises Hconclusion).
Defined.

Lemma evaluate_statement_wff_witness :
  exists b,
    evaluate_statement "~(A+B)&C"
      (dict [("A", false); ("B", false); ("C", true)]) = Ok b.
Proof.
  apply evaluate_statement_wff.
  - apply (wff_binary "&" "~(A+B)" "C"); [reflexivity| |now apply wff_variable].
    apply wff_negation, (wff_group "A+B").
    apply (wff_binary "+" "A" "B"); [reflexivity| |]; now apply wff_variable.
  - reflexivity.
  - apply variable_keys_dict. repeat constructor.
  - intros name Hin Hvar. cbn in Hin.
    destruct Hin as [<-|[<-|[<-|[<-|[<-|[<-|[<-|[<-|[]]]]]]]]];
      try discriminate Hvar; now eexists.
Defined.

(** ** The double negation *)

Lemma wff_double_negation c :
  variable_char c = true -> wff (String "~" (String "~" (String c EmptyString))).
Proof. intros Hc. now do 2 apply wff_negation; apply wff_variable. Qed.

Lemma wff_and_double_negation : wff "A&~~B".
Proof.
  apply (wff_binary "&" "A" "~~B"); [reflexivity|now apply wff_variable|].
  now apply wff_double_negation.
Qed.

Lemma wff_departing_tautology : wff "~(A&~~B)+A".
Proof.
  apply (wff_binary "+" "~(A&~~B)" "A"); [reflexivity| |now apply wff_variable].
  apply wff_negation. apply (wff_group "A&~~B"). exact wff_and_double_negation.
Qed.

(** C2 (the code departs).  [~~A] is a formula of the reference grammar,
    [is_well_formed] accepts it, and it reads as not (not A), which has a value
    under every assignment of [A].  Yet [evaluate_statement] raises on it: the
    reorder phase pops the first negation to the output before the variable,
    and the value-stack phase then pops an empty stack. *)
Theorem evaluate_statement_double_negation_raises :
  wff "~~A" /\
  is_well_formed "~~A" = Ok true /\
  reads 0 (tokenize "~~A") (Neg (Neg (Var "A"))) /\
  (forall a, denote (dict [("A", a)]) (Neg (Neg (Var "A"))) = Some a) /\
  to_postfix "~~A" = Ok ["~"; "A"; "~"] /\
  (forall a, evaluate_statement "~~A" (dict [("A", a)]) = Raise IndexError).
Proof.
  split; [now apply wff_double_negation|].
  split; [reflexivity|].
  split; [now apply reads_double_negation|].
  split; [intros [|]; reflexivity|].
  split; [reflexivity|].
  intros a. reflexivity.
Qed.

(** C5 (the code departs).  The two sample formulas are evaluated as the
    precedence table groups them, under every assignment.  But the well-formed
    [A&~~B], which the table reads as A and (not (not B)), is reordered with
    the first negation popped before its operand, and comes out as (not A) and
    (not B): false where the table gives true. *)
Theorem precedence_grouping_departs_on_double_negation :
  (forall a b c d e,
     evaluate_statement "A^B&C+D>E"
       (dict [("A", a); ("B", b); ("C", c); ("D", d); ("E", e)]) =
     Ok (connective ">"
           (connective "^" a (connective "+" (connective "&" b c) d)) e)) /\
  (forall a b c,
     evaluate_statement "A=B=C" (dict [("A", a); ("B", b); ("C", c)]) =
     Ok (connective "=" (connective "=" a b) c)) /\
  wff "A&~~B" /\ is_well_formed "A&~~B" = Ok true /\
  reads 0 (tokenize "A&~~B") (Bin "&" (Var "A") (Neg (Neg (Var "B")))) /\
  denote (dict [("A", true); ("B", true)])
    (Bin "&" (Var "A") (Neg (Neg (Var "B")))) = Some true /\
  to_postfix "A&~~B" = Ok ["A"; "~"; "B"; "~"; "&"] /\
  evaluate_statement "A&~~B" (dict [("A", true); ("B", true)]) = Ok false.
Proof.
  split; [intros [|] [|] [|] [|] [|]; reflexivity|].
  split; [intros [|] [|] [|]; reflexivity|].
  split; [exact wff_and_double_negation|]. split; [reflexivity|].
  split; [exact reads_and_double_negation|].
  repeat split.
Qed.

(** C3 (the code departs).  Modus ponens is found valid.  But for the
    well-formed premise [A&~~B], read as A and (not (not B)), and the
    conclusion [A], every assignment that makes the premise true makes the
    conclusion true, and [check_validity] returns [False]: it evaluates the
    premise as (not A) and (not B).  For the premise [~~A], which entails [A],
    it raises. *)
Theorem check_validity_departs_on_double_negation :
  check_validity ["A>B"; "A"] "B" = Ok true /\
  (wff "A&~~B" /\ is_well_formed "A&~~B" = Ok true /\
   wff "A" /\ is_well_formed "A" = Ok true /\
   reads 0 (tokenize "A&~~B") (Bin "&" (Var "A") (Neg (Neg (Var "B")))) /\
   reads 0 (tokenize "A") (Var "A") /\
   entails [Bin "&" (Var "A") (Neg (Neg (Var "B")))] (Var "A") /\
   check_validity ["A&~~B"] "A" = Ok false) /\
  (wff "~~A" /\ is_well_formed "~~A" = Ok true /\
   reads 0 (tokenize "~~A") (Neg (Neg (Var "A"))) /\
   entails [Neg (Neg (Var "A"))] (Var "A") /\
   check_validity ["~~A"] "A" = Raise IndexError).
Proof.
  split; [reflexivity|]. split.
  - split; [exact wff_and_double_negation|]. split; [reflexivity|].
    split; [now apply wff_variable|]. split; [reflexivity|].
    split; [exact reads_and_double_negation|].
    split; [now constructor|]. split; [|reflexivity].
    intros sigma H. inversion H as [|? ? Hf _]; subst. cbn [sem] in *.
    now destruct (sigma "A").
  - split; [now apply wff_double_negation|]. split; [reflexivity|].
    split; [now apply reads_double_negation|]. split; [|reflexivity].
    intros sigma H. inversion H as [|? ? Hf _]; subst. cbn [sem] in *.
    now destruct (sigma "A").
Qed.

(** C6 (the code departs).  The two sample arguments are found valid.  But
    with the contradictory premises [A], [~A] and the well-formed conclusion
    [~~B], [check_validity] raises, since it evaluates the conclusion in
    every row; and with no premise it returns [False] for the well-formed
    [~(A&~~B)+A], which reads as a tautology. *)
Theorem check_validity_departs_on_vacuous_and_tautology :
  check_validity ["A"; "~A"] "B" = Ok true /\
  check_validity [] "A+~A" = Ok true /\
  (wff "~~B" /\ is_well_formed "~~B" = Ok true /\
   reads 0 (tokenize "~~B") (Neg (Neg (Var "B"))) /\
   entails [Var "A"; Neg (Var "A")] (Neg (Neg (Var "B"))) /\
   check_validity ["A"; "~A"] "~~B" = Raise IndexError) /\
  (wff "~(A&~~B)+A" /\ is_well_formed "~(A&~~B)+A" = Ok true /\
   reads 0 (tokenize "~(A&~~B)+A")
     (Bin "+" (Neg (Bin "&" (Var "A") (Neg (Neg (Var "B"))))) (Var "A")) /\
   entails [] (Bin "+" (Neg (Bin "&" (Var "A") (Neg (Neg (Var "B"))))) (Var "A")) /\
   check_validity [] "~(A&~~B)+A" = Ok false).
Proof.
  split; [reflexivity|]. split; [reflexivity|]. split.
  - split; [now apply wff_double_negation|]. split; [reflexivity|].
    split; [now apply reads_double_negation|]. split; [|reflexivity].
    intros sigma H. inversion H as [|? ? Ha H']; subst.
    inversion H' as [|? ? Hna _]; subst. cbn [sem] in *.
    rewrite Ha in Hna. discriminate Hna.
  - split; [exact wff_departing_tautology|]. split; [reflexivity|].
    split; [exact reads_departing_tautology|]. split; [|reflexivity].
    intros sigma _. cbn [sem]. now destruct (sigma "A"), (sigma "B").
Qed.

(** * Further properties of the code *)

(** ** The tokenizer *)

(** X5. The tokens of a concatenation are the tokens of its parts, in
    order. *)
Theorem tokenize_app s t : tokenize (s +:+ t) = tokenize s ++ tokenize t.
Proof. unfold tokenize. apply findall_valid_app. Qed.

Lemma join_tokenize s : join (tokenize s) = keep_valid s.
Proof.
  unfold tokenize. induction s as [|c s IH]; [reflexivity|].
  simpl. destruct (valid_char c); [|exact IH].
  now rewrite join_cons_char, IH.
Qed.

Lemma tokenize_keep_valid s : tokenize (keep_valid s) = tokenize s.
Proof.
  unfold tokenize. induction s as [|c s IH]; [reflexivity|].
  simpl. destruct (valid_char c) eqn:Hc; [|exact IH].
  simpl. now rewrite Hc, IH.
Qed.

(** X6. Joining the tokens gives the statement back without its unrecognised
    characters, and tokenizing that again gives the same tokens; the join is
    the statement itself exactly when every character is a token. *)
Theorem tokenize_join_round_trip s :
  join (tokenize s) = keep_valid s /\
  tokenize (join (tokenize s)) = tokenize s /\
  (join (tokenize s) = s <-> tokenize s = chars_tokens s).
Proof.
  split; [apply join_tokenize|]. split.
  - rewrite join_tokenize. apply tokenize_keep_valid.
  - split; [apply join_findall_exact|].
    intros H. rewrite H. apply join_chars_tokens.
Qed.

Lemma tokenize_valid s :
  Forall (fun t => exists c, t = String c EmptyString /\ valid_char c = true)
    (tokenize s).
Proof.
  unfold tokenize. induction s as [|c s IH]; [constructor|].
  simpl. destruct (valid_char c) eqn:Hc; [|exact IH].
  constructor; [now exists c|exact IH].
Qed.

Lemma findall_valid_length s : length (findall_valid s) <= String.length s.
Proof.
  induction s as [|c s IH]; [reflexivity|]. simpl.
  destruct (valid_char c); simpl; lia.
Qed.

(** X7. Every token is one recognised character, and there are as many
    tokens as recognised characters in the statement. *)
Theorem tokenize_tokens s :
  Forall (fun token =>
            exists c, token = String c EmptyString /\ valid_char c = true)
    (tokenize s) /\
  length (tokenize s) = count_chars valid_char s /\
  length (tokenize s) <= String.length s.
Proof.
  split; [apply tokenize_valid|]. split; [|apply findall_valid_length].
  unfold tokenize. induction s as [|c s IH]; [reflexivity|].
  simpl. destruct (valid_char c); simpl; lia.
Qed.

(** ** The truth table *)

Lemma product_bool_size n : length (product_bool n) = 2 ^ n.
Proof.
  induction n as [|n IH]; [reflexivity|].
  cbn [product_bool flat_map]. rewrite app_nil_r, length_app, !length_map, IH.
  rewrite Nat.pow_succ_r'. lia.
Qed.

(** X8. The table has one row for each of the 2^n combinations of values of
    n variables, and every row gives a value to each of the variables and to
    nothing else. *)
Theorem truth_table_shape variables :
  length (generate_truth_table variables) = 2 ^ length variables /\
  Forall (fun truth_values =>
            forall name, is_Some (truth_values !! name) <-> In name variables)
    (generate_truth_table variables).
Proof.
  split.
  - unfold generate_truth_table. now rewrite length_map, product_bool_size.
  - apply Forall_forall. intros tv Htv name.
    apply truth_table_keys. now apply list_elem_of_In.
Qed.

Lemma dict_foldl_keep pairs (d : gmap string bool) name :
  ~ In name (map fst pairs) ->
  foldl (fun d kv => <[kv.1 := kv.2]> d) d pairs !! name = d !! name.
Proof.
  revert d. induction pairs as [|[k v] pairs IH]; intros d Hout; [reflexivity|].
  cbn [foldl map In fst snd] in *. rewrite IH by tauto.
  apply lookup_insert_ne. tauto.
Qed.

Lemma dict_foldl_lookup names : forall values (d : gmap string bool) i k v,
  NoDup names -> names !! i = Some k -> values !! i = Some v ->
  foldl (fun d kv => <[kv.1 := kv.2]> d) d (zip names values) !! k = Some v.
Proof.
  induction names as [|n names IH]; intros values d i k v Hnd Hk Hv;
    [discriminate Hk|].
  destruct values as [|x values]; [discriminate Hv|].
  apply NoDup_cons in Hnd as [Hn Hnd].
  cbn [zip zip_with foldl fst snd]. destruct i as [|i].
  - injection Hk as ->. injection Hv as ->.
    rewrite dict_foldl_keep; [apply lookup_insert_eq|].
    intros Hin. apply Hn.
    apply in_map_iff in Hin as ([k' v'] & <- & Hin).
    apply list_elem_of_In, elem_of_zip_l in Hin. exact Hin.
  - now apply (IH values _ i).
Qed.

Lemma product_bool_NoDup n : NoDup (product_bool n).
Proof.
  induction n as [|n IH]; [apply NoDup_singleton|].
  cbn [product_bool flat_map]. rewrite app_nil_r.
  apply NoDup_app. split; [|split].
  - apply (NoDup_fmap_2 (cons true)), IH.
  - intros values H1 H2.
    apply list_elem_of_In, in_map_iff in H1 as (x & <- & _).
    apply list_elem_of_In, in_map_iff in H2 as (y & Hy & _). discriminate Hy.
  - apply (NoDup_fmap_2 (cons false)), IH.
Qed.

(** X9. When no variable is listed twice, the rows of the table are pairwise
    different and each assignment of the variables is the content of exactly
    one of them. *)
Theorem truth_table_exhaustive variables (sigma : string -> bool) :
  NoDup variables ->
  NoDup (generate_truth_table variables) /\
  exists truth_values,
    In truth_values (generate_truth_table variables) /\
    (forall name, In name variables ->
                  truth_values !! name = Some (sigma name)) /\
    (forall other,
       In other (generate_truth_table variables) ->
       (forall name, In name variables -> other !! name = Some (sigma name)) ->
       other = truth_values).
Proof.
  intros Hnd. split.
  - unfold generate_truth_table. apply NoDup_fmap_2_strong; [|apply product_bool_NoDup].
    intros xs ys Hxs Hys Heq.
    apply list_elem_of_In, product_bool_length in Hxs, Hys.
    apply list_eq. intros i.
    destruct (variables !! i) as [k|] eqn:Hk.
    + assert (Hi : i < length variables) by (apply lookup_lt_is_Some; eauto).
      destruct (lookup_lt_is_Some_2 xs i) as [x Hx]; [lia|].
      destruct (lookup_lt_is_Some_2 ys i) as [y Hy]; [lia|].
      pose proof (dict_foldl_lookup variables xs ∅ i k x Hnd Hk Hx) as H1.
      pose proof (dict_foldl_lookup variables ys ∅ i k y Hnd Hk Hy) as H2.
      fold (dict (zip variables xs)) in H1. fold (dict (zip variables ys)) in H2.
      rewrite Heq, H2 in H1. rewrite Hx, Hy. now rewrite H1.
    + apply lookup_ge_None in Hk.
      rewrite (lookup_ge_None_2 xs i), (lookup_ge_None_2 ys i) by lia. reflexivity.
  - destruct (truth_table_complete variables sigma) as (tv & Hin & Hval).
    exists tv. split; [exact Hin|]. split; [exact Hval|].
    intros other Hother Hsame. apply map_eq. intros name.
    destruct (in_dec String.string_dec name variables) as [Hname|Hname].
    + now rewrite Hsame, Hval.
    + pose proof (truth_table_keys variables other name Hother) as H1.
      pose proof (truth_table_keys variables tv name Hin) as H2.
      destruct (other !! name) eqn:E1; [exfalso; apply Hname, H1; eauto|].
      destruct (tv !! name) eqn:E2; [exfalso; apply Hname, H2; eauto|].
      reflexivity.
Qed.

Lemma truth_table_exhaustive_witness :
  NoDup (generate_truth_table ["A"; "B"]) /\
  exists truth_values,
    In truth_values (generate_truth_table ["A"; "B"]) /\
    (forall name, In name ["A"; "B"] ->
                  truth_values !! name = Some (str_eq name "A")) /\
    (forall other,
       In other (generate_truth_table ["A"; "B"]) ->
       (forall name, In name ["A"; "B"] ->
                     other !! name = Some (str_eq name "A")) ->
       other = truth_values).
Proof.
  apply (truth_table_exhaustive ["A"; "B"] (fun name => str_eq name "A")).
  apply NoDup_cons. split; [|apply NoDup_singleton].
  intros H. apply list_elem_of_In in H. destruct H as [H|[]]. discriminate H.
Defined.

(** ** The variables of an argument *)

Lemma leb_letters x y :
  fullmatch_variable x = true -> fullmatch_variable y = true ->
  String.leb x y = (code x <=? code y).
Proof.
  destruct x as [|a [|? ?]]; try discriminate.
  destruct y as [|b [|? ?]]; try discriminate. intros _ _.
  unfold String.leb, code. cbn [String.compare]. unfold Ascii.compare, nat_of_ascii.
  destruct (N.compare_spec (N_of_ascii a) (N_of_ascii b)) as [H|H|H];
    symmetry; [apply Nat.leb_le|apply Nat.leb_le|apply Nat.leb_gt]; lia.
Qed.

Lemma code_letter_inj x y :
  fullmatch_variable x = true -> fullmatch_variable y = true ->
  code x = code y -> x = y.
Proof.
  destruct x as [|a [|? ?]]; try discriminate.
  destruct y as [|b [|? ?]]; try discriminate. intros _ _. cbn [code].
  intros H. f_equal.
  rewrite <- (ascii_nat_embedding a), <- (ascii_nat_embedding b). now rewrite H.
Qed.

Lemma insert_sorted_before x l :
  fullmatch_variable x = true -> Forall (fun y => fullmatch_variable y = true) l ->
  ~ In x l -> StronglySorted before l ->
  StronglySorted before (insert_sorted x l).
Proof.
  intros Hx. induction l as [|y l IH]; intros Hl Hout Hs; cbn [insert_sorted].
  - repeat constructor.
  - apply Forall_cons in Hl as [Hy Hl].
    apply StronglySorted_inv in Hs as [Hs Hyl].
    rewrite (leb_letters x y Hx Hy).
    destruct (code x <=? code y) eqn:Hle.
    + apply Nat.leb_le in Hle.
      assert (Hlt : before x y).
      { unfold before. destruct (Nat.eq_dec (code x) (code y)) as [E|E]; [|lia].
        exfalso. apply Hout. left. symmetry. now apply code_letter_inj. }
      apply SSorted_cons; [apply SSorted_cons; assumption|].
      apply Forall_cons. split; [exact Hlt|].
      eapply Forall_impl; [exact Hyl|]. unfold before in *. intros z Hz; cbn in Hz. lia.
    + apply Nat.leb_gt in Hle.
      apply SSorted_cons.
      * apply IH; [exact Hl| |exact Hs]. intros Hin. apply Hout. now right.
      * apply Forall_forall. intros z Hz.
        apply list_elem_of_In, In_insert_sorted in Hz as [->|Hz]; [exact Hle|].
        rewrite Forall_forall in Hyl. apply Hyl. now apply list_elem_of_In.
Qed.

Lemma sorted_before l :
  Forall (fun y => fullmatch_variable y = true) l -> NoDup l ->
  StronglySorted before (sorted l).
Proof.
  unfold sorted. induction l as [|x l IH]; intros Hl Hnd; cbn [foldr];
    [constructor|].
  apply Forall_cons in Hl as [Hx Hl]. apply NoDup_cons in Hnd as [Hout Hnd].
  apply insert_sorted_before; [exact Hx| | |now apply IH].
  - apply Forall_forall. intros y Hy.
    apply list_elem_of_In in Hy. apply (proj1 (In_sorted y l)) in Hy.
    rewrite Forall_forall in Hl. apply Hl. now apply list_elem_of_In.
  - intros Hin. apply (proj1 (In_sorted x l)) in Hin. apply Hout.
    now apply list_elem_of_In.
Qed.

(** X10. The variables that [check_validity] collects are the variable tokens
    of the statements, each once, in alphabetical order. *)
Theorem variables_of_sorted all_statements :
  StronglySorted before (variables_of all_statements) /\
  NoDup (variables_of all_statements) /\
  forall name,
    In name (variables_of all_statements) <->
    fullmatch_variable name = true /\
    exists statement,
      In statement all_statements /\ In name (tokenize statement).
Proof.
  assert (Hs : StronglySorted before (variables_of all_statements)).
  { unfold variables_of. apply sorted_before; [|apply NoDup_elements].
    apply Forall_forall. intros y Hy.
    apply elem_of_elements, elem_of_list_to_set, list_elem_of_In, in_flat_map in Hy
      as (stmt & _ & Hy).
    now apply filter_In in Hy. }
  split; [exact Hs|]. split.
  - induction Hs as [|x l _ IH Hx]; [constructor|].
    apply NoDup_cons. split; [|exact IH].
    intros Hin. rewrite Forall_forall in Hx. specialize (Hx x Hin).
    unfold before in Hx. lia.
  - intros name. rewrite In_variables_of. split.
    + intros (stmt & H1 & H2 & H3). split; [exact H3|]. now exists stmt.
    + intros (H3 & stmt & H1 & H2). now exists stmt.
Qed.

(** ** The accepted statements, exactly *)

Lemma valid_char_cases c :
  valid_char c = true ->
  variable_char c = true \/ operator_char c = true \/
  c = "("%char \/ c = ")"%char \/ c = "~"%char.
Proof.
  destruct c as [[] [] [] [] [] [] [] []]; vm_compute; intros H;
    try discriminate H; tauto.
Qed.

Lemma prev_token_adjacent (done : list string) t todo :
  done <> [] ->
  adjacent (done ++ t :: todo) (prev_token (done ++ t :: todo) (length done)) t.
Proof.
  intros Hne. destruct (exists_last Hne) as (done' & x & ->).
  exists (length done'). rewrite length_app, Nat.add_1_r. cbn [length prev_token].
  rewrite <- app_assoc. cbn [app].
  rewrite list_lookup_middle by reflexivity. cbn [default]. split; [reflexivity|].
  change (done' ++ x :: t :: todo) with (done' ++ [x] ++ t :: todo).
  rewrite app_assoc. apply list_lookup_middle. rewrite length_app. simpl. lia.
Qed.

Lemma scan_of_rules tokens final :
  last tokens = Some final -> end_ok final ->
  Forall (fun t => exists c, t = String c EmptyString /\ valid_char c = true)
    tokens ->
  (forall x y,
     adjacent tokens x y ->
     ~ (fullmatch_variable x = true /\ fullmatch_variable y = true) /\
     ~ (fullmatch_operator x = true /\ fullmatch_operator y = true) /\
     ~ (x = "(" /\ fullmatch_operator y = true) /\
     ~ (x = "(" /\ y = ")") /\
     (x = ")" -> fullmatch_operator y = true \/ y = ")")) ->
  (forall i, tokens !! i = Some "~" -> negation_placed tokens i) ->
  forall todo done stack,
    tokens = done ++ todo ->
    balanced (length stack) todo = true ->
    scan tokens (enumerate_from (length done) todo) stack
      (prev_token tokens (length done)) = Ok true.
Proof.
  intros Hlast Hend Hvalid Hadj Hneg.
  induction todo as [|t todo IH]; intros done stack Htokens Hbal.
  - cbn [enumerate_from scan]. destruct stack; [reflexivity|discriminate Hbal].
  - rewrite scan_cons.
    assert (Hnext : forall stack',
               balanced (length stack') todo = true ->
               scan tokens (enumerate_from (length (done ++ [t])) todo) stack' t
               = Ok true).
    { intros stack' Hb.
      specialize (IH (done ++ [t]) stack').
      rewrite length_app, Nat.add_1_r in IH |- *.
      rewrite Htokens, prev_token_snoc in IH. rewrite Htokens at 1.
      apply IH; [now rewrite <- app_assoc|exact Hb]. }
    assert (Ht : exists c, t = String c EmptyString /\ valid_char c = true).
    { rewrite Forall_forall in Hvalid. apply Hvalid. rewrite Htokens.
      apply elem_of_app. right. left. }
    destruct Ht as (c & -> & Hc).
    set (last_token := prev_token tokens (length done)).
    assert (Hprev : done = [] /\ last_token = EmptyString \/
                    adjacent tokens last_token (String c EmptyString)).
    { destruct done as [|d done]; [left; now subst|right].
      subst last_token. rewrite Htokens. now apply prev_token_adjacent. }
    assert (Hhere : tokens !! length done = Some (String c EmptyString)).
    { rewrite Htokens. now apply list_lookup_middle. }
    destruct (valid_char_cases c Hc) as [Hv|[Ho|[-> | [-> | ->]]]].
    + rewrite scan_token_variable by exact Hv.
      assert (Hl : fullmatch_variable last_token = false).
      { destruct Hprev as [[_ ->]|Hp]; [reflexivity|].
        destruct (Hadj _ _ Hp) as (H1 & _).
        destruct (fullmatch_variable last_token); [|reflexivity].
        exfalso. apply H1. now split. }
      rewrite Hl. apply Hnext.
      cbn [balanced] in Hbal.
      destruct c as [[] [] [] [] [] [] [] []]; try discriminate Hv; exact Hbal.
    + rewrite scan_token_operator by exact Ho.
      assert (Hl : fullmatch_operator last_token || str_eq last_token "(" = false).
      { destruct Hprev as [[_ ->]|Hp]; [reflexivity|].
        destruct (Hadj _ _ Hp) as (_ & H2 & H3 & _).
        apply orb_false_iff. split.
        - destruct (fullmatch_operator last_token); [|reflexivity].
          exfalso. apply H2. now split.
        - apply str_eq_false. intros E. apply H3. now split. }
      rewrite Hl. apply Hnext.
      cbn [balanced] in Hbal.
      destruct c as [[] [] [] [] [] [] [] []]; try discriminate Ho; exact Hbal.
    + change (scan_token tokens (length done) "(" stack last_token)
        with (Next ("(" :: stack) : step (list string)).
      apply Hnext. exact Hbal.
    + assert (Hl : str_eq last_token "(" = false).
      { destruct Hprev as [[_ ->]|Hp]; [reflexivity|].
        destruct (Hadj _ _ Hp) as (_ & _ & _ & H4 & _).
        apply str_eq_false. intros E. apply H4. now split. }
      destruct stack as [|top stack]; [discriminate Hbal|].
      rewrite (scan_token_close _ _ _ _ _ Hl).
      change (balanced (length (top :: stack)) (")" :: todo))
        with (balanced (length stack) todo) in Hbal.
      rewrite Htokens at 1. rewrite lookup_after.
      destruct todo as [|next todo']; cbn [head]; [now apply Hnext|].
      assert (Hp : adjacent tokens ")" next).
      { exists (length done). split; [exact Hhere|].
        rewrite Htokens.
        change (done ++ ")" :: next :: todo') with (done ++ [")"] ++ next :: todo').
        rewrite app_assoc. apply list_lookup_middle.
        rewrite length_app. simpl. lia. }
      destruct (Hadj _ _ Hp) as (_ & _ & _ & _ & H5).
      assert (Hfollow : str_in next "&+>^=)" = true).
      { destruct (H5 eq_refl) as [H | ->]; [|reflexivity].
        apply fullmatch_operator_cases in H.
        destruct H as [-> | [-> | [-> | [-> | ->]]]]; reflexivity. }
      rewrite Hfollow. cbn [negb]. now apply Hnext.
    + assert (Hlen : length done + 1 < length tokens).
      { destruct todo as [|next todo'].
        - exfalso. rewrite Htokens, last_snoc in Hlast. injection Hlast as <-.
          destruct Hend as [H|H]; discriminate H.
        - rewrite Htokens, length_app. simpl. lia. }
      destruct (lookup_lt_is_Some_2 _ _ Hlen) as [next Hnx].
      rewrite (scan_token_negation _ _ _ _ next Hnx).
      pose proof (proj1 (negation_placedb tokens (length done) next Hnx)
                    (Hneg _ Hhere)) as Hp.
      fold last_token in Hp. rewrite Hp. now apply Hnext.
Qed.

Lemma is_well_formed_unfold statement :
  is_well_formed statement = Ok true <->
  join (tokenize statement) = statement /\
  exists first final,
    head (tokenize statement) = Some first /\
    last (tokenize statement) = Some final /\
    fullmatch_variable first || str_in_tuple first ["("; "~"] = true /\
    fullmatch_variable final || str_eq final ")" = true /\
    scan (tokenize statement) (enumerate (tokenize statement)) [] EmptyString
    = Ok true.
Proof.
  unfold is_well_formed. fold (tokenize statement).
  set (tokens := tokenize statement).
  unfold index, index_last. rewrite <- head_lookup.
  split.
  - destruct (negb (str_eq (join tokens) statement)) eqn:Hjoin; [discriminate|].
    apply negb_false_iff, str_eq_true in Hjoin.
    destruct (length tokens <? 1); [discriminate|]. cbn [orb].
    destruct (head tokens) as [first|]; [|discriminate]. cbn [bind].
    destruct (fullmatch_variable first || str_in_tuple first ["("; "~"])
      eqn:Hfirst; [|discriminate]. cbn [negb].
    destruct (last tokens) as [final|]; [|discriminate]. cbn [bind].
    destruct (fullmatch_variable final || str_eq final ")") eqn:Hfinal;
      [|discriminate].
    cbn [negb]. intros Hscan. split; [exact Hjoin|].
    exists first, final. do 2 (split; [reflexivity|]).
    split; [exact Hfirst|]. split; [exact Hfinal|exact Hscan].
  - intros (Hjoin & first & final & Hhead & Hlast & Hfirst & Hfinal & Hscan).
    rewrite Hjoin, str_eq_refl. cbn [negb orb].
    destruct tokens as [|t tokens']; [discriminate Hhead|].
    cbn [length Nat.ltb Nat.leb]. rewrite Hhead. cbn [bind].
    rewrite Hfirst. cbn [negb]. rewrite Hlast. cbn [bind].
    rewrite Hfinal. cbn [negb]. exact Hscan.
Qed.

(** X11. [is_well_formed] accepts exactly the statements that consist of
    tokens only and whose token list obeys the rules of the scan: balanced
    parentheses; a variable, an open paren or a negation first; a variable or
    a close paren last; no variable directly after a variable; no binary
    operator directly after a binary operator or an open paren; no close paren
    directly after an open paren; after a close paren a binary operator or a
    close paren only; every negation at the start, after a binary operator,
    an open paren or a negation, or before an open paren.  Every other
    statement is rejected. *)
Theorem is_well_formed_exact statement :
  (is_well_formed statement = Ok true <->
   tokenize statement = chars_tokens statement /\
   scan_rules (tokenize statement)) /\
  (is_well_formed statement = Ok false <->
   ~ (tokenize statement = chars_tokens statement /\
      scan_rules (tokenize statement))).
Proof.
  assert (Hiff : is_well_formed statement = Ok true <->
                 tokenize statement = chars_tokens statement /\
                 scan_rules (tokenize statement)).
  { split.
    - intros Hwf. pose proof Hwf as Hu.
      apply is_well_formed_unfold in Hu
        as (Hjoin & first & final & Hhead & Hlast & Hfirst & Hfinal & Hscan).
      split; [now apply join_findall_exact|].
      split; [exact (scan_balanced _ _ 0 [] EmptyString Hscan)|].
      split; [|split].
      + exists first, final. split; [exact Hhead|]. split; [exact Hlast|]. split.
        * apply orb_true_iff in Hfirst as [H|H]; [now left|right].
          unfold str_in_tuple in H. cbn [existsb] in H.
          rewrite !orb_true_iff, !str_eq_true in H.
          destruct H as [H|[H|H]]; [now left|now right|discriminate H].
        * apply orb_true_iff in Hfinal as [H|H]; [now left|right].
          now apply str_eq_true.
      + intros x y. now apply accepted_adjacent.
      + intros i. now apply accepted_negation_placed.
    - intros (Htok & Hbal & (first & final & Hhead & Hlast & Hfirst & Hfinal)
              & Hadj & Hneg).
      apply is_well_formed_unfold. split.
      { rewrite Htok. apply join_chars_tokens. }
      exists first, final. split; [exact Hhead|]. split; [exact Hlast|]. split.
      { destruct Hfirst as [Hf|[-> | ->]]; [now rewrite Hf|reflexivity..]. }
      split.
      { destruct Hfinal as [Hf| ->]; [now rewrite Hf|reflexivity]. }
      apply (scan_of_rules (tokenize statement) final Hlast Hfinal)
        with (done := []) (stack := []); try assumption; try reflexivity.
      apply tokenize_valid. }
  split; [exact Hiff|].
  destruct (is_well_formed_returns statement) as [[|] Hb]; rewrite Hb.
  - split; [discriminate|]. intros Hn. exfalso. apply Hn, Hiff, Hb.
  - split; [|reflexivity]. intros _ H. apply Hiff in H. rewrite Hb in H.
    discriminate H.
Qed.

(** ** The reordering loop of [evaluate_statement] on arbitrary statements *)

Lemma stackable_precedence token :
  stackable token ->
  exists p, precedence_of token = Ok p /\
            (token = "(" -> p = (-1)%Z) /\ (token <> "(" -> (0 <= p)%Z).
Proof.
  intros [->|[H| ->]].
  - exists (-1)%Z. split; [reflexivity|]. split; [reflexivity|congruence].
  - exists (level token). split; [now apply precedence_operator|].
    split; [|intros _; apply level_range].
    intros ->. discriminate H.
  - exists 3%Z. split; [reflexivity|]. split; [discriminate|lia].
Qed.

Lemma pop_higher_spec token :
  stackable token -> token <> "(" ->
  forall operators output,
    Forall stackable operators ->
    exists popped rest,
      operators = popped ++ rest /\
      pop_higher token output operators = Ok (output ++ popped, rest) /\
      Forall (fun t => t <> "(") popped.
Proof.
  intros Htoken Hne.
  destruct (stackable_precedence token Htoken) as (p & Hp & _ & Hpos).
  specialize (Hpos Hne).
  induction operators as [|top operators IH]; intros output Hall.
  - exists [], []. cbn [pop_higher]. rewrite (app_nil_r output).
    split; [reflexivity|]. split; [reflexivity|constructor].
  - apply Forall_cons in Hall as [Htop Hall].
    destruct (stackable_precedence top Htop) as (q & Hq & Hopen & _).
    cbn [pop_higher]. rewrite Hq, Hp. cbn [bind].
    destruct (q >=? p)%Z eqn:Hge.
    + destruct (IH (output ++ [top]) Hall) as (popped & rest & -> & Heq & Hno).
      exists (top :: popped), rest. split; [reflexivity|]. split.
      * rewrite Heq, <- app_assoc. reflexivity.
      * apply Forall_cons. split; [|exact Hno].
        intros ->. specialize (Hopen eq_refl). lia.
    + exists [], (top :: operators). rewrite (app_nil_r output).
      split; [reflexivity|]. split; [reflexivity|constructor].
Qed.

Lemma pop_to_paren_spec operators : forall output,
  exists popped rest,
    operators = popped ++ rest /\
    pop_to_paren output operators = (output ++ popped, rest) /\
    Forall (fun t => t <> "(") popped /\
    (rest = [] \/ exists rest', rest = "(" :: rest').
Proof.
  induction operators as [|top operators IH]; intros output.
  - exists [], []. cbn [pop_to_paren]. rewrite (app_nil_r output).
    split; [reflexivity|]. split; [reflexivity|]. split; [constructor|now left].
  - cbn [pop_to_paren]. destruct (str_eq top "(") eqn:Htop; cbn [negb].
    + apply str_eq_true in Htop as ->.
      exists [], ("(" :: operators). rewrite (app_nil_r output).
      split; [reflexivity|]. split; [reflexivity|]. split; [constructor|].
      right. now exists operators.
    + apply str_eq_false in Htop.
      destruct (IH (output ++ [top])) as (popped & rest & -> & Heq & Hno & Hrest).
      exists (top :: popped), rest. split; [reflexivity|]. split.
      * rewrite Heq, <- app_assoc. reflexivity.
      * split; [|exact Hrest]. apply Forall_cons. now split.
Qed.

Lemma opens_app l1 l2 : opens (l1 ++ l2) = opens l1 + opens l2.
Proof. unfold opens. now rewrite List.filter_app, length_app. Qed.

Lemma opens_none popped : Forall (fun t => t <> "(") popped -> opens popped = 0.
Proof.
  unfold opens. induction 1 as [|t l Ht _ IH]; [reflexivity|].
  cbn [List.filter]. apply str_eq_false in Ht. now rewrite Ht.
Qed.

Lemma symbol_none popped :
  Forall stackable popped -> Forall (fun t => t <> "(") popped ->
  List.filter symbol popped = popped.
Proof.
  induction 1 as [|t l Ht _ IH]; intros Hno; [reflexivity|].
  apply Forall_cons in Hno as [Hne Hno]. cbn [List.filter].
  rewrite (IH Hno).
  destruct Ht as [->|[H| ->]]; [congruence| |reflexivity].
  apply fullmatch_operator_cases in H.
  destruct H as [-> | [-> | [-> | [-> | ->]]]]; reflexivity.
Qed.

Lemma variable_none operators :
  Forall stackable operators -> List.filter fullmatch_variable operators = [].
Proof.
  induction 1 as [|t l Ht _ IH]; [reflexivity|]. cbn [List.filter]. rewrite IH.
  destruct Ht as [->|[H| ->]]; [reflexivity| |reflexivity].
  now rewrite (fullmatch_operator_not_variable t H).
Qed.

(** One token of the reordering loop. *)
Lemma reorder_token_spec c output operators :
  valid_char c = true -> Forall stackable operators ->
  let token := String c EmptyString in
  match reorder_token token output operators with
  | Ok (output', operators') =>
      Forall stackable operators' /\
      (if str_eq token ")" then opens operators = S (opens operators')
       else if str_eq token "(" then opens operators' = S (opens operators)
       else opens operators' = opens operators) /\
      List.filter fullmatch_variable output' =
        List.filter fullmatch_variable (output ++ [token]) /\
      List.filter symbol (output' ++ operators') ≡ₚ
        List.filter symbol (output ++ operators) ++ List.filter symbol [token] /\
      (forall t, In t (output' ++ operators') ->
                 In t (output ++ operators) \/ t = token)
  | Raise e => e = IndexError /\ token = ")" /\ opens operators = 0
  end.
Proof.
  intros Hc Hall token. subst token.
  destruct (valid_char_cases c Hc) as [Hv|[Ho|[-> | [-> | ->]]]].
  - rewrite reorder_token_variable by exact Hv.
    split; [exact Hall|]. split.
    { destruct c as [[] [] [] [] [] [] [] []]; try discriminate Hv; reflexivity. }
    split; [reflexivity|]. split.
    + rewrite !List.filter_app.
      rewrite <- !app_assoc. apply Permutation_app_head, Permutation_app_comm.
    + intros t Hin. rewrite !in_app_iff in Hin. rewrite in_app_iff.
      cbn [In] in Hin. intuition.
  - assert (Hst : stackable (String c EmptyString)) by (right; now left).
    assert (Hne : String c EmptyString <> "(") by (intros E; injection E as ->; discriminate Ho).
    rewrite reorder_token_operator by exact Ho.
    destruct (pop_higher_spec _ Hst Hne operators output Hall)
      as (popped & rest & -> & -> & Hno).
    cbn [bind]. apply Forall_app in Hall as [Hpop Hrest].
    split; [now apply Forall_cons|]. split.
    { destruct c as [[] [] [] [] [] [] [] []]; try discriminate Ho;
        cbn [str_eq String.eqb Ascii.eqb Bool.eqb]; unfold opens;
        cbn [List.filter str_eq String.eqb Ascii.eqb Bool.eqb];
        fold (opens rest); fold (opens (popped ++ rest));
        rewrite opens_app, (opens_none popped Hno); reflexivity. }
    split.
    { rewrite !List.filter_app. cbn [List.filter].
      rewrite (variable_none popped Hpop).
      replace (fullmatch_variable (String c EmptyString)) with false
        by (symmetry; apply (operator_not_variable c Ho)).
      now rewrite !app_nil_r. }
    split.
    + rewrite !List.filter_app. cbn [List.filter].
      replace (symbol (String c EmptyString)) with true.
      2:{ destruct c as [[] [] [] [] [] [] [] []]; try discriminate Ho; reflexivity. }
      rewrite <- !app_assoc. do 2 apply Permutation_app_head.
      apply Permutation_cons_append.
    + intros t Hin. rewrite !in_app_iff in *. cbn [In] in Hin. intuition.
  - change (reorder_token "(" output operators)
      with (Ok (output, "(" :: operators) : result (list string * list string)).
    split; [apply Forall_cons; split; [now left|exact Hall]|].
    split; [reflexivity|]. split.
    { rewrite List.filter_app. cbn [List.filter]. now rewrite app_nil_r. }
    split.
    + rewrite !List.filter_app. cbn [List.filter]. now rewrite app_nil_r.
    + intros t Hin. rewrite !in_app_iff in *. cbn [In] in Hin. intuition.
  - rewrite reorder_token_close.
    destruct (pop_to_paren_spec operators output)
      as (popped & rest & -> & -> & Hno & Hrest).
    apply Forall_app in Hall as [Hpop Hall].
    destruct Hrest as [->|(rest' & ->)]; cbn [pop bind].
    + split; [reflexivity|]. split; [reflexivity|].
      rewrite app_nil_r. now apply opens_none.
    + apply Forall_cons in Hall as [_ Hall].
      split; [exact Hall|]. split.
      { cbn [str_eq String.eqb Ascii.eqb Bool.eqb].
        rewrite opens_app, (opens_none popped Hno). reflexivity. }
      split.
      { rewrite !List.filter_app. cbn [List.filter].
        now rewrite (variable_none popped Hpop), !app_nil_r. }
      split.
      * rewrite !List.filter_app. cbn [List.filter]. rewrite !app_nil_r.
        change (symbol "(") with false. cbn iota. now rewrite <- app_assoc.
      * intros t Hin. rewrite !in_app_iff in *. cbn [In]. intuition.
  - assert (Hst : stackable "~") by (right; now right).
    rewrite reorder_token_negation.
    destruct (pop_higher_spec _ Hst ltac:(discriminate) operators output Hall)
      as (popped & rest & -> & -> & Hno).
    cbn [bind]. apply Forall_app in Hall as [Hpop Hrest].
    split; [now apply Forall_cons|]. split.
    { cbn [str_eq String.eqb Ascii.eqb Bool.eqb]. unfold opens.
      cbn [List.filter str_eq String.eqb Ascii.eqb Bool.eqb].
      fold (opens rest); fold (opens (popped ++ rest)).
      rewrite opens_app, (opens_none popped Hno); reflexivity. }
    split.
    { rewrite !List.filter_app. cbn [List.filter].
      now rewrite (variable_none popped Hpop), !app_nil_r. }
    split.
    + rewrite !List.filter_app. cbn [List.filter].
      rewrite <- !app_assoc. do 2 apply Permutation_app_head.
      apply Permutation_cons_append.
    + intros t Hin. rewrite !in_app_iff in *. cbn [In] in Hin. intuition.
Qed.

Lemma symbol_popped popped :
  Forall stackable popped -> Forall (fun t => t <> "(") popped ->
  Forall (fun t => symbol t = true) popped.
Proof.
  induction 1 as [|t l Ht _ IH]; intros Hno; constructor.
  - apply Forall_cons in Hno as [Hne _].
    destruct Ht as [->|[H| ->]]; [congruence| |reflexivity].
    apply fullmatch_operator_cases in H.
    destruct H as [-> | [-> | [-> | [-> | ->]]]]; reflexivity.
  - apply IH. now apply Forall_cons in Hno as [_ Hno].
Qed.

(** The loop appends variables and popped operators to [output], never a
    parenthesis. *)
Lemma reorder_token_output c output operators output' operators' :
  valid_char c = true -> Forall stackable operators ->
  reorder_token (String c EmptyString) output operators = Ok (output', operators') ->
  Forall (fun t => symbol t = true) output ->
  Forall (fun t => symbol t = true) output'.
Proof.
  intros Hc Hall Hstep Hout.
  destruct (valid_char_cases c Hc) as [Hv|[Ho|[-> | [-> | ->]]]].
  - rewrite reorder_token_variable in Hstep by exact Hv.
    injection Hstep as <- <-. apply Forall_app. split; [exact Hout|].
    constructor; [|constructor].
    destruct c as [[] [] [] [] [] [] [] []]; try discriminate Hv; reflexivity.
  - assert (Hst : stackable (String c EmptyString)) by (right; now left).
    assert (Hne : String c EmptyString <> "(")
      by (intros E; injection E as ->; discriminate Ho).
    rewrite reorder_token_operator in Hstep by exact Ho.
    destruct (pop_higher_spec _ Hst Hne operators output Hall)
      as (popped & rest & -> & Heq & Hno).
    rewrite Heq in Hstep. injection Hstep as <- <-.
    apply Forall_app in Hall as [Hpop _].
    apply Forall_app. split; [exact Hout|now apply symbol_popped].
  - injection Hstep as <- <-. exact Hout.
  - rewrite reorder_token_close in Hstep.
    destruct (pop_to_paren_spec operators output)
      as (popped & rest & -> & Heq & Hno & Hrest).
    rewrite Heq in Hstep. apply Forall_app in Hall as [Hpop _].
    destruct Hrest as [->|(rest' & ->)]; [discriminate Hstep|].
    injection Hstep as <- <-.
    apply Forall_app. split; [exact Hout|now apply symbol_popped].
  - assert (Hst : stackable "~") by (right; now right).
    rewrite reorder_token_negation in Hstep.
    destruct (pop_higher_spec _ Hst ltac:(discriminate) operators output Hall)
      as (popped & rest & -> & Heq & Hno).
    rewrite Heq in Hstep. injection Hstep as <- <-.
    apply Forall_app in Hall as [Hpop _].
    apply Forall_app. split; [exact Hout|now apply symbol_popped].
Qed.

(** The whole loop: it raises exactly at a close paren that has no open paren
    before it, and then [IndexError]; otherwise the variables keep their order
    in [output], and [output] and the operator stack together hold the symbols
    read so far. *)
Lemma reorder_loop_spec tokens :
  Forall (fun t => exists c, t = String c EmptyString /\ valid_char c = true)
    tokens ->
  forall output operators,
    Forall stackable operators ->
    match reorder_loop tokens output operators with
    | Ok (output', operators') =>
        closes_matched (opens operators) tokens = true /\
        balanced (opens operators) tokens = (opens operators' =? 0) /\
        Forall stackable operators' /\
        (Forall (fun t => symbol t = true) output ->
         Forall (fun t => symbol t = true) output') /\
        List.filter fullmatch_variable output' =
          List.filter fullmatch_variable (output ++ tokens) /\
        List.filter symbol (output' ++ operators') ≡ₚ
          List.filter symbol (output ++ operators) ++ List.filter symbol tokens /\
        (forall t, In t (output' ++ operators') ->
                   In t (output ++ operators) \/ In t tokens)
    | Raise e =>
        e = IndexError /\ closes_matched (opens operators) tokens = false
    end.
Proof.
  induction 1 as [|token tokens (c & -> & Hc) _ IH]; intros output operators Hall.
  - cbn [reorder_loop closes_matched balanced]. rewrite !app_nil_r.
    split; [reflexivity|]. split; [reflexivity|]. split; [exact Hall|].
    split; [auto|]. split; [reflexivity|]. split; [reflexivity|]. now left.
  - rewrite reorder_loop_cons.
    pose proof (reorder_token_spec c output operators Hc Hall) as Hstep.
    pose proof (reorder_token_output c output operators) as Hsym.
    cbn zeta in Hstep.
    destruct (reorder_token (String c EmptyString) output operators)
      as [[output1 operators1]|e]; cbn [bind].
    + destruct Hstep as (Hall1 & Hopens & Hvars & Hperm & Hin).
      specialize (Hsym output1 operators1 Hc Hall eq_refl).
      specialize (IH output1 operators1 Hall1).
      assert (Hdepth :
        closes_matched (opens operators) (String c EmptyString :: tokens) =
          closes_matched (opens operators1) tokens /\
        balanced (opens operators) (String c EmptyString :: tokens) =
          balanced (opens operators1) tokens).
      { cbn [closes_matched balanced].
        destruct (str_eq (String c EmptyString) ")") eqn:E1.
        - apply str_eq_true in E1. injection E1 as ->.
          change (str_eq ")" "(") with false. cbn iota. rewrite Hopens.
          split; reflexivity.
        - destruct (str_eq (String c EmptyString) "(") eqn:E2.
          + rewrite Hopens. split; reflexivity.
          + rewrite Hopens. split; reflexivity. }
      destruct Hdepth as [Hd1 Hd2]. rewrite Hd1, Hd2.
      destruct (reorder_loop tokens output1 operators1)
        as [[output' operators']|e].
      * destruct IH as (H1 & H2 & H3 & H4 & H5 & H6 & H7).
        split; [exact H1|]. split; [exact H2|]. split; [exact H3|].
        split; [auto|]. split.
        { rewrite H5, !List.filter_app, Hvars, List.filter_app.
          cbn [List.filter]. rewrite <- app_assoc.
          destruct (fullmatch_variable (String c EmptyString)); reflexivity. }
        split.
        { rewrite H6, Hperm. cbn [List.filter].
          rewrite <- app_assoc.
          destruct (symbol (String c EmptyString)); reflexivity. }
        intros t Ht. destruct (H7 t Ht) as [Ht'|Ht']; [|right; now right].
        destruct (Hin t Ht') as [Ht''| ->]; [now left|right; now left].
      * exact IH.
    + destruct Hstep as (-> & Hclose & Hzero).
      split; [reflexivity|]. injection Hclose as ->.
      cbn [closes_matched]. change (str_eq ")" "(") with false.
      change (str_eq ")" ")") with true. cbn iota. now rewrite Hzero.
Qed.

Lemma to_postfix_spec statement :
  match to_postfix statement with
  | Ok output =>
      closes_matched 0 (tokenize statement) = true /\
      (balanced 0 (tokenize statement) = true ->
       Forall (fun t => symbol t = true) output) /\
      List.filter fullmatch_variable output =
        List.filter fullmatch_variable (tokenize statement) /\
      List.filter symbol output ≡ₚ List.filter symbol (tokenize statement) /\
      (forall t, In t output -> In t (tokenize statement))
  | Raise e =>
      e = IndexError /\ closes_matched 0 (tokenize statement) = false
  end.
Proof.
  unfold to_postfix.
  pose proof (reorder_loop_spec (tokenize statement) (tokenize_valid statement)
                [] [] (Forall_nil_2 _)) as H.
  destruct (reorder_loop (tokenize statement) [] []) as [[output operators]|e];
    cbn [bind]; [|exact H].
  destruct H as (H1 & H2 & H3 & H4 & H5 & H6 & H7).
  rewrite drain_app. split; [exact H1|]. split.
  - intros Hbal. change (opens []) with 0 in H2. rewrite Hbal in H2.
    symmetry in H2. apply Nat.eqb_eq in H2.
    apply Forall_app. split; [apply H4; constructor|].
    apply symbol_popped; [exact H3|].
    apply Forall_forall. intros t Ht ->.
    apply list_elem_of_In, in_split in Ht as (l1 & l2 & ->).
    rewrite opens_app in H2. unfold opens at 2 in H2. simpl in H2. lia.
  - split; [|split].
    + rewrite List.filter_app, (variable_none operators H3), app_nil_r.
      exact H5.
    + exact H6.
    + intros t Ht. destruct (H7 t Ht) as [[]|Ht']. exact Ht'.
Qed.

(** X12. The reordering loop of [evaluate_statement] returns its postfix
    sequence exactly when no close paren of the statement comes without an
    open paren before it; otherwise [evaluate_statement] raises [IndexError],
    whatever the truth values. *)
Theorem reorder_raises_on_unmatched_close statement :
  ((exists output, to_postfix statement = Ok output) <->
   closes_matched 0 (tokenize statement) = true) /\
  (closes_matched 0 (tokenize statement) = false ->
   forall truth_values,
     evaluate_statement statement truth_values = Raise IndexError).
Proof.
  pose proof (to_postfix_spec statement) as H. unfold evaluate_statement.
  destruct (to_postfix statement) as [output|e].
  - destruct H as (H & _). rewrite H. split; [|discriminate].
    split; [reflexivity|]. intros _. now exists output.
  - destruct H as (-> & H). rewrite H. split; [|reflexivity].
    split; [|discriminate]. intros (output & Hout). discriminate Hout.
Qed.

(** X13. The postfix sequence keeps the variables of the statement in their
    order and holds each variable, negation and binary operator of the
    statement as often as the statement does; when the parentheses are
    balanced it holds nothing else. *)
Theorem to_postfix_rearranges statement output :
  to_postfix statement = Ok output ->
  List.filter fullmatch_variable output =
    List.filter fullmatch_variable (tokenize statement) /\
  List.filter symbol output ≡ₚ List.filter symbol (tokenize statement) /\
  (balanced 0 (tokenize statement) = true ->
   output ≡ₚ List.filter symbol (tokenize statement)).
Proof.
  intros Hout. pose proof (to_postfix_spec statement) as H.
  rewrite Hout in H. destruct H as (_ & Hsym & Hvars & Hperm & _).
  split; [exact Hvars|]. split; [exact Hperm|].
  intros Hbal. rewrite <- Hperm.
  specialize (Hsym Hbal). clear -Hsym.
  induction Hsym as [|t l Ht _ IH]; [reflexivity|].
  cbn [List.filter]. rewrite Ht. now constructor.
Qed.

Lemma to_postfix_rearranges_witness :
  to_postfix "(A+B)&~C" = Ok ["A"; "B"; "+"; "C"; "~"; "&"] /\
  ["A"; "B"; "+"; "C"; "~"; "&"] ≡ₚ
    List.filter symbol (tokenize "(A+B)&~C").
Proof.
  split; [reflexivity|].
  apply (to_postfix_rearranges "(A+B)&~C"); reflexivity.
Defined.

(** ** The value stack of [eval_tokens] on arbitrary statements *)

Lemma pop_error {A} (stack : list A) e : pop stack = Raise e -> e = IndexError.
Proof. destruct stack; [intros H; now injection H|discriminate]. Qed.

Lemma eval_token_error truth_values token stack e :
  eval_token truth_values token stack = Raise e -> e = IndexError.
Proof.
  unfold eval_token. destruct (truth_values !! token); [discriminate|].
  destruct (str_eq token "~").
  { destruct stack; cbn [pop bind]; [intros H; now injection H|discriminate]. }
  destruct (str_in_tuple token ["&"; "+"; ">"; "^"; "="]); [|discriminate].
  destruct stack as [|b [|a stack]]; cbn [pop bind];
    [intros H; now injection H..|].
  repeat match goal with |- context [if ?c then _ else _] => destruct c end;
    discriminate.
Qed.

Lemma eval_loop_error truth_values tokens : forall stack e,
  eval_loop truth_values tokens stack = Raise e -> e = IndexError.
Proof.
  induction tokens as [|token tokens IH]; intros stack e; [discriminate|].
  cbn [eval_loop].
  destruct (eval_token truth_values token stack) as [stack'|e'] eqn:Hstep;
    cbn [bind].
  - apply IH.
  - intros H. injection H as <-. now apply eval_token_error in Hstep.
Qed.

Lemma evaluate_statement_error statement truth_values e :
  evaluate_statement statement truth_values = Raise e -> e = IndexError.
Proof.
  unfold evaluate_statement.
  pose proof (to_postfix_spec statement) as H.
  destruct (to_postfix statement) as [output|e']; cbn [bind].
  - unfold eval_tokens.
    destruct (eval_loop truth_values output []) as [stack|e'] eqn:Hloop;
      cbn [bind].
    + destruct stack; cbn [pop bind]; [|discriminate].
      intros E. now injection E.
    + apply eval_loop_error in Hloop as ->. intros E. now injection E.
  - destruct H as (-> & _). intros E. now injection E.
Qed.

(** X14. The only exception [evaluate_statement] raises is [IndexError], from
    a [pop] on an empty list: the lookups in the precedence table never fail,
    whatever the statement and the truth values. *)
Theorem evaluate_statement_no_KeyError statement truth_values :
  evaluate_statement statement truth_values <> Raise KeyError.
Proof.
  intros H. apply evaluate_statement_error in H. discriminate H.
Qed.

Lemma eval_loop_agree tv1 tv2 tokens :
  (forall t, In t tokens -> tv1 !! t = tv2 !! t) ->
  forall stack, eval_loop tv1 tokens stack = eval_loop tv2 tokens stack.
Proof.
  induction tokens as [|token tokens IH]; intros Hagree stack; [reflexivity|].
  cbn [eval_loop].
  assert (Hstep : eval_token tv1 token stack = eval_token tv2 token stack).
  { unfold eval_token. rewrite (Hagree token); [reflexivity|now left]. }
  rewrite Hstep. destruct (eval_token tv2 token stack); cbn [bind]; [|reflexivity].
  apply IH. intros t Ht. apply Hagree. now right.
Qed.

(** X15. The result of [evaluate_statement], value or exception, depends on
    the truth values of the tokens of the statement only. *)
Theorem evaluate_statement_agree statement tv1 tv2 :
  (forall t, In t (tokenize statement) -> tv1 !! t = tv2 !! t) ->
  evaluate_statement statement tv1 = evaluate_statement statement tv2.
Proof.
  intros Hagree. unfold evaluate_statement.
  pose proof (to_postfix_spec statement) as H.
  destruct (to_postfix statement) as [output|e]; cbn [bind]; [|reflexivity].
  destruct H as (_ & _ & _ & _ & Hin). unfold eval_tokens.
  rewrite (eval_loop_agree tv1 tv2 output); [reflexivity|].
  intros t Ht. apply Hagree, Hin, Ht.
Qed.

Lemma evaluate_statement_agree_witness :
  evaluate_statement "A>B" (dict [("A", true); ("B", false); ("C", true)]) =
  evaluate_statement "A>B" (dict [("A", true); ("B", false)]).
Proof.
  apply evaluate_statement_agree.
  intros t Ht. cbn in Ht. destruct Ht as [<-|[<-|[<-|[]]]]; reflexivity.
Defined.

(** ** A variable without a value *)

Lemma eval_loop_app truth_values l1 l2 stack :
  eval_loop truth_values (l1 ++ l2) stack =
  bind (eval_loop truth_values l1 stack) (eval_loop truth_values l2).
Proof.
  revert stack. induction l1 as [|t l1 IH]; intros stack; [reflexivity|].
  cbn [app eval_loop].
  destruct (eval_token truth_values t stack); cbn [bind]; [apply IH|reflexivity].
Qed.

Lemma eval_token_skip truth_values name stack :
  fullmatch_variable name = true -> truth_values !! name = None ->
  eval_token truth_values name stack = Ok stack.
Proof.
  intros Hname Hnone. unfold eval_token. rewrite Hnone.
  destruct name as [|c [|? ?]]; try discriminate Hname.
  destruct c as [[] [] [] [] [] [] [] []]; try discriminate Hname; reflexivity.
Qed.

(** The value-stack phase on the postfix form of a formula leaves at most one
    value more on the stack, and none more when a variable of the formula has
    no value. *)
Lemma eval_loop_height truth_values f :
  formula_ok f -> variable_keys truth_values ->
  forall stack stack',
    eval_loop truth_values (postfix f) stack = Ok stack' ->
    length stack' <= S (length stack) /\
    (denote truth_values f = None -> length stack' <= length stack).
Proof.
  intros Hok Hkeys. induction f as [name|f IH|op l IHl r IHr];
    intros stack stack'; cbn [postfix denote formula_ok] in *.
  - cbn [eval_loop]. destruct (truth_values !! name) as [v|] eqn:Hv.
    + unfold eval_token. rewrite Hv. cbn [bind]. intros H. injection H as <-.
      split; [simpl; lia|discriminate].
    + rewrite (eval_token_skip _ _ _ Hok Hv). cbn [bind].
      intros H. injection H as <-. split; [lia|intros _; lia].
  - rewrite eval_loop_app.
    destruct (eval_loop truth_values (postfix f) stack) as [stack1|]
      eqn:Hloop; [|discriminate]. cbn [bind eval_loop].
    destruct (IH Hok stack stack1 Hloop) as [H1 H2].
    unfold eval_token. rewrite (variable_keys_None _ "~" Hkeys eq_refl).
    change (str_eq "~" "~") with true. cbn iota.
    destruct stack1 as [|x stack1]; cbn [pop bind]; [discriminate|].
    intros H. injection H as <-. cbn [length] in *. split; [lia|].
    destruct (denote truth_values f); [discriminate|]. intros _. apply H2.
    reflexivity.
  - destruct Hok as (Hop & Hl & Hr).
    rewrite eval_loop_app.
    destruct (eval_loop truth_values (postfix l) stack) as [stack1|]
      eqn:Hloop1; [|discriminate]. cbn [bind].
    rewrite eval_loop_app.
    destruct (eval_loop truth_values (postfix r) stack1) as [stack2|]
      eqn:Hloop2; [|discriminate]. cbn [bind eval_loop].
    destruct (IHl Hl stack stack1 Hloop1) as [H1 H2].
    destruct (IHr Hr stack1 stack2 Hloop2) as [H3 H4].
    destruct stack2 as [|b [|a stack2]].
    + unfold eval_token.
      rewrite (variable_keys_None _ op Hkeys
                 (fullmatch_operator_not_variable op Hop)).
      apply fullmatch_operator_cases in Hop.
      destruct Hop as [-> | [-> | [-> | [-> | ->]]]]; discriminate.
    + unfold eval_token.
      rewrite (variable_keys_None _ op Hkeys
                 (fullmatch_operator_not_variable op Hop)).
      apply fullmatch_operator_cases in Hop.
      destruct Hop as [-> | [-> | [-> | [-> | ->]]]]; discriminate.
    + rewrite eval_token_binary.
      2:{ apply variable_keys_None; [exact Hkeys|].
          now apply fullmatch_operator_not_variable. }
      2:{ apply fullmatch_operator_cases in Hop. cbn [In]. intuition. }
      cbn [bind]. intros H. injection H as <-. cbn [length] in *.
      split; [lia|].
      destruct (denote truth_values l).
      * destruct (denote truth_values r); [discriminate|].
        intros _. specialize (H4 eq_refl). lia.
      * intros _. specialize (H2 eq_refl). lia.
Qed.

(** X16. On a statement that reads as the formula [f] by the precedence table
    and has no negation directly after a negation, with truth values whose
    keys are variable names: the postfix sequence is the postfix form of
    [f]; [evaluate_statement] returns the value of [f] when every variable of
    [f] has a value, and raises [IndexError] when one has none. *)
Theorem evaluate_statement_denote statement f truth_values :
  reads 0 (tokenize statement) f ->
  no_double_negation (tokenize statement) = true ->
  variable_keys truth_values ->
  to_postfix statement = Ok (postfix f) /\
  evaluate_statement statement truth_values =
    match denote truth_values f with
    | Some b => Ok b
    | None => Raise IndexError
    end.
Proof.
  intros Hreads Hnd Hkeys.
  assert (Hpost : to_postfix statement = Ok (postfix f)).
  { destruct (reorder_reads 0 _ f Hreads Hnd [] [] []) as
      (partial & pend & Heq & Hpost & _); [now left|].
    unfold to_postfix. rewrite app_nil_r in Heq. rewrite Heq.
    cbn [reorder_loop bind app]. now rewrite drain_app, app_nil_r, Hpost. }
  split; [exact Hpost|].
  unfold evaluate_statement. rewrite Hpost. cbn [bind]. unfold eval_tokens.
  pose proof (reads_formula_ok _ _ _ Hreads) as Hok.
  destruct (denote truth_values f) as [b|] eqn:Hden.
  - pose proof (eval_loop_postfix truth_values f Hok Hkeys b [] [] Hden) as H.
    rewrite app_nil_r in H. rewrite H. reflexivity.
  - destruct (eval_loop truth_values (postfix f) []) as [stack|e] eqn:Hloop;
      cbn [bind].
    + destruct (eval_loop_height truth_values f Hok Hkeys [] stack Hloop)
        as [_ H]. specialize (H Hden).
      destruct stack; [reflexivity|simpl in H; lia].
    + now apply eval_loop_error in Hloop as ->.
Qed.

(** ** Accepted statements in the evaluator *)

Lemma balanced_closes_matched tokens : forall depth,
  balanced depth tokens = true -> closes_matched depth tokens = true.
Proof.
  induction tokens as [|t tokens IH]; intros depth; [reflexivity|].
  cbn [balanced closes_matched].
  destruct (str_eq t "("); [apply IH|].
  destruct (str_eq t ")"); [|apply IH].
  destruct depth; [discriminate|apply IH].
Qed.

(** X17. On a statement that [is_well_formed] accepts, the reordering loop of
    [evaluate_statement] does not raise, and its postfix sequence is a
    rearrangement of the tokens of the statement without the parentheses: an
    exception on an accepted statement can only come from the value stack. *)
Theorem accepted_to_postfix statement :
  is_well_formed statement = Ok true ->
  exists output,
    to_postfix statement = Ok output /\
    output ≡ₚ List.filter symbol (tokenize statement) /\
    forall truth_values,
      evaluate_statement statement truth_values = eval_tokens truth_values output.
Proof.
  intros Hwf.
  apply is_well_formed_unfold in Hwf as (_ & _ & _ & _ & _ & _ & _ & Hscan).
  pose proof (scan_balanced _ _ 0 [] EmptyString Hscan) as Hbal.
  change (length (@nil string)) with 0 in Hbal.
  pose proof (to_postfix_spec statement) as H. unfold evaluate_statement.
  destruct (to_postfix statement) as [output|e].
  - destruct H as (_ & Hsym & _ & Hperm & _). exists output.
    split; [reflexivity|]. split; [|reflexivity].
    rewrite <- Hperm. specialize (Hsym Hbal). clear -Hsym.
    induction Hsym as [|t l Ht _ IH]; [reflexivity|].
    cbn [List.filter]. rewrite Ht. now constructor.
  - destruct H as (_ & H). apply balanced_closes_matched in Hbal.
    rewrite Hbal in H. discriminate H.
Qed.

Lemma accepted_to_postfix_witness :
  exists output,
    to_postfix "(A+)" = Ok output /\
    output ≡ₚ List.filter symbol (tokenize "(A+)") /\
    forall truth_values,
      evaluate_statement "(A+)" truth_values = eval_tokens truth_values output.
Proof. apply accepted_to_postfix. reflexivity. Defined.

(** ** The loop of [check_validity] on arbitrary statements *)

Lemma all_premises_true truth_values premises :
  all_premises truth_values premises = Ok true <->
  Forall (fun p => evaluate_statement p truth_values = Ok true) premises.
Proof.
  induction premises as [|p premises IH]; cbn [all_premises].
  - split; [constructor|reflexivity].
  - destruct (evaluate_statement p truth_values) as [[|]|e] eqn:Hp; cbn [bind].
    + rewrite IH. split; [now constructor|]. intros H. now inversion H.
    + split; [discriminate|]. intros H. inversion H; congruence.
    + split; [discriminate|]. intros H. inversion H; congruence.
Qed.

Lemma check_rows_false premises conclusion truth_table :
  check_rows premises conclusion truth_table = Ok false ->
  exists truth_values,
    In truth_values truth_table /\
    all_premises truth_values premises = Ok true /\
    evaluate_statement conclusion truth_values = Ok false.
Proof.
  induction truth_table as [|tv table IH]; [discriminate|].
  cbn [check_rows].
  destruct (all_premises tv premises) as [p|] eqn:Hp; [|discriminate].
  destruct (evaluate_statement conclusion tv) as [c|] eqn:Hc; [|discriminate].
  cbn [bind]. destruct p, c; cbn [andb negb].
  - intros H. destruct (IH H) as (tv' & Hin & H1 & H2).
    exists tv'. split; [now right|]. now split.
  - intros _. exists tv. split; [now left|]. now split.
  - intros H. destruct (IH H) as (tv' & Hin & H1 & H2).
    exists tv'. split; [now right|]. now split.
  - intros H. destruct (IH H) as (tv' & Hin & H1 & H2).
    exists tv'. split; [now right|]. now split.
Qed.

Lemma check_rows_true premises conclusion truth_table :
  check_rows premises conclusion truth_table = Ok true ->
  forall truth_values,
    In truth_values truth_table ->
    exists p c,
      all_premises truth_values premises = Ok p /\
      evaluate_statement conclusion truth_values = Ok c /\
      (p = true -> c = true).
Proof.
  induction truth_table as [|tv table IH]; [intros _ ? []|].
  cbn [check_rows].
  destruct (all_premises tv premises) as [p|] eqn:Hp; [|discriminate].
  destruct (evaluate_statement conclusion tv) as [c|] eqn:Hc; [|discriminate].
  cbn [bind].
  destruct (p && negb c) eqn:Hpc; [discriminate|].
  intros H tv' [<-|Hin]; [|now apply IH].
  exists p, c. split; [exact Hp|]. split; [exact Hc|].
  intros ->. destruct c; [reflexivity|discriminate Hpc].
Qed.

(** X18. A verdict [False] of [check_validity] comes with a row of the truth
    table on which every premise evaluates to [True] and the conclusion to
    [False]; a verdict [True] means that on every row the conclusion was
    evaluated, and to [True] wherever all premises evaluate to [True]. *)
Theorem check_validity_verdict premises conclusion :
  let truth_table :=
    generate_truth_table (variables_of (premises ++ [conclusion])) in
  (check_validity premises conclusion = Ok false ->
   exists truth_values,
     In truth_values truth_table /\
     Forall (fun p => evaluate_statement p truth_values = Ok true) premises /\
     evaluate_statement conclusion truth_values = Ok false) /\
  (check_validity premises conclusion = Ok true ->
   forall truth_values,
     In truth_values truth_table ->
     exists c,
       evaluate_statement conclusion truth_values = Ok c /\
       (Forall (fun p => evaluate_statement p truth_values = Ok true) premises ->
        c = true)).
Proof.
  unfold check_validity. cbv zeta. split.
  - intros H. apply check_rows_false in H as (tv & Hin & H1 & H2).
    exists tv. split; [exact Hin|]. split; [|exact H2].
    now apply all_premises_true.
  - intros H tv Hin.
    destruct (check_rows_true _ _ _ H tv Hin) as (p & c & H1 & H2 & H3).
    exists c. split; [exact H2|]. intros Hall.
    apply all_premises_true in Hall. rewrite Hall in H1. injection H1 as <-.
    now apply H3.
Qed.

(** ** Structural laws of [check_validity] *)

Lemma entails_Permutation fs fs' g :
  fs ≡ₚ fs' -> entails fs g -> entails fs' g.
Proof.
  intros Hperm H sigma Hall. apply H. now rewrite Hperm.
Qed.

(** X19. On statements that read as formulas by the precedence table and have
    no negation directly after a negation, the verdict of [check_validity]
    does not depend on the order of the premises. *)
Theorem check_validity_premise_order premises premises' fs conclusion g :
  Forall2 reads_as premises fs -> reads_as conclusion g ->
  premises ≡ₚ premises' ->
  check_validity premises' conclusion = check_validity premises conclusion.
Proof.
  intros Hall Hg Hperm.
  destruct (Permutation_Forall2 Hperm Hall) as (fs' & Hfs & Hall').
  destruct (check_validity_reads premises fs conclusion g Hall Hg)
    as (valid & -> & Hvalid).
  destruct (check_validity_reads premises' fs' conclusion g Hall' Hg)
    as (valid' & -> & Hvalid').
  assert (Hsame : valid' = true <-> valid = true).
  { rewrite Hvalid, Hvalid'. split; apply entails_Permutation;
      [now symmetry|exact Hfs]. }
  f_equal. destruct valid, valid'; try reflexivity.
  - apply Hsame. reflexivity.
  - symmetry. apply Hsame. reflexivity.
Qed.

Lemma check_validity_premise_order_witness :
  check_validity ["A"; "A>B"] "B" = check_validity ["A>B"; "A"] "B".
Proof.
  destruct reads_modus_ponens as [Hpremises Hconclusion].
  apply (check_validity_premise_order _ _ _ _ _ Hpremises Hconclusion).
  apply Permutation_swap.
Defined.

(** X20. On such statements, a conclusion that is one of the premises is
    found to follow, and an argument found valid stays valid when a premise
    is added. *)
Theorem check_validity_monotone premises fs conclusion g :
  Forall2 reads_as premises fs -> reads_as conclusion g ->
  (In conclusion premises -> check_validity premises conclusion = Ok true) /\
  (check_validity premises conclusion = Ok true ->
   forall p f, reads_as p f ->
               check_validity (p :: premises) conclusion = Ok true).
Proof.
  intros Hall Hg. split.
  - intros Hin.
    assert (exists f, In f fs /\ reads_as conclusion f) as (f & Hf & Hcf).
    { clear Hg. induction Hall as [|p f premises fs Hp _ IH]; [destruct Hin|].
      destruct Hin as [->|Hin]; [exists f; split; [now left|exact Hp]|].
      destruct (IH Hin) as (f' & H1 & H2). exists f'. split; [now right|exact H2]. }
    destruct (check_validity_reads premises fs conclusion f Hall Hcf)
      as (valid & -> & Hvalid).
    f_equal. apply Hvalid. intros sigma Hprem.
    rewrite Forall_forall in Hprem. apply Hprem. now apply list_elem_of_In.
  - intros Hvalid p f Hp.
    destruct (check_validity_reads premises fs conclusion g Hall Hg)
      as (valid & Hcheck & Hiff).
    rewrite Hvalid in Hcheck. injection Hcheck as <-.
    destruct (check_validity_reads (p :: premises) (f :: fs) conclusion g)
      as (valid' & -> & Hiff'); [now constructor|exact Hg|].
    f_equal. apply Hiff'. intros sigma Hprem.
    apply (proj1 Hiff eq_refl). now inversion Hprem.
Qed.

Lemma check_validity_monotone_witness :
  check_validity ["A>B"; "A"] "A" = Ok true /\
  (check_validity ["A>B"; "A"] "B" = Ok true ->
   forall p f, reads_as p f ->
               check_validity (p :: ["A>B"; "A"]) "B" = Ok true).
Proof.
  destruct reads_modus_ponens as [Hpremises Hconclusion].
  split.
  - refine (proj1 (check_validity_monotone _ _ "A" (Var "A") Hpremises _) _).
    + split; [now constructor|reflexivity].
    + right. now left.
  - exact (proj2 (check_validity_monotone _ _ _ _ Hpremises Hconclusion)).
Defined.

(** ** [check_user_argument] from end to end *)

Lemma all_premises_error truth_values premises e :
  all_premises truth_values premises = Raise e -> e = IndexError.
Proof.
  induction premises as [|p premises IH]; [discriminate|]. cbn [all_premises].
  destruct (evaluate_statement p truth_values) as [[|]|e'] eqn:Hp; cbn [bind];
    [exact IH|discriminate|].
  intros H. injection H as <-. now apply evaluate_statement_error in Hp.
Qed.

Lemma check_validity_error premises conclusion e :
  check_validity premises conclusion = Raise e -> e = IndexError.
Proof.
  unfold check_validity.
  induction (generate_truth_table (variables_of (premises ++ [conclusion])))
    as [|tv table IH]; [discriminate|].
  cbn [check_rows].
  destruct (all_premises tv premises) as [p|e'] eqn:Hp; cbn [bind].
  - destruct (evaluate_statement conclusion tv) as [c|e'] eqn:Hc; cbn [bind].
    + destruct (p && negb c); [discriminate|exact IH].
    + intros H. injection H as <-. now apply evaluate_statement_error in Hc.
  - intros H. injection H as <-. now apply all_premises_error in Hp.
Qed.

Lemma check_user_argument_accepted premises conclusion :
  Forall (fun p => is_well_formed p = Ok true) premises ->
  is_well_formed conclusion = Ok true ->
  check_user_argument premises conclusion =
  bind (check_validity premises conclusion)
    (fun argument_valid => Ok (argument_valid, verdict argument_valid)).
Proof.
  intros Hall Hconcl. unfold check_user_argument, check_user_argument_with.
  rewrite collect_diagnostics_lines. cbn [bind]. rewrite append_nil_l.
  apply filter_rejected_nil in Hall. rewrite Hall. cbn [map lines foldr str_truthy].
  now rewrite Hconcl.
Qed.

Lemma check_user_argument_raise_iff premises conclusion e :
  check_user_argument premises conclusion = Raise e <->
  Forall (fun p => is_well_formed p = Ok true) premises /\
  is_well_formed conclusion = Ok true /\
  check_validity premises conclusion = Raise e.
Proof.
  unfold check_user_argument, check_user_argument_with.
  rewrite collect_diagnostics_lines. cbn [bind]. rewrite append_nil_l.
  rewrite str_truthy_lines. rewrite <- filter_rejected_nil.
  destruct (List.filter rejected premises) as [|b bad].
  - destruct (is_well_formed_returns conclusion) as [[|] ->]; cbn [bind negb].
    + destruct (check_validity premises conclusion) as [v|e']; cbn [bind].
      * split; [discriminate|]. intros (_ & _ & H). discriminate H.
      * split; [intros H; now injection H as ->|].
        intros (_ & _ & H). now injection H as ->.
    + split; [discriminate|]. intros (_ & H & _). discriminate H.
  - split; [discriminate|]. intros (H & _). discriminate H.
Qed.

Lemma check_user_argument_error premises conclusion e :
  check_user_argument premises conclusion = Raise e -> e = IndexError.
Proof.
  intros H. apply check_user_argument_raise_iff in H as (_ & _ & H).
  now apply check_validity_error in H.
Qed.

(** X21. [check_user_argument] raises exactly when every premise and the
    conclusion are accepted by [is_well_formed] and [check_validity] raises;
    the exception is then that of [check_validity], an [IndexError]. *)
Theorem check_user_argument_raises premises conclusion e :
  (check_user_argument premises conclusion = Raise e <->
   Forall (fun p => is_well_formed p = Ok true) premises /\
   is_well_formed conclusion = Ok true /\
   check_validity premises conclusion = Raise e) /\
  (check_user_argument premises conclusion = Raise e -> e = IndexError).
Proof.
  split; [apply check_user_argument_raise_iff|apply check_user_argument_error].
Qed.

Lemma premise_diagnostic_head b tail :
  exists rest, premise_diagnostic b +:+ tail = String "P" rest.
Proof.
  unfold premise_diagnostic. rewrite !append_cons. eexists. reflexivity.
Qed.

(** X22. When [check_user_argument] returns, its flag is [True] exactly when
    its message is the verdict "The inputted argument is valid.", and exactly
    when all statements are accepted and [check_validity] returns [True]; the
    message is never empty. *)
Theorem check_user_argument_flag premises conclusion flag message :
  check_user_argument premises conclusion = Ok (flag, message) ->
  (flag = true <-> message = verdict true) /\
  (flag = true <->
   Forall (fun p => is_well_formed p = Ok true) premises /\
   is_well_formed conclusion = Ok true /\
   check_validity premises conclusion = Ok true) /\
  message <> EmptyString.
Proof.
  unfold check_user_argument, check_user_argument_with.
  rewrite collect_diagnostics_lines. cbn [bind]. rewrite append_nil_l.
  rewrite str_truthy_lines. rewrite <- filter_rejected_nil.
  destruct (List.filter rejected premises) as [|b bad].
  - destruct (is_well_formed_returns conclusion) as [[|] ->]; cbn [bind negb].
    + destruct (check_validity premises conclusion) as [v|e']; cbn [bind];
        [|discriminate].
      intros H. injection H as <- <-.
      split; [|split].
      * destruct v; split; try reflexivity; discriminate.
      * split; [intros ->; now repeat split|]. intros (_ & _ & H).
        now injection H.
      * destruct v; discriminate.
    + intros H. injection H as <- <-.
      split; [|split].
      * split; [discriminate|]. unfold conclusion_diagnostic.
        rewrite append_cons. discriminate.
      * split; [discriminate|]. intros (_ & H & _). discriminate H.
      * unfold conclusion_diagnostic. rewrite append_cons. discriminate.
  - intros H. injection H as <- <-.
    destruct (premise_diagnostic_head b (lines (map premise_diagnostic bad)))
      as (rest & ->).
    split; [|split].
    + split; discriminate.
    + split; [discriminate|]. intros (H & _). discriminate H.
    + discriminate.
Qed.

Lemma check_user_argument_flag_witness :
  (false = true <->
   premise_diagnostic "A+" = verdict true) /\
  (false = true <->
   Forall (fun p => is_well_formed p = Ok true) ["A+"; "B"] /\
   is_well_formed "C" = Ok true /\
   check_validity ["A+"; "B"] "C" = Ok true) /\
  premise_diagnostic "A+" <> EmptyString.
Proof.
  apply (check_user_argument_flag ["A+"; "B"] "C"). reflexivity.
Defined.

(** The example cell of the notebook, whose recorded output is "The inputted
    argument is not valid." *)
Example example_cell :
  check_user_argument ["(A>B)>(~A+B)"; "A"] "~A+B" = Ok (false, verdict false) /\
  verdict false = "The inputted argument is not valid.".
Proof. split; reflexivity. Qed.

Lemma wff_reads_as s :
  wff s -> no_double_negation (tokenize s) = true -> exists f, reads_as s f.
Proof.
  intros Hwff Hnd. destruct (wff_reads s Hwff) as (f & Hf).
  exists f. split; [|exact Hnd]. unfold tokenize. now rewrite (wff_findall s Hwff).
Qed.

(** X23. For premises and a conclusion that are formulas of the reference
    grammar without a negation directly after a negation,
    [check_user_argument] returns the verdict and its text, and the verdict
    is [True] exactly when the readings of the premises entail the reading of
    the conclusion. *)
Theorem check_user_argument_wff premises conclusion :
  Forall (fun s => wff s /\ no_double_negation (tokenize s) = true)
    (premises ++ [conclusion]) ->
  exists fs g valid,
    Forall2 reads_as premises fs /\ reads_as conclusion g /\
    check_user_argument premises conclusion = Ok (valid, verdict valid) /\
    (valid = true <-> entails fs g).
Proof.
  intros Hall. apply Forall_app in Hall as [Hprem Hconcl].
  assert (Hfs : exists fs, Forall2 reads_as premises fs).
  { induction Hprem as [|p premises [Hp Hnd] _ (fs & IH)]; [now exists []|].
    destruct (wff_reads_as p Hp Hnd) as (f & Hf). exists (f :: fs).
    now constructor. }
  destruct Hfs as (fs & Hfs).
  inversion Hconcl as [|? ? [Hc Hnd] _]; subst.
  destruct (wff_reads_as conclusion Hc Hnd) as (g & Hg).
  destruct (check_validity_reads premises fs conclusion g Hfs Hg)
    as (valid & Hcheck & Hvalid).
  exists fs, g, valid. split; [exact Hfs|]. split; [exact Hg|].
  split; [|exact Hvalid].
  unfold check_user_argument, check_user_argument_with.
  rewrite collect_diagnostics_lines. cbn [bind]. rewrite append_nil_l.
  assert (Hacc : List.filter rejected premises = []).
  { apply filter_rejected_nil. eapply Forall_impl; [exact Hprem|].
    intros p [Hp _]. now apply wff_accepted. }
  rewrite Hacc. cbn [map lines foldr str_truthy].
  rewrite (wff_accepted conclusion Hc). cbn [bind negb].
  rewrite Hcheck. reflexivity.
Qed.

Lemma wff_modus_ponens :
  Forall (fun s => wff s /\ no_double_negation (tokenize s) = true)
    (["A>B"; "A"] ++ ["B"]).
Proof.
  repeat constructor; try now apply wff_variable.
  apply (wff_binary ">" "A" "B"); [reflexivity| |]; now apply wff_variable.
Qed.

Lemma check_user_argument_wff_witness :
  exists fs g valid,
    Forall2 reads_as ["A>B"; "A"] fs /\ reads_as "B" g /\
    check_user_argument ["A>B"; "A"] "B" = Ok (valid, verdict valid) /\
    (valid = true <-> entails fs g).
Proof.
  apply check_user_argument_wff. exact wff_modus_ponens.
Defined.

Lemma check_validity_wff_witness :
  exists fs g valid,
    Forall2 reads_as ["A>B"; "A"] fs /\ reads_as "B" g /\
    check_validity ["A>B"; "A"] "B" = Ok valid /\
    (valid = true <-> entails fs g).
Proof.
  apply check_validity_wff. exact wff_modus_ponens.
Defined.

Lemma check_validity_vacuous_witness :
  check_validity ["A"; "~A"] "B" = Ok true.
Proof.
  apply (check_validity_vacuous ["A"; "~A"] [Var "A"; Neg (Var "A")] "B" (Var "B")).
  - repeat constructor. lia.
  - repeat constructor.
  - intros sigma H. inversion H as [|? ? H1 H2]; subst.
    inversion H2 as [|? ? H3 _]; subst. cbn [sem] in H1, H3.
    rewrite H1 in H3. discriminate H3.
Defined.

Lemma check_validity_tautology_witness :
  exists valid,
    check_validity [] "A+~A" = Ok valid /\
    (valid = true <->
     forall sigma, sem sigma (Bin "+" (Var "A") (Neg (Var "A"))) = true).
Proof.
  apply check_validity_tautology. split; [|reflexivity].
  apply (reads_binary 0 "+" ["A"] ["~"; "A"]);
    [reflexivity|level_le|now constructor|].
  apply reads_negation; [level_le|]. now constructor.
Defined.

Lemma evaluate_statement_denote_witness :
  to_postfix "A=B=C" = Ok ["A"; "B"; "="; "C"; "="] /\
  evaluate_statement "A=B=C" (dict [("A", true); ("B", false)]) =
    Raise IndexError.
Proof.
  destruct reads_left_associated as [Hreads Hnd].
  apply (evaluate_statement_denote "A=B=C" _
           (dict [("A", true); ("B", false)]) Hreads Hnd).
  apply variable_keys_dict. repeat constructor.
Defined.

(** ** The command line mode *)

Ltac io_step :=
  cbn [io_bind print input ret call halt_with negb].
Ltac io_run :=
  repeat progress
    (unfold io_bind, print, input, ret, call, halt_with; cbn beta iota;
     cbn [negb]).

Lemma premise_loop_command premises fuel in_str wfp ok lines log :
  command in_str = true ->
  premise_loop premises fuel in_str wfp ok lines log =
  Go (in_str, wfp, ok) lines log.
Proof.
  unfold command. intros H. destruct fuel; cbn [premise_loop]; now rewrite H.
Qed.

Lemma premise_loop_entry premises fuel in_str next wfp ok lines log :
  command in_str = false ->
  premise_loop premises (S fuel) in_str wfp ok (next :: lines) log =
  premise_loop premises fuel next
    (if rejected (strip in_str) then wfp else wfp ++ [strip in_str])
    (if rejected (strip in_str) then false else ok)
    lines (log ++ premise_events premises in_str).
Proof.
  unfold command. intros H. cbn [premise_loop]. rewrite H. cbn [negb].
  unfold premise_events, rejected.
  destruct (is_well_formed_returns (strip in_str)) as [[|] ->]; io_step;
    now rewrite <- app_assoc.
Qed.

(** The inner loop over a run of entries up to the next command. *)
Lemma premise_loop_entries premises entries : forall fuel in_str lines stop rest wfp ok log,
  in_str :: lines = entries ++ stop :: rest ->
  Forall (fun e => command e = false) entries ->
  command stop = true ->
  length entries <= fuel ->
  premise_loop premises fuel in_str wfp ok lines log =
  Go (stop,
      wfp ++ map strip (List.filter (fun e => negb (rejected (strip e))) entries),
      ok && forallb (fun e => negb (rejected (strip e))) entries)
    rest (log ++ flat_map (premise_events premises) entries).
Proof.
  induction entries as [|e entries IH];
    intros fuel in_str lines stop rest wfp ok log Heq Hall Hstop Hfuel.
  - injection Heq as -> ->. rewrite premise_loop_command by exact Hstop.
    cbn [List.filter map forallb flat_map]. now rewrite !app_nil_r, andb_true_r.
  - injection Heq as -> ->. apply Forall_cons in Hall as [He Hall].
    destruct fuel as [|fuel]; [simpl in Hfuel; lia|].
    destruct (entries ++ stop :: rest) as [|next lines] eqn:Hlines.
    { destruct entries; discriminate Hlines. }
    rewrite premise_loop_entry by exact He.
    rewrite (IH fuel next lines stop rest); try assumption;
      [|now rewrite Hlines|simpl in Hfuel; lia].
    cbn [List.filter forallb flat_map].
    destruct (rejected (strip e)); cbn [negb map andb].
    + rewrite andb_false_r. now rewrite <- app_assoc.
    + rewrite <- !app_assoc. reflexivity.
Qed.

Lemma accepted_entries entries :
  Forall (fun e => is_well_formed (strip e) = Ok true) entries ->
  List.filter (fun e => negb (rejected (strip e))) entries = entries /\
  forallb (fun e => negb (rejected (strip e))) entries = true.
Proof.
  induction 1 as [|e entries He _ [IH1 IH2]]; [now split|].
  cbn [List.filter forallb]. apply rejected_false in He. rewrite He.
  cbn [negb andb]. now rewrite IH1, IH2.
Qed.

Lemma command_exit in_str : str_eq in_str "exit" = true -> command in_str = true.
Proof. unfold command. cbn [str_in_tuple existsb]. now intros ->. Qed.

Lemma command_loop_end premises fuel lines log :
  command_loop premises fuel "exit" lines log = Go tt lines log.
Proof. destruct fuel; reflexivity. Qed.

(** One round of the outer loop on accepted entries: the premises, [done],
    the conclusion. *)
Lemma command_loop_round premises fuel in_str entries c rest log :
  str_eq in_str "exit" = false ->
  Forall (fun e => command e = false) entries ->
  Forall (fun e => is_well_formed (strip e) = Ok true) entries ->
  str_eq c "exit" = false ->
  is_well_formed (strip c) = Ok true ->
  length entries <= fuel ->
  command_loop premises (S fuel) in_str (entries ++ "done" :: c :: rest) log =
  match check_validity (map strip entries) (strip c) with
  | Ok valid =>
      command_loop premises fuel c rest
        (log ++ opening ++ flat_map (premise_events premises) entries ++
         [conclusion_prompt; Print ("***Your argument is valid***" +:+ newline);
          new_argument; closing])
  | Raise e =>
      Stop (Raised e)
        (log ++ opening ++ flat_map (premise_events premises) entries ++
         [conclusion_prompt])
  end.
Proof.
  intros Hin Hcmd Hacc Hc Hwf Hfuel.
  cbn [command_loop]. rewrite Hin. io_step.
  destruct (entries ++ "done" :: c :: rest) as [|first lines] eqn:Hlines.
  { destruct entries; discriminate Hlines. }
  io_step. unfold io_bind at 1.
  rewrite (premise_loop_entries premises entries fuel first lines "done"
             (c :: rest)); [|now rewrite Hlines|exact Hcmd|reflexivity|exact Hfuel].
  destruct (accepted_entries entries Hacc) as [-> ->].
  cbn [andb negb app]. change (str_eq "done" "exit") with false. io_step.
  io_run. rewrite Hc. cbn [negb]. rewrite Hwf. io_run. rewrite Hc. cbn [negb].
  rewrite (check_user_argument_accepted (map strip entries) (strip c));
    [|apply Forall_map; exact Hacc|exact Hwf].
  destruct (check_validity (map strip entries) (strip c)) as [valid|e];
    cbn [bind]; io_run.
  - f_equal. unfold opening, conclusion_prompt, new_argument, closing.
    rewrite <- !app_assoc. reflexivity.
  - f_equal. unfold opening, conclusion_prompt.
    rewrite <- !app_assoc. reflexivity.
Qed.

(** A round that begins with [exit]. *)
Lemma command_loop_exit premises fuel in_str rest log :
  str_eq in_str "exit" = false ->
  command_loop premises (S fuel) in_str ("exit" :: rest) log =
  Go tt rest (log ++ opening ++ [closing]).
Proof.
  intros Hin. cbn [command_loop]. rewrite Hin. cbn [negb]. io_run.
  rewrite premise_loop_command by reflexivity. cbn beta iota.
  change (str_eq "exit" "exit") with true. io_run.
  change (str_eq "exit" "exit") with true. io_run.
  rewrite command_loop_end. f_equal. unfold opening, closing. now rewrite <- !app_assoc.
Qed.

(** X24. A complete session: entries that are no commands and are accepted
    once stripped, then [done], an accepted conclusion and [exit].  The
    function returns after writing the line "***Your argument is valid***",
    whether [check_validity] finds the argument valid or not; when
    [check_validity] raises, the exception leaves the function right after
    the conclusion was read. *)
Theorem command_line_round premises entries c rest :
  Forall (fun e => e <> "exit" /\ e <> "done" /\
                   is_well_formed (strip e) = Ok true) entries ->
  c <> "exit" -> is_well_formed (strip c) = Ok true ->
  start_command_line_mode premises (entries ++ "done" :: c :: "exit" :: rest) =
  match check_validity (map strip entries) (strip c) with
  | Ok valid =>
      Go tt rest
        (banner ++ opening ++ flat_map (premise_events premises) entries ++
         [conclusion_prompt; Print ("***Your argument is valid***" +:+ newline);
          new_argument; closing] ++ opening ++ [closing])
  | Raise e =>
      Stop (Raised e)
        (banner ++ opening ++ flat_map (premise_events premises) entries ++
         [conclusion_prompt])
  end.
Proof.
  intros Hall Hc Hwf. unfold start_command_line_mode. io_step.
  assert (Hcmd : Forall (fun e => command e = false) entries).
  { eapply Forall_impl; [exact Hall|]. intros e (H1 & H2 & _).
    unfold command. cbn [str_in_tuple existsb].
    apply str_eq_false in H1, H2. now rewrite H1, H2. }
  assert (Hacc : Forall (fun e => is_well_formed (strip e) = Ok true) entries).
  { eapply Forall_impl; [exact Hall|]. now intros e (_ & _ & H). }
  apply str_eq_false in Hc.
  rewrite length_app. cbn [length].
  replace (S (length entries + S (S (S (length rest)))))
    with (S (S (length entries + S (S (length rest))))) by lia.
  rewrite command_loop_round; try assumption; [|reflexivity|lia].
  destruct (check_validity (map strip entries) (strip c)) as [valid|e];
    [|reflexivity].
  rewrite command_loop_exit by exact Hc.
  f_equal. unfold banner. cbn [app]. rewrite <- !app_assoc. reflexivity.
Qed.

Lemma command_line_round_witness :
  check_validity ["A"] "B" = Ok false /\
  start_command_line_mode ["(A>B)>(~A+B)"; "A"] [" A"; "done"; "B "; "exit"] =
  Go tt []
    (banner ++ opening ++
     [Print "Premise A is well formed."; Input "Enter premise #2:"] ++
     [conclusion_prompt; Print ("***Your argument is valid***" +:+ newline);
      new_argument; closing] ++ opening ++ [closing]).
Proof.
  split; [reflexivity|].
  apply (command_line_round ["(A>B)>(~A+B)"; "A"] [" A"] "B " []);
    [|discriminate|reflexivity].
  repeat constructor; discriminate.
Defined.

Lemma rejected_entries entries :
  Exists (fun e => is_well_formed (strip e) = Ok false) entries ->
  forallb (fun e => negb (rejected (strip e))) entries = false.
Proof.
  induction 1 as [e entries He|e entries _ IH]; cbn [forallb].
  - apply rejected_true in He. now rewrite He.
  - rewrite IH. apply andb_false_r.
Qed.

Lemma command_loop_leave premises fuel in_str entries stop rest log :
  str_eq in_str "exit" = false ->
  Forall (fun e => command e = false) entries ->
  command stop = true ->
  length entries <= fuel ->
  (Exists (fun e => is_well_formed (strip e) = Ok false) entries ->
   command_loop premises (S fuel) in_str (entries ++ stop :: rest) log =
   Go tt rest (log ++ opening ++ flat_map (premise_events premises) entries)) /\
  (Forall (fun e => is_well_formed (strip e) = Ok true) entries ->
   stop = "exit" ->
   command_loop premises (S fuel) in_str (entries ++ stop :: rest) log =
   Go tt rest
     (log ++ opening ++ flat_map (premise_events premises) entries ++ [closing])).
Proof.
  intros Hin Hcmd Hstop Hfuel.
  destruct (entries ++ stop :: rest) as [|first lines] eqn:Hlines.
  { destruct entries; discriminate Hlines. }
  split.
  - intros Hbad. cbn [command_loop]. rewrite Hin. io_run.
    rewrite (premise_loop_entries premises entries fuel first lines stop rest);
      [|now rewrite Hlines|exact Hcmd|exact Hstop|exact Hfuel].
    rewrite (rejected_entries entries Hbad). cbn [andb]. io_run.
    f_equal. unfold opening. now rewrite <- !app_assoc.
  - intros Hacc ->. cbn [command_loop]. rewrite Hin. io_run.
    rewrite (premise_loop_entries premises entries fuel first lines "exit" rest);
      [|now rewrite Hlines|exact Hcmd|exact Hstop|exact Hfuel].
    destruct (accepted_entries entries Hacc) as [-> ->]. cbn [andb]. io_run.
    change (str_eq "exit" "exit") with true. io_run.
    change (str_eq "exit" "exit") with true. io_run.
    rewrite command_loop_end. f_equal. unfold opening, closing. now rewrite <- !app_assoc.
Qed.

(** X25. Leaving at the premises.  After an entry that is not accepted, the
    next command, [done] as well as [exit], ends the function at once: no
    conclusion is asked for, nothing is checked, the closing line is not
    written and the lines that follow are not read.  With accepted entries
    only, [exit] ends the function after the closing line. *)
Theorem command_line_leaves premises entries stop rest :
  Forall (fun e => e <> "exit" /\ e <> "done") entries ->
  stop = "exit" \/ stop = "done" ->
  (Exists (fun e => is_well_formed (strip e) = Ok false) entries ->
   start_command_line_mode premises (entries ++ stop :: rest) =
   Go tt rest
     (banner ++ opening ++ flat_map (premise_events premises) entries)) /\
  (Forall (fun e => is_well_formed (strip e) = Ok true) entries ->
   stop = "exit" ->
   start_command_line_mode premises (entries ++ stop :: rest) =
   Go tt rest
     (banner ++ opening ++ flat_map (premise_events premises) entries ++
      [closing])).
Proof.
  intros Hall Hstop.
  assert (Hcmd : Forall (fun e => command e = false) entries).
  { eapply Forall_impl; [exact Hall|]. intros e (H1 & H2).
    unfold command. cbn [str_in_tuple existsb].
    apply str_eq_false in H1, H2. now rewrite H1, H2. }
  assert (Hstop' : command stop = true) by (destruct Hstop as [-> | ->]; reflexivity).
  unfold start_command_line_mode. io_run.
  rewrite length_app. cbn [length].
  destruct (command_loop_leave premises (length entries + S (length rest))
              EmptyString entries stop rest
              ([] ++ [Print "Starting ManipuLogic command line mode."] ++
               [Print usage]))
    as [H1 H2]; [reflexivity|exact Hcmd|exact Hstop'|lia|].
  split.
  - intros Hbad. cbn [app] in *. now rewrite H1.
  - intros Hacc Hexit. cbn [app] in *. now rewrite H2.
Qed.

Lemma command_line_leaves_witness :
  start_command_line_mode ["(A>B)>(~A+B)"; "A"]
    ["A"; "A~B"; "done"; "C"; "exit"] =
  Go tt ["C"; "exit"]
    (banner ++ opening ++
     [Print "Premise A is well formed."; Input "Enter premise #2:";
      Print "Premise A~B is not well formed.  Check your syntax and try again";
      Input "Enter premise #2:"]).
Proof.
  refine (proj1 (command_line_leaves ["(A>B)>(~A+B)"; "A"] ["A"; "A~B"] "done"
                   ["C"; "exit"] _ _) _).
  - repeat constructor; discriminate.
  - now right.
  - apply Exists_cons_tl, Exists_cons_hd. reflexivity.
Defined.

(** A round that ends at the conclusion. *)
Lemma command_loop_conclusion premises fuel in_str entries c rest log :
  str_eq in_str "exit" = false ->
  Forall (fun e => command e = false) entries ->
  Forall (fun e => is_well_formed (strip e) = Ok true) entries ->
  length entries <= fuel ->
  (c = "exit" ->
   command_loop premises (S fuel) in_str (entries ++ "done" :: c :: rest) log =
   Go tt rest
     (log ++ opening ++ flat_map (premise_events premises) entries ++
      [conclusion_prompt; closing])) /\
  (c <> "exit" -> is_well_formed (strip c) = Ok false ->
   command_loop premises (S fuel) in_str (entries ++ "done" :: c :: rest) log =
   Go tt rest
     (log ++ opening ++ flat_map (premise_events premises) entries ++
      [conclusion_prompt;
       Print ("Conclusion " +:+ strip c +:+
              " is not well formed.  Check your syntax and try again");
       closing])).
Proof.
  intros Hin Hcmd Hacc Hfuel.
  destruct (entries ++ "done" :: c :: rest) as [|first lines] eqn:Hlines.
  { destruct entries; discriminate Hlines. }
  assert (Hloop : forall log',
    premise_loop premises fuel first [] true lines log' =
    Go ("done", map strip entries, true) (c :: rest)
      (log' ++ flat_map (premise_events premises) entries)).
  { intros log'.
    rewrite (premise_loop_entries premises entries fuel first lines "done"
               (c :: rest)); [|now rewrite Hlines|exact Hcmd|reflexivity|exact Hfuel].
    now destruct (accepted_entries entries Hacc) as [-> ->]. }
  split.
  - intros ->. cbn [command_loop]. rewrite Hin. io_run. rewrite Hloop.
    change (str_eq "done" "exit") with false. io_run.
    change (str_eq "exit" "exit") with true. io_run.
    change (str_eq "exit" "exit") with true. io_run.
    rewrite command_loop_end. f_equal.
    unfold opening, conclusion_prompt, closing. now rewrite <- !app_assoc.
  - intros Hc Hbad. apply str_eq_false in Hc.
    cbn [command_loop]. rewrite Hin. io_run. rewrite Hloop.
    change (str_eq "done" "exit") with false. io_run.
    rewrite Hc. io_run. rewrite Hbad. io_run.
    change (str_eq "exit" "exit") with true. io_run.
    rewrite command_loop_end. f_equal.
    unfold opening, conclusion_prompt, closing. now rewrite <- !app_assoc.
Qed.

(** X26. Leaving at the conclusion.  After accepted premises and [done], the
    entry [exit] ends the function after the closing line; a conclusion that
    is not accepted is reported, and the function ends after the closing line
    as well.  In both cases nothing is checked and the lines that follow are
    not read. *)
Theorem command_line_conclusion premises entries c rest :
  Forall (fun e => e <> "exit" /\ e <> "done" /\
                   is_well_formed (strip e) = Ok true) entries ->
  (c = "exit" ->
   start_command_line_mode premises (entries ++ "done" :: c :: rest) =
   Go tt rest
     (banner ++ opening ++ flat_map (premise_events premises) entries ++
      [conclusion_prompt; closing])) /\
  (c <> "exit" -> is_well_formed (strip c) = Ok false ->
   start_command_line_mode premises (entries ++ "done" :: c :: rest) =
   Go tt rest
     (banner ++ opening ++ flat_map (premise_events premises) entries ++
      [conclusion_prompt;
       Print ("Conclusion " +:+ strip c +:+
              " is not well formed.  Check your syntax and try again");
       closing])).
Proof.
  intros Hall.
  assert (Hcmd : Forall (fun e => command e = false) entries).
  { eapply Forall_impl; [exact Hall|]. intros e (H1 & H2 & _).
    unfold command. cbn [str_in_tuple existsb].
    apply str_eq_false in H1, H2. now rewrite H1, H2. }
  assert (Hacc : Forall (fun e => is_well_formed (strip e) = Ok true) entries).
  { eapply Forall_impl; [exact Hall|]. now intros e (_ & _ & H). }
  unfold start_command_line_mode. io_run.
  rewrite length_app. cbn [length].
  destruct (command_loop_conclusion premises
              (length entries + S (S (length rest))) EmptyString entries c rest
              ([] ++ [Print "Starting ManipuLogic command line mode."] ++
               [Print usage]))
    as [H1 H2]; [reflexivity|exact Hcmd|exact Hacc|lia|].
  cbn [app] in *. split.
  - intros Hc. now rewrite H1.
  - intros Hc Hbad. now rewrite H2.
Qed.

Lemma command_line_conclusion_witness :
  start_command_line_mode ["(A>B)>(~A+B)"; "A"] ["A"; "done"; "A+"; "B"] =
  Go tt ["B"]
    (banner ++ opening ++
     [Print "Premise A is well formed."; Input "Enter premise #2:"] ++
     [conclusion_prompt;
      Print "Conclusion A+ is not well formed.  Check your syntax and try again";
      closing]).
Proof.
  refine (proj2 (command_line_conclusion ["(A>B)>(~A+B)"; "A"] ["A"] "A+" ["B"] _)
            _ _).
  - repeat constructor; discriminate.
  - discriminate.
  - reflexivity.
Defined.

(** The inner loop with more fuel than lines: it hands over no more lines
    than it got, or stops for want of a line. *)
Lemma premise_loop_ends premises lines : forall fuel in_str wfp ok log,
  length lines < fuel ->
  match premise_loop premises fuel in_str wfp ok lines log with
  | Go _ lines' _ => length lines' <= length lines
  | Stop h _ => h = Waiting
  end.
Proof.
  induction lines as [|next lines IH]; intros fuel in_str wfp ok log Hfuel.
  - destruct fuel as [|fuel]; [lia|]. cbn [premise_loop].
    destruct (str_in_tuple in_str ["exit"; "done"]); io_run; [reflexivity|].
    destruct (is_well_formed_returns (strip in_str)) as [[|] ->]; io_run;
      reflexivity.
  - destruct (command in_str) eqn:Hcmd.
    + now rewrite premise_loop_command.
    + destruct fuel as [|fuel]; [lia|].
      rewrite premise_loop_entry by exact Hcmd.
      specialize (IH fuel next
                    (if rejected (strip in_str) then wfp else wfp ++ [strip in_str])
                    (if rejected (strip in_str) then false else ok)
                    (log ++ premise_events premises in_str)).
      cbn [length] in *.
      destruct (premise_loop premises fuel next _ _ lines _) as [a lines' log'|h log'];
        [|apply IH; lia].
      assert (length lines' <= length lines) by (apply IH; lia). lia.
Qed.

Lemma command_loop_ends premises fuel : forall in_str lines log,
  length lines < fuel ->
  match command_loop premises fuel in_str lines log with
  | Go _ _ _ => True
  | Stop h _ => h = Waiting \/ h = Raised IndexError
  end.
Proof.
  induction fuel as [|fuel IH]; intros in_str lines log Hfuel; [lia|].
  cbn [command_loop]. destruct (str_eq in_str "exit"); io_run; [exact I|].
  destruct lines as [|first lines]; [now left|].
  cbn [length] in Hfuel.
  pose proof (premise_loop_ends premises lines fuel first [] true
                ((log ++ [Print ("Start entering your premises." +:+ newline)])
                 ++ [Input "Enter premise #1:"])) as Hinner.
  destruct (premise_loop premises fuel first [] true lines _)
    as [[[in_str1 wfp] ok] lines1 log1|h log1];
    [|left; apply Hinner; lia].
  assert (Hlen : length lines1 <= length lines) by (apply Hinner; lia).
  destruct ok; cbn [negb]; [|exact I].
  assert (Hnext : forall in_str' lines' log',
             length lines' <= length lines1 ->
             match command_loop premises fuel in_str' lines' log' with
             | Go _ _ _ => True
             | Stop h _ => h = Waiting \/ h = Raised IndexError
             end).
  { intros. apply IH. lia. }
  destruct (str_eq in_str1 "exit") eqn:Hexit; io_run.
  - rewrite Hexit. io_run. now apply Hnext.
  - destruct lines1 as [|c lines2]; [now left|].
    destruct (str_eq c "exit") eqn:Hc; io_run.
    + rewrite Hc. io_run. apply Hnext. simpl. lia.
    + destruct (is_well_formed_returns (strip c)) as [[|] ->]; io_run.
      * rewrite Hc. io_run.
        destruct (check_user_argument wfp (strip c)) as [r|e] eqn:Hcheck;
          io_run.
        -- apply Hnext. simpl. lia.
        -- right. f_equal. now apply check_user_argument_error in Hcheck.
      * change (str_eq "exit" "exit") with true. io_run.
        apply Hnext. simpl. lia.
Qed.

(** X27. Run on any lines, [start_command_line_mode] returns, or it comes to
    an [input] with no line left, or an [IndexError] leaves it: it never
    loops without reading a line, and no other exception occurs. *)
Theorem command_line_ends premises lines :
  (exists rest log, start_command_line_mode premises lines = Go tt rest log) \/
  (exists log, start_command_line_mode premises lines = Stop Waiting log) \/
  (exists log,
     start_command_line_mode premises lines = Stop (Raised IndexError) log).
Proof.
  unfold start_command_line_mode. io_run.
  pose proof (command_loop_ends premises (S (length lines)) EmptyString lines
                (([] ++ [Print "Starting ManipuLogic command line mode."]) ++
                 [Print usage])) as H.
  destruct (command_loop premises (S (length lines)) EmptyString lines _)
    as [[] rest log|h log].
  - left. now exists rest, log.
  - right. destruct H as [-> | ->]; [lia|left|right]; now exists log.
Qed.

(** ** Stripped entries *)

Lemma valid_not_space c : valid_char c = true -> is_space c = false.
Proof.
  destruct c as [[] [] [] [] [] [] [] []]; vm_compute; congruence.
Qed.

Lemma chars_tokens_length s : length (chars_tokens s) = String.length s.
Proof. induction s as [|c s IH]; [reflexivity|]. simpl. now rewrite IH. Qed.

Lemma findall_valid_all s :
  findall_valid s = chars_tokens s -> all_chars valid_char s = true.
Proof.
  induction s as [|c s IH]; [reflexivity|]. cbn [findall_valid chars_tokens all_chars].
  destruct (valid_char c).
  - intros H. injection H as H. now rewrite IH.
  - intros H. pose proof (findall_valid_length s) as Hlen.
    rewrite H in Hlen. cbn [length] in Hlen. rewrite chars_tokens_length in Hlen.
    lia.
Qed.

Lemma lstrip_spaces pad t :
  all_chars is_space pad = true -> lstrip (pad +:+ t) = lstrip t.
Proof.
  induction pad as [|c pad IH]; [reflexivity|]. cbn [all_chars].
  intros H. apply andb_true_iff in H as [Hc Hpad].
  rewrite append_cons. cbn [lstrip]. rewrite Hc. now apply IH.
Qed.

Lemma rstrip_spaces pad : all_chars is_space pad = true -> rstrip pad = EmptyString.
Proof.
  induction pad as [|c pad IH]; [reflexivity|]. cbn [all_chars rstrip].
  intros H. apply andb_true_iff in H as [Hc Hpad]. now rewrite IH, Hc.
Qed.

Lemma rstrip_tokens s pad :
  all_chars valid_char s = true -> all_chars is_space pad = true ->
  rstrip (s +:+ pad) = s.
Proof.
  intros Hs Hpad. induction s as [|c s IH]; [now apply rstrip_spaces|].
  cbn [all_chars] in Hs. apply andb_true_iff in Hs as [Hc Hs].
  rewrite append_cons. cbn [rstrip]. rewrite (IH Hs).
  destruct s; [|reflexivity]. now rewrite (valid_not_space c Hc).
Qed.

(** X28. Blanks around an entry do not count: an accepted statement comes
    back from [strip] unchanged, whatever white space is put before and
    after it. *)
Theorem strip_accepted before_pad statement after_pad :
  all_chars is_space before_pad = true ->
  all_chars is_space after_pad = true ->
  is_well_formed statement = Ok true ->
  strip (before_pad +:+ statement +:+ after_pad) = statement /\
  is_well_formed (strip (before_pad +:+ statement +:+ after_pad)) = Ok true.
Proof.
  intros Hbefore Hafter Hwf.
  assert (Hall : all_chars valid_char statement = true).
  { apply findall_valid_all, join_findall_exact.
    now apply is_well_formed_unfold in Hwf as (Hjoin & _). }
  assert (Hstrip : strip (before_pad +:+ statement +:+ after_pad) = statement).
  { unfold strip. rewrite (lstrip_spaces _ _ Hbefore).
    destruct statement as [|c s].
    - apply is_well_formed_unfold in Hwf as (_ & first & _ & Hhead & _).
      discriminate Hhead.
    - rewrite append_cons. cbn [lstrip].
      pose proof Hall as Hc. cbn [all_chars] in Hc.
      apply andb_true_iff in Hc as [Hc _].
      rewrite (valid_not_space c Hc), <- append_cons.
      now apply rstrip_tokens. }
  split; [exact Hstrip|]. now rewrite Hstrip.
Qed.

Lemma strip_accepted_witness :
  strip ("  " +:+ "A>B" +:+ " ") = "A>B" /\
  is_well_formed (strip ("  " +:+ "A>B" +:+ " ")) = Ok true.
Proof. apply (strip_accepted "  " "A>B" " "); reflexivity. Defined.
